(** * license-bot: key inventory, import and allocation (bot.py)

    A shallow embedding of the stock helpers of [bot.py]
    ([add_stock_via_text], [get_stock_count], [remove_key_from_txt],
    [pop_key]) and of the [clear_stock] command, over
    - the [keys] table declared in [init_db], as the list of its rows in
      rowid order together with the AUTOINCREMENT counter, and
    - the stock directory, as a finite map from file paths to nodes.

    Python strings are sequences of Unicode code points; they are modelled
    as lists of code points so that [str.splitlines] and [str.strip] can be
    given with their exact character tables.

    Besides the inventory the development covers the display helpers
    ([mask_key], [shorten_error], [stock_file]), the [resellers] table
    with its access tests, the commands as far as they check access and
    change the state, and the single-instance lock ([acquire_lock],
    [release_lock]). *)

From Stdlib Require Import NArith ZArith String Ascii DecimalString.
From stdpp Require Import base option list sorting gmap.

Open Scope N_scope.
Open Scope list_scope.

(** ** Python strings *)

Abbreviation str := (list N).

(** A literal: the code points of an ASCII/Latin-1 string. *)
Definition py (s : string) : str := N_of_ascii <$> list_ascii_of_string s.

Definition LF : N := 10.
Definition CR : N := 13.
Definition TAB : N := 9.
Definition SPACE : N := 32.
Definition COMMA : N := 44.
Definition SEMICOLON : N := 59.
Definition UNDERSCORE : N := 95.

Module Py.

(** The line boundaries of [str.splitlines]: \n \v \f \r \x1c \x1d \x1e
    \x85 U+2028 U+2029 (and the pair \r\n, handled in [splitlines]). *)
Definition is_linebreak (c : N) : bool :=
  (10 <=? c) && (c <=? 13) || (28 <=? c) && (c <=? 30)
  || (c =? 133) || (c =? 8232) || (c =? 8233).

(** [str.isspace] on one character, the set removed by [str.strip]. *)
Definition isspace (c : N) : bool :=
  (9 <=? c) && (c <=? 13) || (28 <=? c) && (c <=? 32)
  || (c =? 133) || (c =? 160) || (c =? 5760)
  || (8192 <=? c) && (c <=? 8202)
  || (c =? 8232) || (c =? 8233) || (c =? 8239) || (c =? 8287)
  || (c =? 12288).

(** [s.replace(old, new)] for one-character [old] and [new]. *)
Definition replace (old new : N) (s : str) : str :=
  (λ c, if c =? old then new else c) <$> s.

(** Puts [c] in front of the first line of [ls]. *)
Definition cons_line (c : N) (ls : list str) : list str :=
  match ls with
  | [] => [[c]]
  | l :: ls' => (c :: l) :: ls'
  end.

(** [s.splitlines()]: a line ends at a line boundary, \r\n counts as one
    boundary, and a final boundary opens no further line. *)
Fixpoint splitlines (s : str) : list str :=
  match s with
  | [] => []
  | c :: r =>
      if is_linebreak c then
        match r with
        | c' :: r' =>
            if (c =? CR) && (c' =? LF) then [] :: splitlines r'
            else [] :: splitlines r
        | [] => [[]]
        end
      else cons_line c (splitlines r)
  end.

Fixpoint lstrip (s : str) : str :=
  match s with
  | [] => []
  | c :: r => if isspace c then lstrip r else s
  end.

Fixpoint rstrip (s : str) : str :=
  match s with
  | [] => []
  | c :: r =>
      match rstrip r with
      | [] => if isspace c then [] else [c]
      | r' => c :: r'
      end
  end.

Definition strip (s : str) : str := rstrip (lstrip s).

(** [sep.join(ls)] *)
Fixpoint join (sep : str) (ls : list str) : str :=
  match ls with
  | [] => []
  | [l] => l
  | l :: ls' => l ++ sep ++ join sep ls'
  end.

(** Truthiness of a string: non-empty. *)
Definition truthy (s : str) : bool :=
  match s with [] => false | _ => true end.

End Py.

(** ** The [keys] table

    [CREATE TABLE keys (id INTEGER PRIMARY KEY AUTOINCREMENT,
     program TEXT NOT NULL, duration TEXT NOT NULL, key TEXT NOT NULL UNIQUE,
     used_by INTEGER, used_for INTEGER, used_at TEXT)].
    The nullable columns are options; the column [id] is the field
    [row_id]. *)

Record Key := mkKey {
  row_id : N;
  program : str;
  duration : str;
  key : str;
  used_by : option Z;
  used_for : option Z;
  used_at : option str;
}.

Global Instance Key_eq_dec : EqDecision Key.
Proof. solve_decision. Defined.

(** The table is the list of its rows in rowid order (the order of a table
    scan); [seq] is the largest rowid ever handed out, which AUTOINCREMENT
    keeps in [sqlite_sequence]. *)
Record DB := mkDB {
  rows : list Key;
  seq : N;
}.

Definition empty_db : DB := {| rows := []; seq := 0 |}.

Module Sql.

(** [WHERE program = ? AND duration = ? AND used_at IS NULL] *)
Definition unused_in (p d : str) (r : Key) : Prop :=
  program r = p ∧ duration r = d ∧ used_at r = None.

Global Instance unused_in_dec p d r : Decision (unused_in p d r).
Proof. unfold unused_in. apply _. Defined.

(** [INSERT INTO keys(program, duration, key) VALUES(?, ?, ?)].
    [None] is the IntegrityError raised by the UNIQUE constraint on
    [key]; the statement then changes nothing. *)
Definition insert_key (p d k : str) (db : DB) : option DB :=
  if decide (k ∈ (key <$> rows db)) then None
  else Some {| rows := rows db ++
                 [ {| row_id := seq db + 1; program := p; duration := d;
                      key := k; used_by := None; used_for := None;
                      used_at := None |} ];
               seq := seq db + 1 |}.

(** [SELECT COUNT( * ) FROM keys WHERE ... AND used_at IS NULL] *)
Definition count_unused (p d : str) (db : DB) : nat :=
  length (filter (unused_in p d) (rows db)).

(** The values of the unused rows of a pool, in table order. *)
Definition unused_keys (p d : str) (db : DB) : list str :=
  key <$> filter (unused_in p d) (rows db).

(** [SELECT id, key FROM keys WHERE ... AND used_at IS NULL LIMIT 1],
    then [fetchone()]: the first matching row of the table scan. *)
Definition select_unused (p d : str) (db : DB) : option (N * str) :=
  (λ ir, (row_id ir.2, key ir.2)) <$> list_find (unused_in p d) (rows db).

(** [UPDATE keys SET used_by = ?, used_for = ?, used_at = datetime('now')
     WHERE id = ?]; [now] is the text [datetime('now')] evaluates to. *)
Definition mark_row (reseller buyer : Z) (now : str) (kid : N) (r : Key) : Key :=
  if decide (row_id r = kid) then
    {| row_id := row_id r; program := program r; duration := duration r;
       key := key r; used_by := Some reseller; used_for := Some buyer;
       used_at := Some now |}
  else r.

Definition mark_used (reseller buyer : Z) (now : str) (kid : N) (db : DB) : DB :=
  {| rows := mark_row reseller buyer now kid <$> rows db; seq := seq db |}.

(** [DELETE FROM keys WHERE program = ? AND duration = ? AND used_at IS NULL] *)
Definition delete_unused (p d : str) (db : DB) : DB :=
  {| rows := filter (λ r, ¬ unused_in p d r) (rows db); seq := seq db |}.

End Sql.

(** ** The stock directory

    A path of the stock directory holds a text file or something that
    cannot be opened as one (a directory); opening the latter raises. *)

Inductive node :=
  | File (content : str)
  | Dir.

Inductive exn :=
  | FileNotFoundError
  | IsADirectoryError.

Inductive result (A : Type) :=
  | Ret (a : A)
  | Raise (e : exn).
Arguments Ret {A} a.
Arguments Raise {A} e.

Module Fs.

(** Text-mode reading translates \r\n and \r to \n. *)
Fixpoint universal_newlines (s : str) : str :=
  match s with
  | [] => []
  | c :: r =>
      if c =? CR then
        match r with
        | c' :: r' =>
            if c' =? LF then LF :: universal_newlines r'
            else LF :: universal_newlines r
        | [] => [LF]
        end
      else c :: universal_newlines r
  end.

(** [os.path.exists(path)] *)
Definition exists_ (path : str) (fs : gmap str node) : bool :=
  bool_decide (is_Some (fs !! path)).

(** [open(path, "r").read()] *)
Definition read_text (path : str) (fs : gmap str node) : result str :=
  match fs !! path with
  | Some (File c) => Ret (universal_newlines c)
  | Some Dir => Raise IsADirectoryError
  | None => Raise FileNotFoundError
  end.

(** [open(path, "w").write(text)]: creates or truncates the file. *)
Definition write_text (path : str) (text : str) (fs : gmap str node)
  : result (gmap str node) :=
  match fs !! path with
  | Some Dir => Raise IsADirectoryError
  | _ => Ret (<[path := File text]> fs)
  end.

(** [open(path, "a").write(text)]: creates the file or writes at its end. *)
Definition append_text (path : str) (text : str) (fs : gmap str node)
  : result (gmap str node) :=
  match fs !! path with
  | Some Dir => Raise IsADirectoryError
  | Some (File c) => Ret (<[path := File (c ++ text)]> fs)
  | None => Ret (<[path := File text]> fs)
  end.

End Fs.

(** ** The state the helpers work on: [bot.db] and the stock directory *)

Record state := mkState {
  db : DB;
  files : gmap str node;
}.

Definition init_state : state := {| db := empty_db; files := ∅ |}.

(** [stock_file(program, duration)], relative to STOCK_DIR: the file
    name, which the code joins to STOCK_DIR ([stock_path] below). *)
Definition stock_file (p d : str) : str := p ++ [UNDERSCORE] ++ d ++ py ".txt".

(** ** Stock helpers *)

(** The four [replace] calls of [add_stock_via_text]. *)
Definition normalize (raw_text : str) : str :=
  Py.replace SPACE LF
    (Py.replace TAB LF
      (Py.replace SEMICOLON LF
        (Py.replace COMMA LF raw_text))).

(** One turn of the loop over [normalized.splitlines()]; the loop state is
    [(seen, keys)]. *)
Definition collect_line (acc : gset str * list str) (line : str)
  : gset str * list str :=
  let k := Py.strip line in
  if Py.truthy k && bool_decide (k ∉ acc.1)
  then ({[ k ]} ∪ acc.1, acc.2 ++ [k])
  else acc.

(** The list [keys] built by the first loop of [add_stock_via_text]. *)
Definition parse_keys (raw_text : str) : list str :=
  (foldl collect_line (∅, []) (Py.splitlines (normalize raw_text))).2.

(** One turn of the insert loop; the loop state is
    [(db, added_keys, skipped)]. *)
Definition insert_one (p d : str) (acc : DB * list str * nat) (k : str)
  : DB * list str * nat :=
  let '(db, added_keys, skipped) := acc in
  match Sql.insert_key p d k db with
  | Some db' => (db', added_keys ++ [k], skipped)
  | None => (db, added_keys, S skipped)
  end.

(** The text written by [for k in added_keys: f.write(k + "\n")]. *)
Definition mirror_lines (added_keys : list str) : str :=
  foldl (λ buf k, buf ++ (k ++ [LF])) [] added_keys.

Definition add_stock_via_text (p d raw_text : str) (s : state)
  : result (nat * nat) * state :=
  let path := stock_file p d in
  let keys := parse_keys raw_text in
  match keys with
  | [] => (Ret (0, 0)%nat, s)
  | _ =>
      let '(db', added_keys, skipped) :=
        foldl (insert_one p d) (db s, [], 0%nat) keys in
      let appended :=
        match added_keys with
        | [] => Ret (files s)
        | _ => Fs.append_text path (mirror_lines added_keys) (files s)
        end in
      match appended with
      | Ret fs' =>
          (Ret (length added_keys, skipped), {| db := db'; files := fs' |})
      | Raise e => (Raise e, {| db := db'; files := files s |})
      end
  end.

Definition get_stock_count (p d : str) (s : state) : nat :=
  Sql.count_unused p d (db s).

(** One turn of the loop of [remove_key_from_txt]; the loop state is
    [(removed, new_lines)]. *)
Definition remove_line (key_value : str) (acc : bool * list str) (line : str)
  : bool * list str :=
  if negb acc.1 && bool_decide (Py.strip line = key_value)
  then (true, acc.2)
  else (acc.1, acc.2 ++ [line]).

(** The text written back: the lines joined by \n, [rstrip]ped, and one
    \n added unless [new_lines] is empty. *)
Definition rewritten (new_lines : list str) : str :=
  Py.rstrip (Py.join [LF] new_lines)
    ++ (match new_lines with [] => [] | _ => [LF] end).

Definition remove_key_from_txt (p d key_value : str) (fs : gmap str node)
  : result bool * gmap str node :=
  let path := stock_file p d in
  if negb (Fs.exists_ path fs) then (Ret false, fs)
  else
    match Fs.read_text path fs with
    | Raise e => (Raise e, fs)
    | Ret text =>
        let lines := Py.splitlines text in
        let '(removed, new_lines) :=
          foldl (remove_line key_value) (false, []) lines in
        if removed then
          match Fs.write_text path (rewritten new_lines) fs with
          | Ret fs' => (Ret removed, fs')
          | Raise e => (Raise e, fs)
          end
        else (Ret removed, fs)
    end.

(** [pop_key]: the transaction (BEGIN IMMEDIATE ... COMMIT, or ROLLBACK
    when no row is found), then the removal from the mirror file inside
    [try ... except Exception], whose outcome is only printed. *)
Definition pop_key (p d : str) (reseller_id buyer_id : Z) (now : str) (s : state)
  : option str * state :=
  match Sql.select_unused p d (db s) with
  | None => (None, s)
  | Some (key_id, key_value) =>
      let db' := Sql.mark_used reseller_id buyer_id now key_id (db s) in
      let fs' := (remove_key_from_txt p d key_value (files s)).2 in
      (Some key_value, {| db := db'; files := fs' |})
  end.

(** The body of [clear_stock_cmd] after the owner check: count, delete,
    commit, then wipe the mirror file. *)
Definition clear_stock (p d : str) (s : state) : result nat * state :=
  let before_count := Sql.count_unused p d (db s) in
  let db' := Sql.delete_unused p d (db s) in
  match Fs.write_text (stock_file p d) [] (files s) with
  | Ret fs' => (Ret before_count, {| db := db'; files := fs' |})
  | Raise e => (Raise e, {| db := db'; files := files s |})
  end.

(** The rows a run of successful INSERTs appends, the counter standing
    at [n] before. *)
Fixpoint new_rows (p d : str) (n : N) (ks : list str) : list Key :=
  match ks with
  | [] => []
  | k :: ks' =>
      mkKey (n + 1) p d k None None None :: new_rows p d (n + 1) ks'
  end.

(** ** The operations of the command layer on the inventory *)

Inductive op :=
  | AddStock (p d raw_text : str)
  | PopKey (p d : str) (reseller_id buyer_id : Z) (now : str)
  | ClearStock (p d : str)
  | StockCount (p d : str).

Definition run_op (o : op) (s : state) : state :=
  match o with
  | AddStock p d raw_text => (add_stock_via_text p d raw_text s).2
  | PopKey p d reseller_id buyer_id now => (pop_key p d reseller_id buyer_id now s).2
  | ClearStock p d => (clear_stock p d s).2
  | StockCount p d => s
  end.

(** A step of the system: an operation, or an edit of the stock directory
    from outside (the mirror files are plain files). *)
Inductive step : state → state → Prop :=
  | step_op o s : step s (run_op o s)
  | step_edit s fs : step s {| db := db s; files := fs |}.

Definition reachable (s : state) : Prop := rtc step init_state s.

(** ** Invariants of the [keys] table *)

(** UNIQUE on [key]; rowids strictly increase along the table and never
    exceed the AUTOINCREMENT counter. *)
Record db_ok (d : DB) : Prop := mk_db_ok {
  ok_keys : NoDup (key <$> rows d);
  ok_ids : StronglySorted N.lt (row_id <$> rows d);
  ok_seq : Forall (λ r, row_id r ≤ seq d) (rows d);
}.

Definition claimed (r : Key) : Prop := used_at r ≠ None.

(** Calls of [pop_key] one after the other. *)
Fixpoint serial (p d : str) (calls : list (Z * Z * str)) (s : state)
  : list (option str) * state :=
  match calls with
  | [] => ([], s)
  | (reseller_id, buyer_id, now) :: rest =>
      let out := pop_key p d reseller_id buyer_id now s in
      let outs := serial p d rest out.2 in
      (out.1 :: outs.1, outs.2)
  end.

(** ** Concurrent calls of [pop_key]

    The calls run as coroutines of one event loop: control can change
    hands at every [await] and nowhere else.  Each call has its own
    connection.  [BEGIN IMMEDIATE] takes the write lock of the database
    file and cannot go ahead while another connection holds it; COMMIT and
    ROLLBACK give it back.  What the holder of the lock has written is
    seen by no other connection before the COMMIT, and since every access
    of [pop_key] to the table lies between its BEGIN IMMEDIATE and its
    COMMIT or ROLLBACK, the table of the holder is the only one a step
    can look at.  The code after the [async with] block has no [await]:
    the removal from the mirror file and the [return] are one step; so
    are ROLLBACK and the [return None] after it, between which the call
    touches nothing.

    The connection is opened by [aiosqlite.connect(DB_PATH)] with no
    [timeout] argument, so sqlite3's default of 5 seconds is the busy
    timeout: a [BEGIN IMMEDIATE] that has found the lock taken for that
    long raises OperationalError, which [pop_key] neither catches nor
    retries.  Time is not modelled: whether the wait of a call runs out
    is left to the schedule, which may let it run out whenever the lock
    is with another call. *)

Module Concurrent.

(** Where a call stands; [Raised] is the end by the exception of
    BEGIN IMMEDIATE. *)
Inductive pc :=
  | Start
  | Begun
  | Selected (row : option (N * str))
  | Updated (key_value : str)
  | Committed (key_value : str)
  | Done (result : option str)
  | Raised.

Record call := mkCall {
  reseller_id : Z;
  buyer_id : Z;
  at_pc : pc;
}.

Record world := mkWorld {
  w_db : DB;
  w_files : gmap str node;
  w_lock : option nat;
  w_calls : list call;
}.

Definition move (i : nat) (c : call) (to : pc) (cs : list call) : list call :=
  <[i := {| reseller_id := reseller_id c; buyer_id := buyer_id c; at_pc := to |}]> cs.

(** One step of call [i] of the pool (p, d); [now] is what
    [datetime('now')] gives should the step be the UPDATE.  [None]: the
    call cannot move (it waits for the lock, has ended, or does not
    exist). *)
Definition step_call (p d : str) (i : nat) (now : str) (w : world) : option world :=
  c ← w_calls w !! i;
  match at_pc c with
  | Start =>
      match w_lock w with
      | None =>
          Some {| w_db := w_db w; w_files := w_files w; w_lock := Some i;
                  w_calls := move i c Begun (w_calls w) |}
      | Some _ => None
      end
  | Begun =>
      Some {| w_db := w_db w; w_files := w_files w; w_lock := w_lock w;
              w_calls := move i c (Selected (Sql.select_unused p d (w_db w)))
                           (w_calls w) |}
  | Selected None =>
      Some {| w_db := w_db w; w_files := w_files w; w_lock := None;
              w_calls := move i c (Done None) (w_calls w) |}
  | Selected (Some (key_id, key_value)) =>
      Some {| w_db := Sql.mark_used (reseller_id c) (buyer_id c) now key_id (w_db w);
              w_files := w_files w; w_lock := w_lock w;
              w_calls := move i c (Updated key_value) (w_calls w) |}
  | Updated key_value =>
      Some {| w_db := w_db w; w_files := w_files w; w_lock := None;
              w_calls := move i c (Committed key_value) (w_calls w) |}
  | Committed key_value =>
      Some {| w_db := w_db w;
              w_files := (remove_key_from_txt p d key_value (w_files w)).2;
              w_lock := w_lock w;
              w_calls := move i c (Done (Some key_value)) (w_calls w) |}
  | Done _ => None
  | Raised => None
  end.

(** The busy timeout of call [i] runs out: the call stands at its
    BEGIN IMMEDIATE and the lock is with another call.  The statement
    raises, the call ends, nothing is changed.  [None]: the call does not
    wait. *)
Definition time_out (i : nat) (w : world) : option world :=
  c ← w_calls w !! i;
  match at_pc c, w_lock w with
  | Start, Some _ =>
      Some {| w_db := w_db w; w_files := w_files w; w_lock := w_lock w;
              w_calls := move i c Raised (w_calls w) |}
  | _, _ => None
  end.

(** What happens next: a call takes its step, or the wait of a call
    runs out. *)
Inductive event :=
  | Turn (i : nat) (now : str)
  | BusyTimeout (i : nat).

Definition step_event (p d : str) (e : event) (w : world) : option world :=
  match e with
  | Turn i now => step_call p d i now w
  | BusyTimeout i => time_out i w
  end.

Definition is_turn (e : event) : bool :=
  match e with Turn _ _ => true | BusyTimeout _ => false end.

(** A schedule names, step by step, what happens. *)
Fixpoint run (p d : str) (sched : list event) (w : world) : option world :=
  match sched with
  | [] => Some w
  | e :: rest => w' ← step_event p d e w; run p d rest w'
  end.

(** All calls about to start; [callers] gives (reseller, buyer) of each. *)
Definition init (callers : list (Z * Z)) (dbs : DB) (fs : gmap str node) : world :=
  {| w_db := dbs; w_files := fs; w_lock := None;
     w_calls := (λ rb, mkCall rb.1 rb.2 Start) <$> callers |}.

Definition returned (c : call) : option (option str) :=
  match at_pc c with Done r => Some r | _ => None end.

Definition is_raised (t : pc) : bool :=
  match t with Raised => true | _ => false end.

(** A call has ended when it has returned or raised. *)
Definition ended (t : pc) : bool :=
  match t with Done _ | Raised => true | _ => false end.

Definition finished (w : world) : Prop :=
  Forall (λ c, ended (at_pc c) = true) (w_calls w).

(** What the calls that returned have returned, in the order of the
    callers. *)
Definition results (w : world) : list (option str) :=
  omap returned (w_calls w).

(** What call [i] returned, if it returned. *)
Definition result_of (w : world) (i : nat) : option (option str) :=
  w_calls w !! i ≫= returned.

(** The number of calls that ended by the exception. *)
Definition raised (w : world) : nat :=
  sum_list ((λ c, if is_raised (at_pc c) then 1%nat else 0%nat) <$> w_calls w).

(** The keys handed out. *)
Definition handed_out (w : world) : list str := omap id (results w).

(** Between BEGIN IMMEDIATE and COMMIT or ROLLBACK. *)
Definition in_txn (t : pc) : bool :=
  match t with
  | Begun | Selected _ | Updated _ => true
  | _ => false
  end.

(** The outcome of a call whose transaction has decided it. *)
Definition decided (t : pc) : option (option str) :=
  match t with
  | Updated key_value | Committed key_value => Some (Some key_value)
  | Done r => Some r
  | _ => None
  end.

(** An upper bound on the steps a call still takes. *)
Definition remaining (t : pc) : nat :=
  match t with
  | Start => 5
  | Begun => 4
  | Selected (Some _) => 3
  | Selected None => 1
  | Updated _ => 2
  | Committed _ => 1
  | Done _ => 0
  | Raised => 0
  end%nat.

Definition measure (w : world) : nat :=
  sum_list (remaining ∘ at_pc <$> w_calls w).

(** The lock is held by the one call inside its transaction, and what a
    call has selected is still what the table gives. *)
Record lock_inv (p d : str) (w : world) : Prop := mk_lock_inv {
  lock_holder : ∀ i c, w_calls w !! i = Some c → in_txn (at_pc c) = true →
                       w_lock w = Some i;
  lock_held : ∀ i, w_lock w = Some i →
                   ∃ c, w_calls w !! i = Some c ∧ in_txn (at_pc c) = true;
  lock_fresh : ∀ i c r, w_calls w !! i = Some c → at_pc c = Selected r →
                        r = Sql.select_unused p d (w_db w);
}.

(** [log] lists the decided calls in the order of their decisions, each
    with its arguments: running them one after the other from the first
    table gives the present table and the decided outcomes. *)
Record log_inv (p d : str) (callers : list (Z * Z)) (dbs : DB)
    (fs : gmap str node) (w : world) (log : list (nat * (Z * Z * str))) : Prop :=
  mk_log_inv {
    log_callers : (λ c, (reseller_id c, buyer_id c)) <$> w_calls w = callers;
    log_nodup : NoDup log.*1;
    log_decided : ∀ i, i ∈ log.*1 ↔
                       ∃ c, w_calls w !! i = Some c ∧ is_Some (decided (at_pc c));
    log_args : ∀ i a b now, (i, (a, b, now)) ∈ log → callers !! i = Some (a, b);
    log_db : db (serial p d log.*2 {| db := dbs; files := fs |}).2 = w_db w;
    log_perm : omap (decided ∘ at_pc) (w_calls w)
               ≡ₚ (serial p d log.*2 {| db := dbs; files := fs |}).1;
    log_outcome : ∀ j i, log.*1 !! j = Some i →
                         ∃ c, w_calls w !! i = Some c ∧
                              decided (at_pc c)
                              = (serial p d log.*2 {| db := dbs; files := fs |}).1 !! j;
  }.

End Concurrent.

(** ** Tokenisation and line editing as the specification words them *)

Module Spec.

(** Splitting at every character of a delimiter set: n delimiters give
    n + 1 pieces. *)
Fixpoint split (delim : N → bool) (s : str) : list str :=
  match s with
  | [] => [[]]
  | c :: r =>
      if delim c then [] :: split delim r
      else Py.cons_line c (split delim r)
  end.

(** Keeps the first occurrence of every element, in order. *)
Definition dedup_first (l : list str) : list str :=
  reverse (remove_dups (reverse l)).

(** Trims every piece and drops the empty ones. *)
Definition nonempty_stripped (ls : list str) : list str :=
  filter (λ t, t ≠ []) (Py.strip <$> ls).

(** Split, trim each piece, drop the empty ones, deduplicate. *)
Definition tokens (delim : N → bool) (raw_text : str) : list str :=
  dedup_first (nonempty_stripped (split delim raw_text)).

(** The five delimiters the specification lists. *)
Definition listed_delimiter (c : N) : bool :=
  (c =? LF) || (c =? COMMA) || (c =? SEMICOLON) || (c =? TAB) || (c =? SPACE).

(** The delimiters of the code: the listed ones and every line boundary
    of [str.splitlines]. *)
Definition is_separator (c : N) : bool :=
  listed_delimiter c || Py.is_linebreak c.

(** The lines of a text once the whitespace at its end is stripped:
    whitespace-only lines at the bottom go, and the last line left loses
    its trailing whitespace. *)
Fixpoint rstrip_lines (ls : list str) : list str :=
  match ls with
  | [] => []
  | l :: ls' =>
      match rstrip_lines ls' with
      | [] => match Py.rstrip l with [] => [] | l' => [l'] end
      | rest => l :: rest
      end
  end.

End Spec.

(** ** Shape of an accepted key value *)

(** Non-empty, none of newline, comma, semicolon, tab and space inside, and
    no whitespace at either end. *)
Definition well_formed_key (k : str) : Prop :=
  k ≠ [] ∧
  Forall (λ c, c ∉ [LF; COMMA; SEMICOLON; TAB; SPACE]) k ∧
  (∀ c, head k = Some c → Py.isspace c = false) ∧
  (∀ c, last k = Some c → Py.isspace c = false).

(** No separator of the import at all, that is also no other line
    boundary. *)
Definition separator_free (k : str) : Prop :=
  Forall (λ c, Spec.is_separator c = false) k.

Definition shaped (r : Key) : Prop :=
  well_formed_key (key r) ∧ separator_free (key r).

(** ** Further helpers of [bot.py] *)

Definition STAR : N := 42.
Definition SLASH : N := 47.

(** The option lists [PROGRAMS] and [DURATIONS]. *)
Definition PROGRAMS : list str := [py "temp"; py "perm"; py "private"].
Definition DURATIONS : list str :=
  [py "day"; py "week"; py "month"; py "lifetime"].

(** [os.path.join(a, b)] on a POSIX system: a second part that begins
    with a slash stands alone; otherwise one slash joins the two, unless
    the first part is empty or ends in one. *)
Definition path_join (a b : str) : str :=
  if bool_decide (head b = Some SLASH) then b
  else if bool_decide (a = [] ∨ last a = Some SLASH) then a ++ b
  else a ++ [SLASH] ++ b.

(** The path [stock_file(program, duration)] returns, [STOCK_DIR] being
    what the environment made it; [stock_file] above is its last part. *)
Definition stock_path (STOCK_DIR p d : str) : str :=
  path_join STOCK_DIR (stock_file p d).

(** [s[:stop]] and [s[start:]] for integers of either sign: a negative
    bound counts from the end and stops at the beginning. *)
Definition slice_to (stop : Z) (s : str) : str :=
  if (0 <=? stop)%Z then take (Z.to_nat stop) s
  else take (length s - Z.to_nat (- stop)) s.

Definition slice_from (start : Z) (s : str) : str :=
  if (0 <=? start)%Z then drop (Z.to_nat start) s
  else drop (length s - Z.to_nat (- start)) s.

(** [c * n] for a one-character string and an integer. *)
Definition repeat_char (c : N) (n : Z) : str := replicate (Z.to_nat n) c.

(** [mask_key]; for a string argument [k or ...] is [k]. *)
Definition mask_key (k : str) : str :=
  let k := Py.strip k in
  if (Z.of_nat (length k) <=? 8)%Z then k
  else slice_to 4 k ++ repeat_char STAR (Z.of_nat (length k) - 8)
         ++ slice_from (-4) k.

(** [shorten_error]; the default of [limit] is 300. *)
Definition shorten_error (msg : str) (limit : Z) : str :=
  let msg := Py.strip msg in
  if (Z.of_nat (length msg) <=? limit)%Z then msg
  else slice_to (limit - 3) msg ++ py "...".

Definition default_limit : Z := 300.

(** ** The [resellers] table

    [CREATE TABLE resellers (user_id INTEGER NOT NULL, program TEXT NOT
     NULL, PRIMARY KEY (user_id, program))]: the list of its rows.
    [OWNER_IDS] is the set read from the environment at start. *)

Definition is_owner (OWNER_IDS : gset Z) (user_id : Z) : bool :=
  bool_decide (user_id ∈ OWNER_IDS).

(** [SELECT 1 FROM resellers WHERE user_id = ? AND program = ?] *)
Definition reseller_has_access (OWNER_IDS : gset Z) (user_id : Z)
    (program : str) (t : list (Z * str)) : bool :=
  if is_owner OWNER_IDS user_id then true
  else bool_decide (Exists (λ r, r.1 = user_id ∧ r.2 = program) t).

(** [SELECT 1 FROM resellers WHERE user_id = ? LIMIT 1] *)
Definition is_reseller_anywhere (OWNER_IDS : gset Z) (user_id : Z)
    (t : list (Z * str)) : bool :=
  if is_owner OWNER_IDS user_id then true
  else bool_decide (Exists (λ r, r.1 = user_id) t).

(** [INSERT OR IGNORE INTO resellers(user_id, program) VALUES(?, ?)]: the
    primary key makes the statement do nothing when the row is there. *)
Definition add_reseller_db (user_id : Z) (program : str) (t : list (Z * str))
  : list (Z * str) :=
  if decide ((user_id, program) ∈ t) then t else t ++ [(user_id, program)].

(** [DELETE FROM resellers WHERE user_id = ? AND program = ?] *)
Definition remove_reseller_db (user_id : Z) (program : str) (t : list (Z * str))
  : list (Z * str) :=
  filter (λ r, ¬ (r.1 = user_id ∧ r.2 = program)) t.

(** ** The commands

    The state of the bot is the inventory and the [resellers] table.  Of
    a command the model keeps the caller, the arguments, what the outside
    world answers (whether [defer] goes through, whether the direct
    message goes through, what the guild says about the role) and, as its
    result, which reply is sent with the values put into it. *)

Record bot := mkBot {
  inventory : state;
  resellers : list (Z * str);
}.

Definition init_bot : bot := {| inventory := init_state; resellers := [] |}.

(** The replies of [gen_key_cmd]. *)
Inductive gen_key_reply :=
  | GenNoAccess
  | GenNoReply
  | GenNoStock
  | GenConfirmed
  | GenDmFailed (reason : str) (key_value : str).

(** [gen_key_cmd]: [defer_ok] tells whether [defer] goes through,
    [dm_error] is the text of the exception of [buyer.send], if any.
    The result is the reply, the key the buyer got by direct message, and
    the state. *)
Definition gen_key_cmd (OWNER_IDS : gset Z) (caller : Z) (p d : str)
    (buyer : Z) (defer_ok : bool) (dm_error : option str) (now : str) (b : bot)
  : gen_key_reply * option str * bot :=
  if negb (reseller_has_access OWNER_IDS caller p (resellers b))
  then (GenNoAccess, None, b)
  else if negb defer_ok then (GenNoReply, None, b)
  else
    let out := pop_key p d caller buyer now (inventory b) in
    let b' := {| inventory := out.2; resellers := resellers b |} in
    match out.1 with
    | None => (GenNoStock, None, b')
    | Some key_value =>
        if negb (Py.truthy key_value) then (GenNoStock, None, b')
        else
          match dm_error with
          | None => (GenConfirmed, Some key_value, b')
          | Some e =>
              let shown := if Py.truthy e then e else py "Unknown" in
              (GenDmFailed (shorten_error shown default_limit) key_value,
               None, b')
          end
    end.

(** What [log_gen_key] shows of the key. *)
Definition logged_key (LOG_FULL_KEY : bool) (key_value : str) : str :=
  if LOG_FULL_KEY then key_value else mask_key key_value.

(** What the guild answers when a role is to be given or taken. *)
Inductive role_env :=
  | NoGuild
  | RoleNotFound
  | RoleCallOk
  | RoleCallForbidden
  | RoleCallError.

(** The notes of [remove_reseller_cmd]. *)
Inductive remove_note :=
  | RemoveNoGuild
  | RemoveRoleNotFound
  | RemoveKept
  | RemoveRemoved
  | RemoveForbidden
  | RemoveError.

(** [remove_reseller_cmd]: [None] is the reply to a caller who is no
    owner; the boolean tells whether the role was taken from the user. *)
Definition remove_reseller_cmd (OWNER_IDS : gset Z) (caller : Z) (p : str)
    (user : Z) (env : role_env) (b : bot) : option remove_note * bool * bot :=
  if negb (is_owner OWNER_IDS caller) then (None, false, b)
  else
    let t := remove_reseller_db user p (resellers b) in
    let b' := {| inventory := inventory b; resellers := t |} in
    let still_reseller := is_reseller_anywhere OWNER_IDS user t in
    match env with
    | NoGuild => (Some RemoveNoGuild, false, b')
    | RoleNotFound => (Some RemoveRoleNotFound, false, b')
    | RoleCallOk =>
        if still_reseller then (Some RemoveKept, false, b')
        else (Some RemoveRemoved, true, b')
    | RoleCallForbidden =>
        if still_reseller then (Some RemoveKept, false, b')
        else (Some RemoveForbidden, false, b')
    | RoleCallError =>
        if still_reseller then (Some RemoveKept, false, b')
        else (Some RemoveError, false, b')
    end.

(** The commands with their arguments and the answers of the outside
    world. *)
Inductive command :=
  | AddReseller (p : str) (user : Z)
  | RemoveReseller (p : str) (user : Z) (env : role_env)
  | AddStockFile (p d : str) (filename_is_txt : bool) (text : str)
  | ClearStockCmd (p d : str)
  | StockCmd (p d : str)
  | HwidReset (key_value d reason : str)
  | GenKey (p d : str) (buyer : Z) (defer_ok : bool) (dm_error : option str)
           (now : str).

(** The state a command leaves.  [add_reseller_cmd] writes the table
    before it looks at the guild; [add_stock_file_cmd] tests the owner,
    then the file name, and hands the decoded text to
    [add_stock_via_text]; [stock_cmd] and [hwid_reset_cmd] write
    nothing. *)
Definition run_command (OWNER_IDS : gset Z) (caller : Z) (c : command) (b : bot)
  : bot :=
  match c with
  | AddReseller p user =>
      if negb (is_owner OWNER_IDS caller) then b
      else {| inventory := inventory b;
              resellers := add_reseller_db user p (resellers b) |}
  | RemoveReseller p user env =>
      (remove_reseller_cmd OWNER_IDS caller p user env b).2
  | AddStockFile p d filename_is_txt text =>
      if negb (is_owner OWNER_IDS caller) then b
      else if negb filename_is_txt then b
      else {| inventory := (add_stock_via_text p d text (inventory b)).2;
              resellers := resellers b |}
  | ClearStockCmd p d =>
      if negb (is_owner OWNER_IDS caller) then b
      else {| inventory := (clear_stock p d (inventory b)).2;
              resellers := resellers b |}
  | StockCmd p d => b
  | HwidReset key_value d reason => b
  | GenKey p d buyer defer_ok dm_error now =>
      (gen_key_cmd OWNER_IDS caller p d buyer defer_ok dm_error now b).2
  end.

(** The states the commands lead to. *)
Inductive bot_step (OWNER_IDS : gset Z) : bot → bot → Prop :=
  | bot_step_command caller c b :
      bot_step OWNER_IDS b (run_command OWNER_IDS caller c b).

(** The pools the commands offer: a program of [PROGRAMS] and a duration
    of [DURATIONS]. *)
Definition offered (p d : str) : Prop := p ∈ PROGRAMS ∧ d ∈ DURATIONS.

Definition offered_op (o : op) : Prop :=
  match o with
  | AddStock p d _ | PopKey p d _ _ _ | ClearStock p d | StockCount p d =>
      offered p d
  end.

(** The states reached from the empty one when the operations, all on
    offered pools, run one at a time - each from its first statement to
    its last before the next begins - and nothing else touches the stock
    directory.  Operations that overlap are not among these runs: in
    [add_stock_via_text], [pop_key] and [clear_stock_cmd] the mirror file
    is written after the COMMIT, with awaits between, so that another
    command can come in between the two. *)
Inductive run_one_by_one : state → Prop :=
  | run_one_by_one_init : run_one_by_one init_state
  | run_one_by_one_op o s : run_one_by_one s → offered_op o → run_one_by_one (run_op o s).

(** The mirror file of a pool says what the table says: it holds the
    unused values of the pool, one line each, in table order; no file
    stands for no unused value. *)
Definition mirror_agrees (p d : str) (s : state) : Prop :=
  match files s !! stock_file p d with
  | Some (File content) => content = mirror_lines (Sql.unused_keys p d (db s))
  | Some Dir => False
  | None => Sql.unused_keys p d (db s) = []
  end.

(** ** Row lineage

    [continues dbs dbs']: every row of the later table [dbs'] carries on
    a row of the earlier table [dbs] (same id, pool and value, and the
    very same row when that one was claimed), or has an id above the
    earlier AUTOINCREMENT counter. *)
Definition continues (dbs dbs' : DB) : Prop :=
  seq dbs ≤ seq dbs' ∧
  ∀ r', r' ∈ rows dbs' →
    (∃ r, r ∈ rows dbs ∧ row_id r' = row_id r ∧ program r' = program r ∧
          duration r' = duration r ∧ key r' = key r ∧ (claimed r → r' = r))
    ∨ seq dbs < row_id r'.

(** ** Commands with the choices Discord offers

    [app_commands.choices] lets a caller pick [program] from [PROGRAMS]
    and [duration] from [DURATIONS] only. *)
Definition offered_command (c : command) : Prop :=
  match c with
  | AddReseller p _ | RemoveReseller p _ _ => p ∈ PROGRAMS
  | AddStockFile p d _ _ | ClearStockCmd p d | StockCmd p d
  | GenKey p d _ _ _ _ => offered p d
  | HwidReset _ d _ => d ∈ DURATIONS
  end.

(** The states of the bot reached from the start when such commands run
    one at a time, each handled to its end before the next begins. *)
Inductive commands_one_by_one (OWNER_IDS : gset Z) : bot → Prop :=
  | commands_one_by_one_init : commands_one_by_one OWNER_IDS init_bot
  | commands_one_by_one_step caller c b :
      commands_one_by_one OWNER_IDS b → offered_command c →
      commands_one_by_one OWNER_IDS (run_command OWNER_IDS caller c b).

(** ** The single-instance lock

    [acquire_lock] runs when the module is loaded, [release_lock] is
    registered with [atexit] right after it.  The temporary directory is
    a finite map like the stock directory. *)

Module Lock.

(** The name of the lock file in the temporary directory. *)
Definition LOCK_PATH : str := py "bot.lock".

(** [str(os.getpid())] *)
Definition pid_text (pid : N) : str :=
  py (NilEmpty.string_of_uint (N.to_uint pid)).

(** [acquire_lock]: [os.open] with [O_CREAT | O_EXCL] fails with
    FileExistsError when the path is there, whatever it is; [None] is
    [sys.exit(1)]. *)
Definition acquire_lock (LOCK_ENABLED : bool) (pid : N) (tmp : gmap str node)
  : option (gmap str node) :=
  if negb LOCK_ENABLED then Some tmp
  else
    match tmp !! LOCK_PATH with
    | None => Some (<[LOCK_PATH := File (pid_text pid)]> tmp)
    | Some _ => None
    end.

(** [release_lock]: [os.remove], FileNotFoundError being passed over; on
    a directory [os.remove] raises and removes nothing. *)
Definition release_lock (LOCK_ENABLED : bool) (tmp : gmap str node)
  : gmap str node :=
  if negb LOCK_ENABLED then tmp
  else
    match tmp !! LOCK_PATH with
    | Some (File _) => delete LOCK_PATH tmp
    | _ => tmp
    end.

(** The temporary directory and the process ids of the instances that
    are running. *)
Record world := mkWorld {
  tmp : gmap str node;
  running : gset N;
}.

(** An instance is launched: [acquire_lock()] runs first, and only an
    instance that got past it registers [release_lock].  An instance
    exits, which runs [release_lock]; or it is killed, which runs
    nothing. *)
Inductive step (LOCK_ENABLED : bool) : world → world → Prop :=
  | step_launch pid w :
      pid ∉ running w →
      step LOCK_ENABLED w
        match acquire_lock LOCK_ENABLED pid (tmp w) with
        | Some tmp' => {| tmp := tmp'; running := {[ pid ]} ∪ running w |}
        | None => w
        end
  | step_exit pid w :
      pid ∈ running w →
      step LOCK_ENABLED w
        {| tmp := release_lock LOCK_ENABLED (tmp w);
           running := running w ∖ {[ pid ]} |}
  | step_kill pid w :
      pid ∈ running w →
      step LOCK_ENABLED w {| tmp := tmp w; running := running w ∖ {[ pid ]} |}.

(** At most one instance runs, and while one runs the lock file is
    there. *)
Definition lock_held (w : world) : Prop :=
  (∀ p1 p2, p1 ∈ running w → p2 ∈ running w → p1 = p2) ∧
  (running w ≠ ∅ → is_Some (tmp w !! LOCK_PATH)).

End Lock.

(** ** Sample states *)

Definition sample_program : str := py "temp".
Definition sample_duration : str := py "day".
Definition sample_now : str := py "2026-01-01 00:00:00".

Definition sample_stocked : state :=
  run_op (AddStock sample_program sample_duration (py "A A B")) init_state.

Definition sample_popped : state :=
  run_op (PopKey sample_program sample_duration 7 8 sample_now) sample_stocked.

Definition sample_broken_mirror : gmap str node :=
  {[ stock_file sample_program sample_duration := Dir ]}.

(** A mirror file in which the value A stands twice. *)
Definition sample_mirror : gmap str node :=
  {[ stock_file sample_program sample_duration :=
       File (py "A" ++ [LF] ++ py "B" ++ [LF] ++ py "A" ++ [LF]) ]}.

Definition sample_callers : list (Z * Z) := [(1, 2); (3, 4); (5, 6); (7, 8)]%Z.

(** Four calls on a pool of two keys.  Call 0 takes the lock; the wait
    of call 3 runs out; calls 0 and 1 are interleaved and get the keys;
    call 2 finds the pool empty. *)
Definition sample_schedule : list Concurrent.event :=
  [Concurrent.Turn 0 sample_now; Concurrent.BusyTimeout 3]
  ++ ((λ i, Concurrent.Turn i sample_now) <$>
        [0; 0; 0; 1; 0; 1; 1; 1; 2; 1; 2; 2]%nat).

Definition sample_world : Concurrent.world :=
  Concurrent.init sample_callers (db sample_stocked) (files sample_stocked).

(** Two calls on a pool of two keys: call 0 takes the lock, the wait of
    call 1 runs out, call 0 goes on to its return. *)
Definition sample_pair : Concurrent.world :=
  Concurrent.init [(1, 2); (3, 4)]%Z (db sample_stocked) (files sample_stocked).

Definition sample_timeout_schedule : list Concurrent.event :=
  [Concurrent.Turn 0 sample_now; Concurrent.BusyTimeout 1]
  ++ replicate 4 (Concurrent.Turn 0 sample_now).

(** Two calls that overlap: call 0 has committed but not yet come to the
    mirror file when call 1 runs from its start to its return. *)
Definition sample_overlap_schedule : list Concurrent.event :=
  (λ i, Concurrent.Turn i sample_now) <$> [0; 0; 0; 0; 1; 1; 1; 1; 1]%nat.

Definition sample_claimed_row : Key :=
  mkKey 1 sample_program sample_duration (py "A") (Some 7%Z) (Some 8%Z)
        (Some sample_now).

Definition sample_unused_row : Key :=
  mkKey 1 sample_program sample_duration (py "A") None None None.

Definition sample_owners : gset Z := {[ 1%Z ]}.

(** The owner is user 1; user 7 sells [sample_program]. *)
Definition sample_bot : bot :=
  {| inventory := sample_stocked; resellers := [(7%Z, sample_program)] |}.

Definition sample_upload : command :=
  AddStockFile sample_program sample_duration true (py "A A B").

Definition sample_idle : Lock.world := {| Lock.tmp := ∅; Lock.running := ∅ |}.

(** Instance 42 has been launched. *)
Definition sample_started : Lock.world :=
  {| Lock.tmp := <[Lock.LOCK_PATH := File (Lock.pid_text 42)]> ∅;
     Lock.running := {[ 42 ]} ∪ ∅ |}.

(** It has been killed. *)
Definition sample_killed : Lock.world :=
  {| Lock.tmp := Lock.tmp sample_started; Lock.running := ∅ |}.

(** What a launch of instance 43, and then of instance 44, gives after
    that. *)
Definition sample_relaunch (pid : N) (w : Lock.world) : Lock.world :=
  match Lock.acquire_lock true pid (Lock.tmp w) with
  | Some tmp' => {| Lock.tmp := tmp'; Lock.running := {[ pid ]} ∪ Lock.running w |}
  | None => w
  end.

Definition sample_relaunched : Lock.world :=
  sample_relaunch 44 (sample_relaunch 43 sample_killed).

(** A pool with one key of fourteen characters. *)
Definition sample_long_stocked : state :=
  run_op (AddStock sample_program sample_duration (py "ABCD-EFGH-IJKL"))
    init_state.

Definition sample_long_row : Key :=
  mkKey 1 sample_program sample_duration (py "ABCD-EFGH-IJKL") None None None.

(** * Proofs *)

(** ** The string functions on small inputs *)

Example splitlines_trailing_boundary :
  Py.splitlines (py "ab" ++ [LF] ++ py "c" ++ [LF; LF]) = [py "ab"; py "c"; []].
Proof. reflexivity. Qed.

Example splitlines_crlf :
  Py.splitlines (py "a" ++ [CR; CR; LF] ++ py "b") = [py "a"; []; py "b"].
Proof. reflexivity. Qed.

Example splitlines_lf_cr :
  Py.splitlines (py "a" ++ [LF; CR] ++ py "b") = [py "a"; []; py "b"].
Proof. reflexivity. Qed.

Example strip_both_ends : Py.strip (py "  K 1 " ++ [LF]) = py "K 1".
Proof. reflexivity. Qed.

Example join_lines : Py.join [LF] [py "a"; []; py "b"] = py "a" ++ [LF; LF] ++ py "b".
Proof. reflexivity. Qed.

Example universal_newlines_mixed :
  Fs.universal_newlines (py "a" ++ [CR; LF] ++ py "b" ++ [CR] ++ py "c")
  = py "a" ++ [LF] ++ py "b" ++ [LF] ++ py "c".
Proof. reflexivity. Qed.

Example parse_keys_mixed :
  parse_keys (py " K1,K2;;K1" ++ [TAB] ++ py "K3 " ++ [CR; LF] ++ py "K2")
  = [py "K1"; py "K2"; py "K3"].
Proof. reflexivity. Qed.

(** ** The table *)

Section table_lemmas.
Implicit Types (d : DB) (r : Key) (p k : str).

Lemma db_ok_empty : db_ok empty_db.
Proof. split; simpl; constructor. Qed.

Lemma insert_key_None p dur k d :
  Sql.insert_key p dur k d = None ↔ k ∈ (key <$> rows d).
Proof. unfold Sql.insert_key. destruct (decide _); split; done. Qed.

Lemma insert_key_Some p dur k d d' :
  Sql.insert_key p dur k d = Some d' ↔
  (k ∉ key <$> rows d) ∧
  d' = {| rows := rows d ++ [mkKey (seq d + 1) p dur k None None None];
          seq := seq d + 1 |}.
Proof.
  unfold Sql.insert_key. destruct (decide _); split; try done.
  - intros [? _]; done.
  - intros [= <-]; done.
  - intros [_ ->]; done.
Qed.

Lemma insert_key_ok p dur k d d' :
  db_ok d → Sql.insert_key p dur k d = Some d' → db_ok d'.
Proof.
  intros [Hk Hi Hs] [Hfresh ->]%insert_key_Some. split; simpl.
  - rewrite fmap_app. apply NoDup_app. split_and!; [done| |apply NoDup_singleton].
    intros x Hx ->%list_elem_of_singleton. done.
  - rewrite fmap_app. apply StronglySorted_app. split_and!; [|done|repeat constructor].
    intros x1 x2 Hx1 ->%list_elem_of_singleton. simpl.
    apply list_elem_of_fmap in Hx1 as (r & -> & Hr).
    rewrite Forall_forall in Hs. specialize (Hs r Hr). lia.
  - apply Forall_app. split.
    + eapply Forall_impl; [exact Hs|]. simpl. intros; lia.
    + constructor; [simpl; lia|constructor].
Qed.

Lemma mark_row_key a b now kid r : key (Sql.mark_row a b now kid r) = key r.
Proof. unfold Sql.mark_row. by case_decide. Qed.

Lemma mark_row_id a b now kid r : row_id (Sql.mark_row a b now kid r) = row_id r.
Proof. unfold Sql.mark_row. by case_decide. Qed.

Lemma mark_used_keys a b now kid d :
  key <$> rows (Sql.mark_used a b now kid d) = key <$> rows d.
Proof.
  simpl. rewrite <-list_fmap_compose. apply list_fmap_ext.
  intros ???. apply mark_row_key.
Qed.

Lemma mark_used_ids a b now kid d :
  row_id <$> rows (Sql.mark_used a b now kid d) = row_id <$> rows d.
Proof.
  simpl. rewrite <-list_fmap_compose. apply list_fmap_ext.
  intros ???. apply mark_row_id.
Qed.

Lemma mark_used_ok a b now kid d : db_ok d → db_ok (Sql.mark_used a b now kid d).
Proof.
  intros [Hk Hi Hs]. split.
  - by rewrite mark_used_keys.
  - by rewrite mark_used_ids.
  - simpl. apply Forall_fmap. eapply Forall_impl; [exact Hs|].
    intros r Hr. simpl. by rewrite mark_row_id.
Qed.

Lemma StronglySorted_sublist {A} (R : relation A) (l1 l2 : list A) :
  l1 `sublist_of` l2 → StronglySorted R l2 → StronglySorted R l1.
Proof.
  induction 1 as [|x l1 l2 Hsub IH|x l1 l2 Hsub IH]; [done|..];
    rewrite !StronglySorted_cons; intros [Hx Hl]; [split|]; auto.
  eapply Forall_forall. intros y Hy. rewrite Forall_forall in Hx.
  apply Hx. by eapply elem_of_sublist.
Qed.

Lemma delete_unused_ok p dur d : db_ok d → db_ok (Sql.delete_unused p dur d).
Proof.
  intros [Hk Hi Hs].
  assert (Hsub : rows (Sql.delete_unused p dur d) `sublist_of` rows d)
    by apply sublist_filter.
  split.
  - eapply sublist_NoDup; [exact Hk|by apply fmap_sublist].
  - eapply StronglySorted_sublist; [|exact Hi]. by apply fmap_sublist.
  - simpl. apply Forall_forall. intros r [_ Hr]%list_elem_of_filter.
    rewrite Forall_forall in Hs. by apply Hs.
Qed.

End table_lemmas.

Section invariant.

Lemma insert_loop_ok p d keys acc :
  db_ok acc.1.1 → db_ok (foldl (insert_one p d) acc keys).1.1.
Proof.
  revert acc. induction keys as [|k keys IH]; intros [[d0 a0] n0] Hok; [done|].
  simpl. apply IH. simpl in *.
  destruct (Sql.insert_key p d k d0) eqn:Hins; simpl; [|done].
  by eapply insert_key_ok.
Qed.

(** Whatever the outcome of the file append, the table is the one the
    insert loop leaves. *)
Lemma add_stock_db p d raw s :
  db (add_stock_via_text p d raw s).2
  = (foldl (insert_one p d) (db s, [], 0%nat) (parse_keys raw)).1.1.
Proof.
  unfold add_stock_via_text.
  destruct (parse_keys raw) as [|k keys] eqn:Hk; [done|].
  destruct (foldl _ _ (k :: keys)) as [[d' added] skipped]; simpl.
  destruct added; simpl; [done|].
  by destruct (Fs.append_text _ _ _).
Qed.

Lemma pop_key_db p d a b now s :
  db (pop_key p d a b now s).2 =
  match Sql.select_unused p d (db s) with
  | None => db s
  | Some (key_id, _) => Sql.mark_used a b now key_id (db s)
  end.
Proof.
  unfold pop_key. by destruct (Sql.select_unused p d (db s)) as [[??]|].
Qed.

Lemma clear_stock_db p d s :
  db (clear_stock p d s).2 = Sql.delete_unused p d (db s).
Proof. unfold clear_stock. by destruct (Fs.write_text _ _ _). Qed.

Lemma run_op_ok o s : db_ok (db s) → db_ok (db (run_op o s)).
Proof.
  intros Hok. destruct o; simpl.
  - rewrite add_stock_db. by apply insert_loop_ok.
  - rewrite pop_key_db. destruct (Sql.select_unused _ _ _) as [[??]|]; [|done].
    by apply mark_used_ok.
  - rewrite clear_stock_db. by apply delete_unused_ok.
  - done.
Qed.

Lemma step_ok s s' : step s s' → db_ok (db s) → db_ok (db s').
Proof. destruct 1; [apply run_op_ok|done]. Qed.

Lemma steps_ok s s' : rtc step s s' → db_ok (db s) → db_ok (db s').
Proof. induction 1; eauto using step_ok. Qed.

Lemma reachable_ok s : reachable s → db_ok (db s).
Proof. intros H. eapply steps_ok; [exact H|apply db_ok_empty]. Qed.

Lemma reachable_steps s s' : reachable s → rtc step s s' → reachable s'.
Proof. unfold reachable. intros. by etrans. Qed.

End invariant.

Lemma list_find_split {A} (P : A → Prop) `{∀ x, Decision (P x)} (l : list A) i x :
  list_find P l = Some (i, x) →
  ∃ l1 l2, l = l1 ++ x :: l2 ∧ length l1 = i ∧ Forall (λ y, ¬ P y) l1 ∧ P x.
Proof.
  revert i. induction l as [|y l IH]; intros i; [done|].
  simpl. case_decide as Hy.
  - intros [= <- <-]. by exists [], l.
  - destruct (list_find P l) as [[j z]|] eqn:Hf; [|done].
    intros [= <- <-]. destruct (IH j eq_refl) as (l1 & l2 & -> & <- & Hl1 & Hx).
    exists (y :: l1), l2. split_and!; [done|done|by constructor|done].
Qed.

Section select_and_mark.
Implicit Types (r row : Key) (l : list Key).

Lemma select_unused_None p d dbs :
  Sql.select_unused p d dbs = None ↔ Sql.count_unused p d dbs = 0%nat.
Proof.
  unfold Sql.select_unused, Sql.count_unused.
  rewrite fmap_None, list_find_None, length_zero_iff_nil.
  split.
  - intros Hall. induction Hall; [done|]. by rewrite filter_cons_False.
  - intros Hnil. apply Forall_forall. intros r Hr Hu.
    by eapply filter_nil_not_elem_of.
Qed.

Lemma select_unused_Some p d dbs kid kv :
  Sql.select_unused p d dbs = Some (kid, kv) →
  ∃ l1 row l2, rows dbs = l1 ++ row :: l2 ∧
    Forall (λ r, ¬ Sql.unused_in p d r) l1 ∧ Sql.unused_in p d row ∧
    kid = row_id row ∧ kv = key row.
Proof.
  unfold Sql.select_unused. intros ([i row] & Hf & [= -> ->])%fmap_Some.
  apply list_find_split in Hf as (l1 & l2 & Hrows & _ & Hl1 & Hrow).
  by exists l1, row, l2.
Qed.

Lemma sorted_ids_inj l r1 r2 :
  StronglySorted N.lt (row_id <$> l) → r1 ∈ l → r2 ∈ l →
  row_id r1 = row_id r2 → r1 = r2.
Proof.
  induction l as [|r l IH]; [by intros _ ?%elem_of_nil|].
  rewrite fmap_cons, StronglySorted_cons, !elem_of_cons, Forall_forall.
  intros [Hlt Hs] [->|H1] [->|H2] Heq; [done| | |by apply IH].
  - specialize (Hlt (row_id r2)). rewrite list_elem_of_fmap in Hlt.
    assert (row_id r < row_id r2) by (apply Hlt; eauto). lia.
  - specialize (Hlt (row_id r1)). rewrite list_elem_of_fmap in Hlt.
    assert (row_id r < row_id r1) by (apply Hlt; eauto). lia.
Qed.

Lemma unique_keys_inj l r1 r2 :
  NoDup (key <$> l) → r1 ∈ l → r2 ∈ l → key r1 = key r2 → r1 = r2.
Proof.
  induction l as [|r l IH]; [by intros _ ?%elem_of_nil|].
  rewrite fmap_cons, NoDup_cons, !elem_of_cons, list_elem_of_fmap.
  intros [Hnin Hnd] [->|H1] [->|H2] Heq; [done| | |by apply IH].
  - destruct Hnin; eauto.
  - destruct Hnin; eauto.
Qed.

(** With unique rowids the UPDATE touches the selected row only. *)
Lemma mark_used_split a b now l1 row l2 n :
  StronglySorted N.lt (row_id <$> (l1 ++ row :: l2)) →
  rows (Sql.mark_used a b now (row_id row) {| rows := l1 ++ row :: l2; seq := n |})
  = l1 ++ mkKey (row_id row) (program row) (duration row) (key row)
             (Some a) (Some b) (Some now) :: l2.
Proof.
  intros Hs. simpl. rewrite fmap_app, fmap_cons.
  assert (Hother : ∀ r, r ∈ l1 ++ l2 → Sql.mark_row a b now (row_id row) r = r).
  { intros r Hr. unfold Sql.mark_row. case_decide as Hid; [|done].
    assert (r = row) as ->.
    { eapply sorted_ids_inj; [exact Hs| | |done];
        rewrite elem_of_app, elem_of_cons; [|by auto].
      apply elem_of_app in Hr. tauto. }
    exfalso. rewrite fmap_app, fmap_cons in Hs.
    apply StronglySorted_app in Hs as (Hlr & _ & Hr2).
    apply StronglySorted_cons in Hr2 as [Hr2 _].
    apply elem_of_app in Hr as [Hr|Hr].
    - assert (row_id row < row_id row); [|lia].
      apply Hlr; [by apply list_elem_of_fmap_2|left].
    - rewrite Forall_forall in Hr2.
      assert (row_id row < row_id row); [|lia].
      apply Hr2. by apply list_elem_of_fmap_2. }
  f_equal; [|f_equal].
  - rewrite <-(list_fmap_id l1) at 2. apply list_fmap_ext.
    intros i r Hir. apply Hother, elem_of_app. left. by eapply list_elem_of_lookup_2.
  - unfold Sql.mark_row. by rewrite decide_True.
  - rewrite <-(list_fmap_id l2) at 2. apply list_fmap_ext.
    intros i r Hir. apply Hother, elem_of_app. right. by eapply list_elem_of_lookup_2.
Qed.

End select_and_mark.

Lemma sample_stocked_reachable : reachable sample_stocked.
Proof. apply rtc_once, step_op. Qed.

Lemma sample_popped_reachable : reachable sample_popped.
Proof. eapply rtc_r; [apply sample_stocked_reachable|apply step_op]. Qed.

(** ** Claiming a key *)

(** C7. When the pool of (program, duration) holds no unused key,
    [pop_key] returns [None] (PoolEmpty) and the state, hence every row of
    the table, is exactly what it was before the call. *)
Theorem pop_key_empty_pool p d reseller_id buyer_id now s :
  get_stock_count p d s = 0%nat →
  pop_key p d reseller_id buyer_id now s = (None, s).
Proof.
  unfold get_stock_count, pop_key. intros Hcount.
  apply select_unused_None in Hcount. by rewrite Hcount.
Qed.

Lemma pop_key_empty_pool_witness :
  pop_key sample_program sample_duration 7 8 sample_now init_state
  = (None, init_state).
Proof. apply pop_key_empty_pool. reflexivity. Defined.

(** C4. For a pool with at least one unused key, [pop_key] picks the
    unused row of the pool that was inserted first (every row before it
    in the table is no candidate, and every other candidate has a larger
    rowid), returns the value of that row, and the table afterwards
    differs in exactly that row, which now carries the reseller, the buyer
    and the current time. *)
Theorem pop_key_first_inserted p d reseller_id buyer_id now s :
  reachable s → (0 < get_stock_count p d s)%nat →
  ∃ l1 row l2,
    rows (db s) = l1 ++ row :: l2 ∧
    Sql.unused_in p d row ∧
    Forall (λ r, ¬ Sql.unused_in p d r) l1 ∧
    (∀ r, r ∈ rows (db s) → Sql.unused_in p d r → r ≠ row →
          row_id row < row_id r) ∧
    (pop_key p d reseller_id buyer_id now s).1 = Some (key row) ∧
    rows (db (pop_key p d reseller_id buyer_id now s).2)
    = l1 ++ mkKey (row_id row) (program row) (duration row) (key row)
               (Some reseller_id) (Some buyer_id) (Some now) :: l2.
Proof.
  intros [_ Hids _]%reachable_ok Hcount. unfold get_stock_count in Hcount.
  destruct (Sql.select_unused p d (db s)) as [[kid kv]|] eqn:Hsel; last first.
  { apply select_unused_None in Hsel. lia. }
  destruct (select_unused_Some _ _ _ _ _ Hsel)
    as (l1 & row & l2 & Hrows & Hl1 & Hrow & -> & ->).
  exists l1, row, l2. split_and!; [done|done|done| | |].
  - intros r Hr Hu Hne. rewrite Hrows in Hr, Hids.
    rewrite fmap_app, fmap_cons in Hids.
    apply StronglySorted_app in Hids as (_ & _ & Hids).
    apply StronglySorted_cons in Hids as [Hlt _]. rewrite Forall_forall in Hlt.
    apply elem_of_app in Hr as [Hr|Hr].
    + rewrite Forall_forall in Hl1. by destruct (Hl1 r Hr).
    + apply elem_of_cons in Hr as [->|Hr]; [done|].
      by apply Hlt, list_elem_of_fmap_2.
  - unfold pop_key. by rewrite Hsel.
  - rewrite pop_key_db, Hsel. destruct (db s) as [rs n]. simpl in Hrows. subst rs.
    by apply mark_used_split.
Qed.

Lemma pop_key_first_inserted_witness :
  ∃ l1 row l2,
    rows (db sample_stocked) = l1 ++ row :: l2 ∧
    Sql.unused_in sample_program sample_duration row ∧
    Forall (λ r, ¬ Sql.unused_in sample_program sample_duration r) l1 ∧
    (∀ r, r ∈ rows (db sample_stocked) →
          Sql.unused_in sample_program sample_duration r → r ≠ row →
          row_id row < row_id r) ∧
    (pop_key sample_program sample_duration 7 8 sample_now sample_stocked).1
    = Some (key row) ∧
    rows (db (pop_key sample_program sample_duration 7 8 sample_now sample_stocked).2)
    = l1 ++ mkKey (row_id row) (program row) (duration row) (key row)
               (Some 7%Z) (Some 8%Z) (Some sample_now) :: l2.
Proof.
  apply pop_key_first_inserted.
  - apply sample_stocked_reachable.
  - vm_compute. lia.
Defined.

(** The removal changes the stock directory only when it reports success. *)
Lemma remove_key_from_txt_unchanged p d key_value fs :
  (remove_key_from_txt p d key_value fs).1 ≠ Ret true →
  (remove_key_from_txt p d key_value fs).2 = fs.
Proof.
  unfold remove_key_from_txt.
  destruct (negb (Fs.exists_ _ fs)); [done|].
  destruct (Fs.read_text _ fs) as [text|e]; [|done].
  destruct (foldl _ _ _) as [[] new_lines]; [|done].
  by destruct (Fs.write_text _ _ fs).
Qed.

(** C8. Whenever the SELECT of [pop_key] finds a row, the caller gets that
    row's value and the table is the one the UPDATE committed, whatever the
    stock directory looks like and whatever the removal from the mirror
    file does: if it finds no matching line (or no file) or raises, the
    stock directory is left as it was and the claim stands all the same. *)
Theorem pop_key_ignores_mirror_outcome p d reseller_id buyer_id now dbs key_id key_value :
  Sql.select_unused p d dbs = Some (key_id, key_value) →
  ∀ fs,
    let claimed_db := Sql.mark_used reseller_id buyer_id now key_id dbs in
    let out := pop_key p d reseller_id buyer_id now {| db := dbs; files := fs |} in
    out.1 = Some key_value ∧
    db out.2 = claimed_db ∧
    files out.2 = (remove_key_from_txt p d key_value fs).2 ∧
    ((remove_key_from_txt p d key_value fs).1 = Ret false →
       out = (Some key_value, {| db := claimed_db; files := fs |})) ∧
    (∀ e, (remove_key_from_txt p d key_value fs).1 = Raise e →
       out = (Some key_value, {| db := claimed_db; files := fs |})).
Proof.
  intros Hsel fs. unfold pop_key. simpl. rewrite Hsel. simpl.
  split_and!; [done|done|done|..].
  - intros Hrm. by rewrite remove_key_from_txt_unchanged by (by rewrite Hrm).
  - intros e Hrm. by rewrite remove_key_from_txt_unchanged by (by rewrite Hrm).
Qed.

Lemma pop_key_ignores_mirror_outcome_witness :
  (remove_key_from_txt sample_program sample_duration (py "A")
     sample_broken_mirror).1 = Raise IsADirectoryError ∧
  pop_key sample_program sample_duration 7 8 sample_now
    {| db := db sample_stocked; files := sample_broken_mirror |}
  = (Some (py "A"),
     {| db := Sql.mark_used 7 8 sample_now 1 (db sample_stocked);
        files := sample_broken_mirror |}).
Proof.
  split; [reflexivity|].
  refine (proj2 (proj2 (proj2 (proj2
    (pop_key_ignores_mirror_outcome sample_program sample_duration 7 8
       sample_now (db sample_stocked) 1 (py "A") _ sample_broken_mirror))))
    IsADirectoryError _); reflexivity.
Defined.

(** ** Uniqueness of key values *)

(** C2. In every reachable state no two rows of the table hold the same
    key value, whatever their program and duration; and the INSERT is
    rejected (IntegrityError) exactly when the value is already somewhere
    in the table, otherwise it adds one new unused row. *)
Theorem key_values_globally_unique s :
  reachable s →
  NoDup (key <$> rows (db s)) ∧
  (∀ i j ri rj, rows (db s) !! i = Some ri → rows (db s) !! j = Some rj →
                key ri = key rj → i = j) ∧
  (∀ p d k,
     (k ∈ key <$> rows (db s) → Sql.insert_key p d k (db s) = None) ∧
     (k ∉ key <$> rows (db s) →
        ∃ d', Sql.insert_key p d k (db s) = Some d' ∧
              rows d' = rows (db s) ++ [mkKey (seq (db s) + 1) p d k None None None])).
Proof.
  intros [Hk _ _]%reachable_ok. split_and!; [done|..].
  - intros i j ri rj Hi Hj Heq.
    eapply NoDup_lookup; [exact Hk|..]; rewrite list_lookup_fmap.
    + by rewrite Hi.
    + rewrite Hj. simpl. by rewrite Heq.
  - intros p d k. split.
    + by intros ?%(insert_key_None p d).
    + intros Hnin. eexists. split; [by apply insert_key_Some|done].
Qed.

Lemma key_values_globally_unique_witness :
  NoDup (key <$> rows (db sample_popped)) ∧
  (∀ i j ri rj, rows (db sample_popped) !! i = Some ri →
                rows (db sample_popped) !! j = Some rj →
                key ri = key rj → i = j) ∧
  (∀ p d k,
     (k ∈ key <$> rows (db sample_popped) →
        Sql.insert_key p d k (db sample_popped) = None) ∧
     (k ∉ key <$> rows (db sample_popped) →
        ∃ d', Sql.insert_key p d k (db sample_popped) = Some d' ∧
              rows d' = rows (db sample_popped)
                        ++ [mkKey (seq (db sample_popped) + 1) p d k None None None])).
Proof. apply key_values_globally_unique, sample_popped_reachable. Defined.

(** ** Claimed rows are permanent *)

Section permanence.
Implicit Types (row r : Key).

Lemma insert_loop_rows p d keys acc :
  ∃ l, rows (foldl (insert_one p d) acc keys).1.1 = rows acc.1.1 ++ l.
Proof.
  revert acc. induction keys as [|k keys IH]; intros [[d0 a0] n0].
  { exists []. simpl. by rewrite app_nil_r. }
  simpl. destruct (Sql.insert_key p d k d0) as [d1|] eqn:Hins.
  - apply insert_key_Some in Hins as [_ ->].
    destruct (IH ({| rows := rows d0 ++ [mkKey (seq d0 + 1) p d k None None None];
                     seq := seq d0 + 1 |}, a0 ++ [k], n0)) as [l Hl].
    eexists. rewrite Hl. simpl. by rewrite <-app_assoc.
  - apply IH.
Qed.

Lemma claimed_row_kept_by_op o s row :
  db_ok (db s) → row ∈ rows (db s) → claimed row → row ∈ rows (db (run_op o s)).
Proof.
  intros Hok Hin Hcl. destruct o as [p d raw|p d a b now|p d|p d]; simpl.
  - rewrite add_stock_db.
    destruct (insert_loop_rows p d (parse_keys raw) (db s, [], 0%nat)) as [l ->].
    apply elem_of_app. by left.
  - rewrite pop_key_db.
    destruct (Sql.select_unused p d (db s)) as [[kid kv]|] eqn:Hsel; [|done].
    destruct (select_unused_Some _ _ _ _ _ Hsel)
      as (l1 & r & l2 & Hrows & _ & Hr & -> & ->).
    simpl. apply list_elem_of_fmap. exists row. split; [|done].
    unfold Sql.mark_row. case_decide as Hid; [|done].
    assert (row = r) as ->.
    { eapply sorted_ids_inj; [apply Hok|done| |done].
      rewrite Hrows, elem_of_app, elem_of_cons. auto. }
    destruct Hr as (_ & _ & Hr). by destruct Hcl.
  - rewrite clear_stock_db. simpl. apply list_elem_of_filter. split; [|done].
    intros (_ & _ & Hr). by destruct Hcl.
  - done.
Qed.

Lemma claimed_row_kept s s' row :
  rtc step s s' → db_ok (db s) → row ∈ rows (db s) → claimed row →
  row ∈ rows (db s').
Proof.
  induction 1 as [|s1 s2 s3 Hstep _ IH]; [done|]. intros Hok Hin Hcl.
  apply IH; [by eapply step_ok|..]; [|done].
  destruct Hstep; [by apply claimed_row_kept_by_op|done].
Qed.

End permanence.

(** C3. A row whose [used_at] is set stays in the table as it is, with
    its claim fields, through every later operation; it is not among the
    rows [get_stock_count] counts, no later [pop_key] returns its value,
    and the DELETE of [clear_stock] removes only rows with a null
    [used_at] (of the cleared pool). *)
Theorem claimed_rows_are_permanent s s' row :
  reachable s → row ∈ rows (db s) → claimed row → rtc step s s' →
  row ∈ rows (db s') ∧
  (∀ p d, get_stock_count p d s'
          = length (filter (Sql.unused_in p d) (rows (db s'))) ∧
          row ∉ filter (Sql.unused_in p d) (rows (db s'))) ∧
  (∀ p d reseller_id buyer_id now,
     (pop_key p d reseller_id buyer_id now s').1 ≠ Some (key row)) ∧
  (∀ p d r, r ∈ rows (db s') → r ∉ rows (db (clear_stock p d s').2) →
            Sql.unused_in p d r).
Proof.
  intros Hreach Hin Hcl Hsteps.
  assert (Hok' : db_ok (db s')).
  { eapply steps_ok; [exact Hsteps|by apply reachable_ok]. }
  assert (Hin' : row ∈ rows (db s')).
  { eapply claimed_row_kept; [exact Hsteps|by apply reachable_ok|done..]. }
  split_and!; [done|..].
  - intros p d. split; [done|].
    intros [(_ & _ & Hu) _]%list_elem_of_filter. by destruct Hcl.
  - intros p d a b now. unfold pop_key.
    destruct (Sql.select_unused p d (db s')) as [[kid kv]|] eqn:Hsel; [|done].
    destruct (select_unused_Some _ _ _ _ _ Hsel)
      as (l1 & r & l2 & Hrows & _ & Hr & -> & ->).
    simpl. intros [= Heq].
    assert (r = row) as ->.
    { eapply unique_keys_inj; [apply Hok'| |done..].
      rewrite Hrows, elem_of_app, elem_of_cons. auto. }
    destruct Hr as (_ & _ & Hr). by destruct Hcl.
  - intros p d r Hr Hgone. rewrite clear_stock_db in Hgone. simpl in Hgone.
    destruct (decide (Sql.unused_in p d r)) as [|Hn]; [done|].
    destruct Hgone. by apply list_elem_of_filter.
Qed.

Lemma claimed_rows_are_permanent_witness :
  let s' := run_op (ClearStock sample_program sample_duration) sample_popped in
  sample_claimed_row ∈ rows (db s') ∧
  (∀ p d, get_stock_count p d s'
          = length (filter (Sql.unused_in p d) (rows (db s'))) ∧
          sample_claimed_row ∉ filter (Sql.unused_in p d) (rows (db s'))) ∧
  (∀ p d reseller_id buyer_id now,
     (pop_key p d reseller_id buyer_id now s').1 ≠ Some (key sample_claimed_row)) ∧
  (∀ p d r, r ∈ rows (db s') → r ∉ rows (db (clear_stock p d s').2) →
            Sql.unused_in p d r).
Proof.
  apply (claimed_rows_are_permanent sample_popped).
  - apply sample_popped_reachable.
  - vm_compute. left.
  - vm_compute. discriminate.
  - apply rtc_once, step_op.
Defined.

(** ** Python string lemmas *)

Lemma list_ind2 {A} (P : list A → Prop) :
  P [] → (∀ x, P [x]) → (∀ x y l, P l → P (y :: l) → P (x :: y :: l)) →
  ∀ l, P l.
Proof.
  intros H0 H1 H2 l. cut (P l ∧ ∀ x, P (x :: l)); [tauto|].
  induction l as [|y l [IH1 IH2]]; split; auto.
Qed.

Section strings.
Import Spec.
Implicit Types (s t l : str) (ls : list str) (c : N).

Lemma strip_nil : Py.strip [] = [].
Proof. done. Qed.

Lemma nonempty_stripped_cons l ls :
  nonempty_stripped (l :: ls)
  = (if decide (Py.strip l ≠ []) then [Py.strip l] else []) ++ nonempty_stripped ls.
Proof. unfold nonempty_stripped. rewrite fmap_cons, filter_cons. by case_decide. Qed.

Lemma nonempty_stripped_nil_cons ls :
  nonempty_stripped ([] :: ls) = nonempty_stripped ls.
Proof. rewrite nonempty_stripped_cons, strip_nil. by rewrite decide_False by auto. Qed.

(** [splitlines] and splitting at line boundaries agree on their first
    piece and, up to empty pieces, on the rest. *)
Lemma splitlines_split s :
  (s = [] ∧ Py.splitlines s = []) ∨
  ∃ l A B, Py.splitlines s = l :: A ∧ Spec.split Py.is_linebreak s = l :: B ∧
           nonempty_stripped A = nonempty_stripped B.
Proof.
  induction s as [|c|c c' r IHr IHcr] using list_ind2.
  - by left.
  - right. simpl. destruct (Py.is_linebreak c); by eexists _, _, _.
  - right. cbn [Py.splitlines Spec.split].
    destruct (Py.is_linebreak c) eqn:Hc.
    + destruct ((c =? CR) && (c' =? LF)) eqn:Hcrlf.
      * apply andb_prop in Hcrlf as [_ ->%N.eqb_eq]. simpl.
        eexists _, _, _. split_and!; [done..|].
        rewrite nonempty_stripped_nil_cons.
        destruct IHr as [[-> ->]|(l & A & B & -> & -> & HAB)]; [done|].
        by rewrite !nonempty_stripped_cons, HAB.
      * eexists _, _, _. split_and!; [done..|].
        destruct IHcr as [[? _]|(l & A & B & HA & HB & HAB)]; [done|].
        cbn [Py.splitlines Spec.split] in HA, HB. rewrite HA, HB.
        by rewrite !nonempty_stripped_cons, HAB.
    + destruct IHcr as [[? _]|(l & A & B & HA & HB & HAB)]; [done|].
      cbn [Py.splitlines Spec.split] in HA, HB. rewrite HA, HB. simpl.
      by eexists _, _, _.
Qed.

Lemma nonempty_stripped_splitlines s :
  nonempty_stripped (Py.splitlines s)
  = nonempty_stripped (Spec.split Py.is_linebreak s).
Proof.
  destruct (splitlines_split s) as [[-> ->]|(l & A & B & -> & -> & HAB)]; [done|].
  by rewrite !nonempty_stripped_cons, HAB.
Qed.

Lemma normalize_cons c r :
  ∃ c', normalize (c :: r) = c' :: normalize r ∧
        Py.is_linebreak c' = is_separator c ∧
        (is_separator c = false → c' = c).
Proof.
  unfold normalize, Py.replace, is_separator, listed_delimiter.
  rewrite !fmap_cons. eexists. split; [reflexivity|].
  destruct (N.eqb_spec c COMMA) as [->|?]; [done|].
  destruct (N.eqb_spec c SEMICOLON) as [->|?]; [done|].
  destruct (N.eqb_spec c TAB) as [->|?]; [done|].
  destruct (N.eqb_spec c SPACE) as [->|?]; [done|].
  destruct (N.eqb_spec c LF) as [->|?]; done.
Qed.

Lemma split_normalize raw :
  split Py.is_linebreak (normalize raw) = split is_separator raw.
Proof.
  induction raw as [|c r IH]; [done|].
  destruct (normalize_cons c r) as (c' & -> & Hlb & Hc').
  cbn [split]. rewrite Hlb, IH.
  destruct (is_separator c); [done|]. by rewrite Hc'.
Qed.

Lemma elem_of_dedup_first k ls : k ∈ dedup_first ls ↔ k ∈ ls.
Proof.
  unfold dedup_first. by rewrite elem_of_reverse, elem_of_remove_dups, elem_of_reverse.
Qed.

Lemma NoDup_dedup_first ls : NoDup (dedup_first ls).
Proof.
  unfold dedup_first. rewrite reverse_Permutation. apply NoDup_remove_dups.
Qed.

Lemma dedup_first_snoc ls k :
  dedup_first (ls ++ [k])
  = if decide (k ∈ ls) then dedup_first ls else dedup_first ls ++ [k].
Proof.
  unfold dedup_first. rewrite reverse_snoc. simpl.
  destruct (decide_rel elem_of k (reverse ls)) as [Hin|Hin];
    rewrite elem_of_reverse in Hin; case_decide; try done.
  by rewrite reverse_cons.
Qed.

Lemma nonempty_stripped_snoc ls l :
  nonempty_stripped (ls ++ [l])
  = nonempty_stripped ls ++ (if Py.truthy (Py.strip l) then [Py.strip l] else []).
Proof.
  unfold nonempty_stripped. rewrite fmap_app, filter_app. f_equal.
  simpl. rewrite filter_cons, filter_nil. by destruct (Py.strip l).
Qed.

(** The loop over the lines keeps first occurrences of the trimmed,
    non-empty lines; [seen] holds what [keys] holds. *)
Lemma collect_lines_spec ls :
  ∃ seen : gset str,
    foldl collect_line (∅, []) ls = (seen, dedup_first (nonempty_stripped ls)) ∧
    ∀ k, k ∈ seen ↔ k ∈ nonempty_stripped ls.
Proof.
  induction ls as [|l ls (seen & Hfold & Hseen)] using rev_ind.
  { exists ∅. split; [done|]. intros k. split; [by intros ?%not_elem_of_empty|].
    by intros ?%elem_of_nil. }
  rewrite foldl_app, Hfold. simpl. unfold collect_line. simpl.
  rewrite nonempty_stripped_snoc.
  destruct (Py.truthy (Py.strip l)) eqn:Hk; simpl.
  - rewrite dedup_first_snoc. case_bool_decide as Hnew.
    + exists ({[Py.strip l]} ∪ seen). rewrite decide_False by by rewrite <-Hseen.
      split; [done|]. intros k.
      rewrite elem_of_app, list_elem_of_singleton, elem_of_union, elem_of_singleton.
      rewrite Hseen. tauto.
    + exists seen.
      rewrite decide_True by by rewrite <-Hseen. split; [done|].
      intros k. rewrite elem_of_app, list_elem_of_singleton.
      split; [rewrite Hseen; auto|]. intros [?| ->]; [by apply Hseen|done].
  - exists seen. by rewrite app_nil_r.
Qed.

Lemma parse_keys_tokens raw : parse_keys raw = tokens is_separator raw.
Proof.
  unfold parse_keys, tokens.
  destruct (collect_lines_spec (Py.splitlines (normalize raw))) as (seen & -> & _).
  simpl. by rewrite nonempty_stripped_splitlines, split_normalize.
Qed.

Lemma parse_keys_NoDup raw : NoDup (parse_keys raw).
Proof. rewrite parse_keys_tokens. apply NoDup_dedup_first. Qed.

End strings.

(** ** The import *)

Lemma filter_ext_in {A} (P Q : A → Prop) `{∀ x, Decision (P x)} `{∀ x, Decision (Q x)}
    (l : list A) :
  (∀ x, x ∈ l → P x ↔ Q x) → filter P l = filter Q l.
Proof.
  induction l as [|x l IH]; intros Hext; [done|].
  rewrite !filter_cons. rewrite IH by (intros; apply Hext; by right).
  assert (HPQ : P x ↔ Q x) by (apply Hext; by left).
  destruct (decide (P x)), (decide (Q x)); tauto || done.
Qed.

Section import.
Implicit Types (keys : list str).

Lemma new_rows_keys p d n ks : key <$> new_rows p d n ks = ks.
Proof. revert n. induction ks as [|k ks IH]; intros n; simpl; [done|]. by rewrite IH. Qed.

Lemma new_rows_unused p d n ks : Forall (Sql.unused_in p d) (new_rows p d n ks).
Proof. revert n. induction ks; intros n; simpl; constructor; [done|auto]. Qed.

(** The insert loop on distinct values: a value is inserted iff it was
    not in the table when the loop began. *)
Lemma insert_loop_spec p d keys :
  NoDup keys → ∀ d0 a0 n0,
  foldl (insert_one p d) (d0, a0, n0) keys =
    let fresh := filter (λ k, k ∉ key <$> rows d0) keys in
    ({| rows := rows d0 ++ new_rows p d (seq d0) fresh;
        seq := seq d0 + N.of_nat (length fresh) |},
     a0 ++ fresh,
     (n0 + length (filter (λ k, k ∈ key <$> rows d0) keys))%nat).
Proof.
  induction 1 as [|k keys Hk Hnd IH]; intros d0 a0 n0.
  { destruct d0 as [rs n]. simpl.
    by rewrite !app_nil_r, N.add_0_r, Nat.add_0_r. }
  simpl foldl.
  destruct (Sql.insert_key p d k d0) as [d1|] eqn:Hins.
  - apply insert_key_Some in Hins as [Hfresh ->]. rewrite IH. simpl.
    rewrite fmap_app. simpl.
    rewrite (filter_ext_in (λ k0, k0 ∉ (key <$> rows d0) ++ [k])
               (λ k0, k0 ∉ key <$> rows d0) keys); last first.
    { intros x Hx. rewrite elem_of_app, list_elem_of_singleton.
      split; [tauto|]. intros ? [?| ->]; done. }
    rewrite (filter_ext_in (λ k0, k0 ∈ (key <$> rows d0) ++ [k])
               (λ k0, k0 ∈ key <$> rows d0) keys); last first.
    { intros x Hx. rewrite elem_of_app, list_elem_of_singleton.
      split; [|tauto]. intros [?| ->]; done. }
    rewrite filter_cons_True by done. rewrite filter_cons_False by tauto.
    simpl. rewrite <-!app_assoc. simpl. do 3 f_equal. lia.
  - apply insert_key_None in Hins. rewrite IH. simpl.
    rewrite filter_cons_False by tauto. rewrite filter_cons_True by done.
    simpl. do 2 f_equal. lia.
Qed.

End import.

Section token_shape.
Import Spec.
Implicit Types (s t k : str) (c : N).

Lemma split_pieces_free (delim : N → bool) s :
  Forall (Forall (λ c, delim c = false)) (split delim s).
Proof.
  induction s as [|c r IH]; simpl; [by repeat constructor|].
  destruct (delim c) eqn:Hc; [by constructor|].
  destruct (split delim r) as [|l ls]; simpl; [by repeat constructor|].
  apply Forall_cons in IH as [Hl Hls]. by repeat constructor.
Qed.

Lemma lstrip_Forall (P : N → Prop) s : Forall P s → Forall P (Py.lstrip s).
Proof.
  induction 1 as [|c r Hc Hr IH]; simpl; [done|].
  destruct (Py.isspace c); [done|by constructor].
Qed.

Lemma rstrip_Forall (P : N → Prop) s : Forall P s → Forall P (Py.rstrip s).
Proof.
  induction 1 as [|c r Hc Hr IH]; simpl; [done|].
  destruct (Py.rstrip r); [|by constructor].
  destruct (Py.isspace c); by repeat constructor.
Qed.

Lemma strip_Forall (P : N → Prop) s : Forall P s → Forall P (Py.strip s).
Proof. intros. by apply rstrip_Forall, lstrip_Forall. Qed.

Lemma lstrip_head s c : head (Py.lstrip s) = Some c → Py.isspace c = false.
Proof.
  induction s as [|c' r IH]; simpl; [done|].
  destruct (Py.isspace c') eqn:Hc'; [done|]. by intros [= <-].
Qed.

Lemma rstrip_head s c : head (Py.rstrip s) = Some c → head s = Some c.
Proof.
  destruct s as [|c' r]; simpl; [done|].
  destruct (Py.rstrip r); [|done]. by destruct (Py.isspace c').
Qed.

Lemma rstrip_last s c : last (Py.rstrip s) = Some c → Py.isspace c = false.
Proof.
  induction s as [|c' r IH]; simpl; [done|].
  destruct (Py.rstrip r) as [|x xs]; [|done].
  destruct (Py.isspace c') eqn:Hc'; [done|]. by intros [= <-].
Qed.

Lemma separator_free_listed k :
  separator_free k → Forall (λ c, c ∉ [LF; COMMA; SEMICOLON; TAB; SPACE]) k.
Proof.
  intros Hk. eapply Forall_impl; [exact Hk|]. simpl.
  intros c Hc Hin. unfold is_separator, listed_delimiter in Hc.
  repeat (apply elem_of_cons in Hin as [->|Hin]; [done|]).
  by apply elem_of_nil in Hin.
Qed.

Lemma separator_free_linebreak k :
  separator_free k → Forall (λ c, Py.is_linebreak c = false) k.
Proof.
  intros Hk. eapply Forall_impl; [exact Hk|]. simpl.
  intros c Hc. unfold is_separator in Hc.
  by apply orb_false_elim in Hc as [_ ?].
Qed.

(** Every token of an import is well formed and free of separators. *)
Lemma parse_keys_shape raw k :
  k ∈ parse_keys raw → well_formed_key k ∧ separator_free k.
Proof.
  rewrite parse_keys_tokens. unfold tokens, nonempty_stripped.
  rewrite elem_of_dedup_first, list_elem_of_filter, list_elem_of_fmap.
  intros [Hne (t & -> & Ht)].
  assert (Hfree : separator_free (Py.strip t)).
  { apply strip_Forall. pose proof (split_pieces_free is_separator raw) as Hall.
    rewrite Forall_forall in Hall. by apply Hall. }
  split; [|done]. split_and!; [done|by apply separator_free_listed|..].
  - intros c Hc. apply rstrip_head in Hc. by eapply lstrip_head.
  - intros c Hc. by eapply rstrip_last.
Qed.

End token_shape.

Section mirror_text.
Implicit Types (s t k : str) (ks ls : list str) (c : N).

Lemma mirror_lines_acc buf ks :
  foldl (λ buf k, buf ++ (k ++ [LF])) buf ks = buf ++ mirror_lines ks.
Proof.
  unfold mirror_lines. revert buf.
  induction ks as [|k ks IH]; intros buf; simpl; [by rewrite app_nil_r|].
  rewrite IH, (IH (k ++ [LF])). by rewrite <-!app_assoc.
Qed.

Lemma mirror_lines_cons k ks :
  mirror_lines (k :: ks) = k ++ LF :: mirror_lines ks.
Proof.
  unfold mirror_lines at 1. simpl. rewrite mirror_lines_acc.
  by rewrite <-app_assoc.
Qed.

Lemma mirror_lines_concat ks :
  mirror_lines ks = concat ((λ k, k ++ [LF]) <$> ks).
Proof.
  induction ks as [|k ks IH]; [done|].
  rewrite mirror_lines_cons, fmap_cons. simpl. by rewrite IH, <-app_assoc.
Qed.

(** A line without line boundaries, closed by \n, is read back as it is. *)
Lemma splitlines_line k rest :
  Forall (λ c, Py.is_linebreak c = false) k →
  Py.splitlines (k ++ LF :: rest) = k :: Py.splitlines rest.
Proof.
  induction 1 as [|c k Hc Hk IH]; simpl.
  - by destruct rest.
  - rewrite Hc. simpl in IH. by rewrite IH.
Qed.

Lemma splitlines_mirror_lines ks :
  Forall (Forall (λ c, Py.is_linebreak c = false)) ks →
  Py.splitlines (mirror_lines ks) = ks.
Proof.
  induction 1 as [|k ks Hk Hks IH]; [done|].
  by rewrite mirror_lines_cons, splitlines_line, IH.
Qed.

Lemma universal_newlines_id s :
  Forall (λ c, c ≠ CR) s → Fs.universal_newlines s = s.
Proof.
  induction 1 as [|c r Hc Hr IH]; simpl; [done|].
  destruct (N.eqb_spec c CR); [done|]. by rewrite IH.
Qed.

Lemma mirror_lines_no_cr ks :
  Forall (Forall (λ c, Py.is_linebreak c = false)) ks →
  Forall (λ c, c ≠ CR) (mirror_lines ks).
Proof.
  induction 1 as [|k ks Hk Hks IH]; [constructor|].
  rewrite mirror_lines_cons. apply Forall_app. split.
  - eapply Forall_impl; [exact Hk|]. by intros c Hc ->.
  - by constructor.
Qed.

(** Reading back what the import wrote gives the imported values, one
    per line. *)
Lemma read_mirror_lines ks :
  Forall (Forall (λ c, Py.is_linebreak c = false)) ks →
  Py.splitlines (Fs.universal_newlines (mirror_lines ks)) = ks.
Proof.
  intros Hks. rewrite universal_newlines_id by by apply mirror_lines_no_cr.
  by apply splitlines_mirror_lines.
Qed.

End mirror_text.

Section import_result.
Implicit Types (s : state).

(** What [add_stock_via_text] returns and leaves, in terms of the tokens
    of the text and of the values already in the table. *)
Lemma add_stock_via_text_spec p d raw s :
  let fresh := filter (λ k, k ∉ key <$> rows (db s)) (parse_keys raw) in
  let dups := filter (λ k, k ∈ key <$> rows (db s)) (parse_keys raw) in
  let db' := {| rows := rows (db s) ++ new_rows p d (seq (db s)) fresh;
                seq := seq (db s) + N.of_nat (length fresh) |} in
  add_stock_via_text p d raw s =
    match fresh with
    | [] => (Ret (0%nat, length dups), s)
    | _ =>
        match Fs.append_text (stock_file p d) (mirror_lines fresh) (files s) with
        | Ret fs' => (Ret (length fresh, length dups), {| db := db'; files := fs' |})
        | Raise e => (Raise e, {| db := db'; files := files s |})
        end
    end.
Proof.
  intros fresh dups db'. unfold add_stock_via_text.
  pose proof (parse_keys_NoDup raw) as Hnd. subst fresh dups db'.
  destruct (parse_keys raw) as [|k keys] eqn:Hkeys; [done|].
  rewrite insert_loop_spec by done. cbv zeta. simpl app. simpl Nat.add.
  destruct (filter _ (k :: keys)) as [|k' fresh] eqn:Hfresh; [|done].
  destruct s as [[rs n] fs]. simpl. by rewrite app_nil_r, N.add_0_r.
Qed.

End import_result.

Section import_facts.
Implicit Types (s : state).

Lemma add_stock_rows p d raw s :
  rows (db (add_stock_via_text p d raw s).2)
  = rows (db s)
    ++ new_rows p d (seq (db s))
         (filter (λ k, k ∉ key <$> rows (db s)) (parse_keys raw)).
Proof.
  rewrite add_stock_db, insert_loop_spec by apply parse_keys_NoDup. done.
Qed.

Lemma add_stock_holds_tokens p d raw s k :
  k ∈ parse_keys raw → k ∈ key <$> rows (db (add_stock_via_text p d raw s).2).
Proof.
  intros Hk. rewrite add_stock_rows, fmap_app, new_rows_keys, elem_of_app.
  destruct (decide (k ∈ key <$> rows (db s))); [by left|right].
  by apply list_elem_of_filter.
Qed.

Lemma filter_all {A} (P : A → Prop) `{∀ x, Decision (P x)} (l : list A) :
  Forall P l → filter P l = l.
Proof.
  induction 1 as [|x l Hx Hl IH]; [done|]. by rewrite filter_cons_True, IH.
Qed.

Lemma filter_none {A} (P : A → Prop) `{∀ x, Decision (P x)} (l : list A) :
  Forall (λ x, ¬ P x) l → filter P l = [].
Proof.
  induction 1 as [|x l Hx Hl IH]; [done|]. by rewrite filter_cons_False, IH.
Qed.

Lemma filter_complement_length {A} (P : A → Prop) `{∀ x, Decision (P x)} (l : list A) :
  (length (filter (λ x, ¬ P x) l) + length (filter P l))%nat = length l.
Proof.
  rewrite <-(filter_app_complement P l) at 3. rewrite length_app. lia.
Qed.

(** Importing the same text again inserts nothing: every token is
    reported as a duplicate and the state stays as it is. *)
Lemma add_stock_again p d raw s :
  let s1 := (add_stock_via_text p d raw s).2 in
  add_stock_via_text p d raw s1 = (Ret (0%nat, length (parse_keys raw)), s1).
Proof.
  intros s1. rewrite add_stock_via_text_spec.
  assert (Hall : Forall (λ k, k ∈ key <$> rows (db s1)) (parse_keys raw)).
  { apply Forall_forall. intros k Hk. by apply add_stock_holds_tokens. }
  rewrite (filter_all _ _ Hall).
  rewrite filter_none; [done|].
  eapply Forall_impl; [exact Hall|]. simpl. tauto.
Qed.

End import_facts.

(** ** Tokens and counts of an import *)

(** C5, as the claim states it, fails: the character \x1c between two
    values is a boundary of [splitlines] but none of the five listed
    delimiters (nor is \v, \f, \x1d, \x1e, \x85, U+2028 or U+2029), so
    the text A\x1cB holds two tokens for the code and one for the claim. *)
Lemma import_tokens_counterexample :
  let raw := [65; 28; 66] in
  Spec.tokens Spec.listed_delimiter raw = [[65; 28; 66]] ∧
  parse_keys raw = [[65]; [66]] ∧
  (add_stock_via_text sample_program sample_duration raw init_state).1
  = Ret (2%nat, 0%nat) ∧
  ¬ (∀ raw', parse_keys raw' = Spec.tokens Spec.listed_delimiter raw').
Proof.
  split_and!; [reflexivity..|].
  intros Hall. specialize (Hall [65; 28; 66]). vm_compute in Hall. discriminate.
Qed.

(** C5, amended. The tokens of an import are obtained by splitting the
    text at comma, semicolon, tab, space and every line boundary of
    [splitlines] (\n, \r, \v, \f, \x1c, \x1d, \x1e, \x85, U+2028,
    U+2029), trimming each piece, dropping the empty ones and keeping
    first occurrences.  [added] counts the tokens that were not in the
    table (each gets a new row), [skipped] those that were; repeats inside
    the text count in neither.  Importing "A A B" into the empty store
    gives (2, 0), and importing a text again gives (0, K) for its K
    tokens and changes nothing. *)
Theorem import_tokens_and_counts :
  (∀ raw, parse_keys raw = Spec.tokens Spec.is_separator raw) ∧
  (∀ p d raw s added skipped s',
     add_stock_via_text p d raw s = (Ret (added, skipped), s') →
     let fresh := filter (λ k, k ∉ key <$> rows (db s)) (parse_keys raw) in
     added = length fresh ∧
     skipped = length (filter (λ k, k ∈ key <$> rows (db s)) (parse_keys raw)) ∧
     (added + skipped)%nat = length (parse_keys raw) ∧
     rows (db s') = rows (db s) ++ new_rows p d (seq (db s)) fresh) ∧
  (∀ p d, (add_stock_via_text p d (py "A A B") init_state).1 = Ret (2%nat, 0%nat)) ∧
  (∀ p d raw s,
     let s1 := (add_stock_via_text p d raw s).2 in
     add_stock_via_text p d raw s1 = (Ret (0%nat, length (parse_keys raw)), s1)).
Proof.
  split_and!.
  - apply parse_keys_tokens.
  - intros p d raw s added skipped s' Hrun fresh.
    pose proof (add_stock_rows p d raw s) as Hrows. rewrite Hrun in Hrows.
    simpl in Hrows.
    pose proof (filter_complement_length
                  (λ k, k ∈ key <$> rows (db s)) (parse_keys raw)) as Hlen.
    simpl in Hlen. rewrite add_stock_via_text_spec in Hrun.
    assert (added = length fresh ∧
            skipped = length (filter (λ k, k ∈ key <$> rows (db s)) (parse_keys raw)))
      as [-> ->].
    { subst fresh. destruct (filter (λ k, k ∉ _) _) as [|k fr].
      - by injection Hrun as <- <-.
      - destruct (Fs.append_text _ _ _); [|done]. by injection Hrun as <- <-. }
    done.
  - intros p d. rewrite add_stock_via_text_spec.
    change (parse_keys (py "A A B")) with [py "A"; py "B"]. simpl.
    unfold Fs.append_text. by rewrite lookup_empty.
  - apply add_stock_again.
Qed.

Lemma import_tokens_and_counts_witness :
  (2 + 0)%nat = length (parse_keys (py "A A B")) ∧
  rows (db sample_stocked)
  = new_rows sample_program sample_duration 0 [py "A"; py "B"].
Proof.
  destruct import_tokens_and_counts as (_ & Hcount & _ & _).
  destruct (Hcount sample_program sample_duration (py "A A B") init_state
              2%nat 0%nat sample_stocked) as (_ & _ & Hsum & Hrows);
    [reflexivity|].
  split; [exact Hsum|exact Hrows].
Defined.

(** ** The mirror file after an import *)

(** C6. When [add_stock_via_text] returns, the values it inserted in the
    table (the tokens that were not there, in the order of the text) are
    exactly what was written at the end of the pool's mirror file, one
    line each; with nothing inserted the stock directory is unchanged, and
    no other file is touched in either case. *)
Theorem import_appends_inserted_values p d raw s added skipped s' :
  add_stock_via_text p d raw s = (Ret (added, skipped), s') →
  let inserted := filter (λ k, k ∉ key <$> rows (db s)) (parse_keys raw) in
  let old_content :=
    match files s !! stock_file p d with Some (File c) => c | _ => [] end in
  rows (db s') = rows (db s) ++ new_rows p d (seq (db s)) inserted ∧
  key <$> new_rows p d (seq (db s)) inserted = inserted ∧
  inserted `sublist_of` parse_keys raw ∧
  (inserted = [] → files s' = files s) ∧
  (inserted ≠ [] →
     files s' = <[stock_file p d :=
                    File (old_content ++ concat ((λ k, k ++ [LF]) <$> inserted))]>
                  (files s)).
Proof.
  intros Hrun inserted old_content.
  pose proof (add_stock_rows p d raw s) as Hrows. rewrite Hrun in Hrows.
  simpl in Hrows. rewrite add_stock_via_text_spec in Hrun. fold inserted in Hrun.
  split_and!; [done|apply new_rows_keys|apply sublist_filter|..].
  - intros Hnil. rewrite Hnil in Hrun. by injection Hrun as _ _ <-.
  - intros Hne. destruct inserted as [|k ks] eqn:Hins; [done|].
    rewrite <-mirror_lines_concat. subst old_content.
    unfold Fs.append_text in Hrun.
    destruct (files s !! stock_file p d) as [[c|]|]; [..|done|];
      by injection Hrun as _ _ <-.
Qed.

Lemma import_appends_inserted_values_witness :
  files sample_stocked
  = <[stock_file sample_program sample_duration :=
        File (concat ((λ k, k ++ [LF]) <$> [py "A"; py "B"]))]> ∅.
Proof.
  refine (proj2 (proj2 (proj2 (proj2
    (import_appends_inserted_values sample_program sample_duration (py "A A B")
       init_state 2%nat 0%nat sample_stocked _)))) _).
  - reflexivity.
  - vm_compute. discriminate.
Defined.

(** ** Shape of the stored key values *)

Section key_shape.
Implicit Types (s : state) (r : Key).

Lemma run_op_shaped o s :
  Forall shaped (rows (db s)) → Forall shaped (rows (db (run_op o s))).
Proof.
  intros Hs. destruct o as [p d raw|p d a b now|p d|p d]; simpl.
  - rewrite add_stock_rows. apply Forall_app. split; [done|].
    apply Forall_forall. intros r Hr. unfold shaped.
    apply parse_keys_shape with raw.
    assert (Hk : key r ∈ key <$> new_rows p d (seq (db s))
              (filter (λ k, k ∉ key <$> rows (db s)) (parse_keys raw)))
      by by apply list_elem_of_fmap_2.
    rewrite new_rows_keys in Hk. by apply list_elem_of_filter in Hk as [_ ?].
  - rewrite pop_key_db. destruct (Sql.select_unused _ _ _) as [[kid kv]|]; [|done].
    simpl. apply Forall_fmap. eapply Forall_impl; [exact Hs|].
    intros r Hr. unfold shaped, compose. by rewrite mark_row_key.
  - rewrite clear_stock_db. simpl. apply Forall_forall.
    intros r [_ Hr]%list_elem_of_filter. rewrite Forall_forall in Hs. auto.
  - done.
Qed.

Lemma steps_shaped s s' :
  rtc step s s' → Forall shaped (rows (db s)) → Forall shaped (rows (db s')).
Proof.
  induction 1 as [|s1 s2 s3 Hstep _ IH]; [done|]. intros Hs. apply IH.
  destruct Hstep; [by apply run_op_shaped|done].
Qed.

Lemma reachable_shaped s : reachable s → Forall shaped (rows (db s)).
Proof. intros Hreach. eapply steps_shaped; [exact Hreach|constructor]. Qed.

End key_shape.

(** C10. Every key value in the table of a reachable state, hence every
    value [pop_key] returns, is non-empty, holds no newline, comma,
    semicolon, tab or space (and no other line boundary), and neither
    starts nor ends with whitespace; and what an import writes at the end
    of the mirror file reads back as exactly the inserted values, one
    complete value per line. *)
Theorem accepted_keys_are_well_formed s :
  reachable s →
  (∀ r, r ∈ rows (db s) → well_formed_key (key r) ∧ separator_free (key r)) ∧
  (∀ p d reseller_id buyer_id now k,
     (pop_key p d reseller_id buyer_id now s).1 = Some k → well_formed_key k) ∧
  (∀ p d raw added skipped s',
     add_stock_via_text p d raw s = (Ret (added, skipped), s') →
     ∃ inserted,
       rows (db s') = rows (db s) ++ new_rows p d (seq (db s)) inserted ∧
       Forall well_formed_key inserted ∧
       (inserted ≠ [] →
          ∃ old_content, files s' !! stock_file p d
                         = Some (File (old_content ++ mirror_lines inserted))) ∧
       Py.splitlines (Fs.universal_newlines (mirror_lines inserted)) = inserted).
Proof.
  intros Hshaped%reachable_shaped. rewrite Forall_forall in Hshaped.
  split_and!.
  - intros r Hr. by apply Hshaped.
  - intros p d a b now k. unfold pop_key.
    destruct (Sql.select_unused p d (db s)) as [[kid kv]|] eqn:Hsel; [|done].
    destruct (select_unused_Some _ _ _ _ _ Hsel)
      as (l1 & r & l2 & Hrows & _ & _ & -> & ->).
    simpl. intros [= <-]. apply Hshaped.
    rewrite Hrows, elem_of_app, elem_of_cons. auto.
  - intros p d raw added skipped s' Hrun.
    exists (filter (λ k, k ∉ key <$> rows (db s)) (parse_keys raw)).
    pose proof (add_stock_rows p d raw s) as Hrows. rewrite Hrun in Hrows.
    simpl in Hrows. rewrite add_stock_via_text_spec in Hrun.
    set (inserted := filter _ (parse_keys raw)) in *.
    assert (Hall : Forall (λ k, well_formed_key k ∧ separator_free k) inserted).
    { apply Forall_forall. intros k [_ Hk]%list_elem_of_filter.
      by apply parse_keys_shape with raw. }
    split_and!; [done| | |].
    + eapply Forall_impl; [exact Hall|]. simpl. tauto.
    + intros Hne. destruct inserted as [|k ks] eqn:Hins; [done|].
      unfold Fs.append_text in Hrun.
      destruct (files s !! stock_file p d) as [[c|]|]; [..|done|];
        injection Hrun as _ _ <-; simpl; rewrite lookup_insert_eq.
      * by exists c.
      * by exists [].
    + apply read_mirror_lines. eapply Forall_impl; [exact Hall|]. simpl.
      intros k [_ Hk]. by apply separator_free_linebreak.
Qed.

Lemma accepted_keys_are_well_formed_witness :
  Forall (λ r, well_formed_key (key r)) (rows (db sample_popped)).
Proof.
  apply Forall_forall. intros r Hr.
  by apply (accepted_keys_are_well_formed sample_popped sample_popped_reachable).
Defined.

(** ** Removing a value from the mirror file *)

Section removal.
Import Spec.
Implicit Types (s t l : str) (ls : list str) (c : N).

Lemma remove_loop_done key_value acc ls :
  foldl (remove_line key_value) (true, acc) ls = (true, acc ++ ls).
Proof.
  revert acc. induction ls as [|l ls IH]; intros acc; simpl.
  - by rewrite app_nil_r.
  - unfold remove_line at 2. simpl. by rewrite IH, <-app_assoc.
Qed.

(** The loop drops the first line whose trimmed content is the value and
    keeps all the others. *)
Lemma remove_loop_spec key_value acc ls :
  foldl (remove_line key_value) (false, acc) ls =
    match list_find (λ l, Py.strip l = key_value) ls with
    | Some (i, _) => (true, acc ++ delete i ls)
    | None => (false, acc ++ ls)
    end.
Proof.
  revert acc. induction ls as [|l ls IH]; intros acc; simpl.
  - by rewrite app_nil_r.
  - unfold remove_line at 2. simpl. case_bool_decide as Hl.
    + rewrite decide_True by done. by rewrite remove_loop_done.
    + rewrite decide_False by done. rewrite IH.
      destruct (list_find _ ls) as [[i x]|]; simpl; by rewrite <-app_assoc.
Qed.

Lemma rstrip_app s t :
  Py.rstrip (s ++ t) = match Py.rstrip t with [] => Py.rstrip s | t' => s ++ t' end.
Proof.
  induction s as [|c s IH]; simpl.
  - by destruct (Py.rstrip t).
  - rewrite IH. destruct (Py.rstrip t) as [|x xs]; [done|].
    by destruct s.
Qed.

Lemma join_cons_cons sep l l' ls :
  Py.join sep (l :: l' :: ls) = l ++ sep ++ Py.join sep (l' :: ls).
Proof. done. Qed.

Lemma rstrip_join ls :
  Py.rstrip (Py.join [LF] ls) = Py.join [LF] (rstrip_lines ls) ∧
  (rstrip_lines ls = [] ∨ Py.join [LF] (rstrip_lines ls) ≠ []).
Proof.
  induction ls as [|l ls [IH1 IH2]]; [by auto|].
  destruct ls as [|l' ls].
  { simpl. destruct (Py.rstrip l); [auto|]. split; [done|by right]. }
  rewrite join_cons_cons, rstrip_app.
  change ([LF] ++ ?x) with (LF :: x).
  change (Py.rstrip (LF :: ?x))
    with (match Py.rstrip x with [] => [] | r' => LF :: r' end).
  rewrite IH1.
  change (rstrip_lines (l :: ?x))
    with (match rstrip_lines x with
          | [] => match Py.rstrip l with [] => [] | l0 => [l0] end
          | rest => l :: rest
          end).
  destruct (rstrip_lines (l' :: ls)) as [|r rs].
  - simpl. destruct (Py.rstrip l); split; auto.
  - destruct IH2 as [?|Hne]; [done|].
    destruct (Py.join [LF] (r :: rs)) as [|x xs] eqn:HJ; [done|].
    rewrite join_cons_cons, HJ. split; [done|]. right. by destruct l.
Qed.

Lemma join_newline ls : ls ≠ [] → Py.join [LF] ls ++ [LF] = mirror_lines ls.
Proof.
  induction ls as [|l ls IH]; [done|]. intros _. rewrite mirror_lines_cons.
  destruct ls as [|l' ls]; [done|].
  rewrite join_cons_cons, <-IH by done. by rewrite <-!app_assoc.
Qed.

Lemma cons_line_free c ls :
  Py.is_linebreak c = false →
  Forall (Forall (λ c, Py.is_linebreak c = false)) ls →
  Forall (Forall (λ c, Py.is_linebreak c = false)) (Py.cons_line c ls).
Proof.
  intros Hc Hls. destruct Hls; simpl; by repeat constructor.
Qed.

Lemma splitlines_free s :
  Forall (Forall (λ c, Py.is_linebreak c = false)) (Py.splitlines s).
Proof.
  induction s as [|c|c c' r IHr IHcr] using list_ind2.
  - constructor.
  - simpl. destruct (Py.is_linebreak c) eqn:Hc; by repeat constructor.
  - cbn [Py.splitlines]. destruct (Py.is_linebreak c) eqn:Hc.
    + destruct ((c =? CR) && (c' =? LF)); by constructor.
    + by apply cons_line_free.
Qed.

Lemma rstrip_lines_Forall (P : N → Prop) ls :
  Forall (Forall P) ls → Forall (Forall P) (rstrip_lines ls).
Proof.
  induction 1 as [|l ls Hl Hls IH]; simpl; [done|].
  destruct (rstrip_lines ls); [|by constructor].
  pose proof (rstrip_Forall P l Hl) as Hr.
  destruct (Py.rstrip l); [constructor|]. by constructor.
Qed.

Lemma rstrip_clean s c :
  last s = Some c → Py.isspace c = false → Py.rstrip s = s.
Proof.
  induction s as [|c' s IH]; [done|]. intros Hlast Hc.
  destruct s as [|c'' s].
  - injection Hlast as ->. simpl. by rewrite Hc.
  - simpl in *. by rewrite IH.
Qed.

Lemma rstrip_lines_clean ls :
  (∀ l, last ls = Some l → ∃ c, last l = Some c ∧ Py.isspace c = false) →
  rstrip_lines ls = ls.
Proof.
  induction ls as [|l ls IH]; [done|]. intros Hlast.
  destruct ls as [|l' ls].
  - destruct (Hlast l eq_refl) as (c & Hc & Hsp). simpl.
    rewrite (rstrip_clean l c) by done. by destruct l.
  - cbn [rstrip_lines] in *. by rewrite IH.
Qed.

(** What comes back when the rewritten text is read. *)
Lemma read_rewritten ls :
  Forall (Forall (λ c, Py.is_linebreak c = false)) ls →
  Py.splitlines (Fs.universal_newlines (rewritten ls))
  = match rstrip_lines ls with
    | [] => match ls with [] => [] | _ => [[]] end
    | kept => kept
    end.
Proof.
  intros Hls. unfold rewritten.
  destruct (rstrip_join ls) as [-> Hne].
  pose proof (rstrip_lines_Forall _ _ Hls) as HR.
  destruct (rstrip_lines ls) as [|r rs] eqn:Hrs.
  { by destruct ls. }
  destruct ls as [|l ls]; [done|].
  rewrite join_newline by done. by apply read_mirror_lines.
Qed.

End removal.

(** C9, as the claim states it, fails: with the mirror file K1\nK2 \n
    (the second line ends with a space), removing K1 rewrites the file to
    K2\n, so the line that was kept is not the line that was there. *)
Lemma mirror_removal_counterexample :
  let path := stock_file sample_program sample_duration in
  let content := py "K1" ++ [LF] ++ py "K2 " ++ [LF] in
  let lines := Py.splitlines (Fs.universal_newlines content) in
  let rewritten_content := py "K2" ++ [LF] in
  lines = [py "K1"; py "K2 "] ∧
  list_find (λ l, Py.strip l = py "K1") lines = Some (0%nat, py "K1") ∧
  remove_key_from_txt sample_program sample_duration (py "K1")
    {[ path := File content ]}
  = (Ret true, {[ path := File rewritten_content ]}) ∧
  Py.splitlines (Fs.universal_newlines rewritten_content) ≠ delete 0%nat lines.
Proof. split_and!; [reflexivity..|]. vm_compute. discriminate. Qed.

(** C9, amended. The removal reads the lines of the mirror file top to
    bottom and drops only the first one whose trimmed content is the
    value; all other lines, later lines with the same value included, are
    kept in order.  The text written back is the kept lines joined by \n,
    with the whitespace at its end stripped and one \n added: read again,
    it gives the kept lines, except that whitespace-only lines at
    the bottom are gone (a single empty line is left when only such lines
    were kept) and the last line left has lost its trailing whitespace; so
    when the last kept line ends in a character that is not whitespace,
    every kept line is unchanged.  The result tells whether a line was
    dropped, and the file is written only in that case; a missing file
    gives [False], a path that cannot be read raises. *)
Theorem remove_key_from_txt_first_match p d key_value fs :
  match fs !! stock_file p d with
  | None => remove_key_from_txt p d key_value fs = (Ret false, fs)
  | Some Dir => remove_key_from_txt p d key_value fs = (Raise IsADirectoryError, fs)
  | Some (File content) =>
      let lines := Py.splitlines (Fs.universal_newlines content) in
      match list_find (λ l, Py.strip l = key_value) lines with
      | None => remove_key_from_txt p d key_value fs = (Ret false, fs)
      | Some (i, _) =>
          let kept := delete i lines in
          ∃ new_content,
            remove_key_from_txt p d key_value fs
            = (Ret true, <[stock_file p d := File new_content]> fs) ∧
            new_content
            = Py.rstrip (Py.join [LF] kept)
              ++ match kept with [] => [] | _ => [LF] end ∧
            Py.splitlines (Fs.universal_newlines new_content)
            = match Spec.rstrip_lines kept with
              | [] => match kept with [] => [] | _ => [[]] end
              | remaining => remaining
              end ∧
            ((∀ l, last kept = Some l →
                   ∃ c, last l = Some c ∧ Py.isspace c = false) →
             Py.splitlines (Fs.universal_newlines new_content) = kept)
      end
  end.
Proof.
  unfold remove_key_from_txt, Fs.exists_, Fs.read_text, Fs.write_text.
  destruct (fs !! stock_file p d) as [[content|]|] eqn:Hfile; simpl; [|done..].
  rewrite remove_loop_spec. simpl.
  destruct (list_find _ _) as [[i x]|] eqn:Hfind; [|done].
  eexists. split_and!; [reflexivity|reflexivity|..].
  - apply read_rewritten, Forall_delete, splitlines_free.
  - intros Hclean. fold (rewritten (delete i (Py.splitlines (Fs.universal_newlines content)))).
    rewrite read_rewritten by apply Forall_delete, splitlines_free.
    rewrite (rstrip_lines_clean _ Hclean).
    by destruct (delete i _).
Qed.

(** Only the first of two lines with the same value goes. *)
Lemma remove_key_from_txt_first_match_witness :
  ∃ new_content,
    remove_key_from_txt sample_program sample_duration (py "A") sample_mirror
    = (Ret true,
       <[stock_file sample_program sample_duration := File new_content]>
         sample_mirror) ∧
    Py.splitlines (Fs.universal_newlines new_content) = [py "B"; py "A"].
Proof.
  pose proof (remove_key_from_txt_first_match sample_program sample_duration
                (py "A") sample_mirror) as Hrm.
  change (∃ new_content,
    remove_key_from_txt sample_program sample_duration (py "A") sample_mirror
    = (Ret true,
       <[stock_file sample_program sample_duration := File new_content]>
         sample_mirror) ∧
    new_content = Py.rstrip (Py.join [LF] [py "B"; py "A"]) ++ [LF] ∧
    Py.splitlines (Fs.universal_newlines new_content)
    = match Spec.rstrip_lines [py "B"; py "A"] with
      | [] => [[]]
      | remaining => remaining
      end ∧
    ((∀ l, last [py "B"; py "A"] = Some l →
           ∃ c, last l = Some c ∧ Py.isspace c = false) →
     Py.splitlines (Fs.universal_newlines new_content) = [py "B"; py "A"]))
    in Hrm.
  destruct Hrm as (new_content & Hrun & _ & _ & Hclean).
  exists new_content. split; [exact Hrun|]. apply Hclean.
  intros l [= <-]. exists 65. split; reflexivity.
Defined.

(** ** Calls one after the other *)

Section serial_calls.
Implicit Types (s : state) (calls : list (Z * Z * str)).

Lemma unused_keys_length p d dbs :
  length (Sql.unused_keys p d dbs) = Sql.count_unused p d dbs.
Proof. unfold Sql.unused_keys, Sql.count_unused. by rewrite length_fmap. Qed.

Lemma unused_keys_NoDup p d dbs : db_ok dbs → NoDup (Sql.unused_keys p d dbs).
Proof.
  intros [Hk _ _]. eapply sublist_NoDup; [exact Hk|].
  apply fmap_sublist, sublist_filter.
Qed.

(** One call takes the first unused value of the pool, if there is one. *)
Lemma pop_key_unused_keys p d a b now s :
  db_ok (db s) →
  match Sql.unused_keys p d (db s) with
  | [] => pop_key p d a b now s = (None, s)
  | k :: ks =>
      (pop_key p d a b now s).1 = Some k ∧
      Sql.unused_keys p d (db (pop_key p d a b now s).2) = ks
  end.
Proof.
  intros Hok. unfold pop_key at 1 2.
  destruct (Sql.select_unused p d (db s)) as [[kid kv]|] eqn:Hsel.
  - destruct (select_unused_Some _ _ _ _ _ Hsel)
      as (l1 & row & l2 & Hrows & Hl1 & Hrow & -> & ->).
    assert (Hkeys : ∀ x, Sql.unused_keys p d {| rows := l1 ++ x :: l2; seq := seq (db s) |}
              = (if decide (Sql.unused_in p d x) then [key x] else [])
                ++ (key <$> filter (Sql.unused_in p d) l2)).
    { intros x. unfold Sql.unused_keys. simpl.
      rewrite filter_app, filter_cons, (filter_none _ _ Hl1). simpl.
      by case_decide. }
    destruct (db s) as [rs n] eqn:Hdb. simpl in Hrows. subst rs.
    rewrite Hkeys, decide_True by done. simpl. split; [done|].
    rewrite pop_key_db, Hdb, Hsel.
    pose proof (mark_used_split a b now l1 row l2 n) as Hsplit.
    destruct (Sql.mark_used a b now (row_id row) _) as [rs' n'] eqn:Hm.
    assert (n' = n) as -> by (by injection Hm).
    simpl in Hsplit. rewrite Hsplit by apply Hok. clear Hm.
    change n with (seq {| rows := l1 ++ row :: l2; seq := n |}).
    rewrite (Hkeys (mkKey _ _ _ _ _ _ _)) at 1.
    rewrite decide_False; [done|]. by intros (_ & _ & ?).
  - apply select_unused_None in Hsel.
    rewrite <-unused_keys_length in Hsel.
    by destruct (Sql.unused_keys p d (db s)).
Qed.

Lemma pop_key_ok p d a b now s : db_ok (db s) → db_ok (db (pop_key p d a b now s).2).
Proof. apply (run_op_ok (PopKey p d a b now)). Qed.

(** The calls are served in order from the unused values of the pool;
    once these are used up every call gets [None]. *)
Lemma serial_outcomes p d calls s :
  db_ok (db s) →
  (serial p d calls s).1
  = (Some <$> take (length calls) (Sql.unused_keys p d (db s)))
    ++ replicate (length calls - length (Sql.unused_keys p d (db s))) None ∧
  Sql.unused_keys p d (db (serial p d calls s).2)
  = drop (length calls) (Sql.unused_keys p d (db s)).
Proof.
  revert s. induction calls as [|[[a b] now] calls IH]; intros s Hok; [done|].
  simpl. pose proof (pop_key_unused_keys p d a b now s Hok) as Hpop.
  destruct (IH (pop_key p d a b now s).2 (pop_key_ok _ _ _ _ _ _ Hok)) as [IH1 IH2].
  rewrite IH1, IH2. clear IH1 IH2.
  destruct (Sql.unused_keys p d (db s)) as [|k ks] eqn:HU.
  - rewrite Hpop. simpl. rewrite HU. simpl.
    by rewrite take_nil, drop_nil, Nat.sub_0_r.
  - destruct Hpop as [Hr HU']. by rewrite Hr, HU'.
Qed.

End serial_calls.

(** ** Concurrent calls *)

Section interleaving.
Import Concurrent.
Implicit Types (w : world) (c : call) (cs : list call) (i j : nat).

Lemma move_lookup i c to cs j :
  cs !! i = Some c →
  move i c to cs !! j
  = if decide (j = i) then Some (mkCall (reseller_id c) (buyer_id c) to)
    else cs !! j.
Proof.
  intros Hc. unfold move. case_decide as Hj.
  - subst j. apply list_lookup_insert_eq. by eapply lookup_lt_Some.
  - by apply list_lookup_insert_ne.
Qed.

Lemma move_callers i c to cs :
  cs !! i = Some c →
  (λ c, (reseller_id c, buyer_id c)) <$> move i c to cs
  = (λ c, (reseller_id c, buyer_id c)) <$> cs.
Proof.
  intros Hc. unfold move. rewrite list_fmap_insert. simpl.
  apply list_insert_id. by rewrite list_lookup_fmap, Hc.
Qed.

(** Moving one call keeps the lock discipline, provided the lock follows
    the move and the table changes only under the lock. *)
Lemma lock_inv_move p d w i c to lock' db' fs' :
  lock_inv p d w → w_calls w !! i = Some c →
  lock' = (if in_txn to then Some i
           else if in_txn (at_pc c) then None else w_lock w) →
  (in_txn (at_pc c) = false → in_txn to = true → w_lock w = None) →
  (∀ r, to = Selected r → r = Sql.select_unused p d db') →
  (db' = w_db w ∨ in_txn (at_pc c) = true) →
  lock_inv p d {| w_db := db'; w_files := fs'; w_lock := lock';
                  w_calls := move i c to (w_calls w) |}.
Proof.
  intros [H1 H2 H3] Hc -> Henter Hsel Hdb.
  assert (Hother : ∀ j c', j ≠ i → w_calls w !! j = Some c' →
            in_txn (at_pc c') = true →
            in_txn (at_pc c) = false ∧ in_txn to = false ∧ w_lock w = Some j).
  { intros j c' Hj Hc' Hin. pose proof (H1 j c' Hc' Hin) as Hl.
    destruct (in_txn (at_pc c)) eqn:Hi.
    { pose proof (H1 i c Hc Hi). congruence. }
    destruct (in_txn to) eqn:Hto; [|done].
    rewrite Henter in Hl by done. done. }
  split; simpl.
  - intros j c'. rewrite (move_lookup _ _ _ _ _ Hc). case_decide as Hj.
    + subst j. intros [= <-]. simpl. by intros ->.
    + intros Hc' Hin. destruct (Hother j c' Hj Hc' Hin) as (-> & -> & ?). done.
  - intros j. rewrite (move_lookup _ _ _ _ _ Hc).
    destruct (in_txn to) eqn:Hto.
    + intros [= <-]. rewrite decide_True by done. by eexists.
    + destruct (in_txn (at_pc c)) eqn:Hi; [done|]. intros Hl.
      destruct (H2 j Hl) as (c' & Hc' & Hin).
      rewrite decide_False; [by exists c'|]. intros ->. congruence.
  - intros j c' r. rewrite (move_lookup _ _ _ _ _ Hc). case_decide as Hj.
    + subst j. intros [= <-]. simpl. apply Hsel.
    + intros Hc' Hr.
      destruct (Hother j c' Hj Hc') as (Hi & _ & _); [by rewrite Hr|].
      destruct Hdb as [-> | ?]; [|congruence]. by eapply H3.
Qed.

Lemma step_lock_inv p d i now w w' :
  lock_inv p d w → step_call p d i now w = Some w' → lock_inv p d w'.
Proof.
  intros Hinv Hstep. unfold step_call in Hstep.
  destruct (w_calls w !! i) as [c|] eqn:Hc; [|done]. simpl in Hstep.
  pose proof (lock_holder _ _ _ Hinv i c Hc) as Hi.
  pose proof (lock_fresh _ _ _ Hinv i c) as Hfresh.
  destruct (at_pc c) as [| |[[kid kv]|]|kv|kv|r|] eqn:Hpc; simpl in Hi; [..|done].
  - destruct (w_lock w) eqn:Hl; [done|]. injection Hstep as <-.
    apply lock_inv_move; rewrite ?Hpc; simpl; first [done|by auto].
  - injection Hstep as <-.
    apply lock_inv_move; rewrite ?Hpc; simpl; first [done|by auto|by intros ? [= <-]].
  - injection Hstep as <-.
    apply lock_inv_move; rewrite ?Hpc; simpl; first [done|by auto].
  - injection Hstep as <-.
    apply lock_inv_move; rewrite ?Hpc; simpl; first [done|by auto].
  - injection Hstep as <-.
    apply lock_inv_move; rewrite ?Hpc; simpl; first [done|by auto].
  - injection Hstep as <-.
    apply lock_inv_move; rewrite ?Hpc; simpl; first [done|by auto].
  - done.
Qed.

Lemma time_out_lock_inv p d i w w' :
  lock_inv p d w → time_out i w = Some w' → lock_inv p d w'.
Proof.
  intros Hinv Hstep. unfold time_out in Hstep.
  destruct (w_calls w !! i) as [c|] eqn:Hc; [|done]. simpl in Hstep.
  destruct (at_pc c) eqn:Hpc; try done.
  destruct (w_lock w) eqn:Hl; [|done]. injection Hstep as <-.
  apply lock_inv_move; rewrite ?Hpc; simpl; first [done|by auto].
Qed.

Lemma event_lock_inv p d e w w' :
  lock_inv p d w → step_event p d e w = Some w' → lock_inv p d w'.
Proof. destruct e; [apply step_lock_inv|apply time_out_lock_inv]. Qed.

Lemma serial_snoc p d calls a b now s :
  serial p d (calls ++ [(a, b, now)]) s
  = ((serial p d calls s).1 ++ [(pop_key p d a b now (serial p d calls s).2).1],
     (pop_key p d a b now (serial p d calls s).2).2).
Proof.
  revert s. induction calls as [|[[a' b'] now'] calls IH]; intros s; [done|].
  simpl. by rewrite IH.
Qed.

Lemma serial_length p d calls s : length (serial p d calls s).1 = length calls.
Proof.
  revert s. induction calls as [|[[a' b'] now'] calls IH]; intros s; [done|].
  simpl. by rewrite IH.
Qed.

Lemma omap_move_same (g : call → option (option str)) i c c' cs :
  cs !! i = Some c → g c' = g c → omap g (<[i := c']> cs) = omap g cs.
Proof.
  intros Hc Hg. rewrite insert_take_drop by by eapply lookup_lt_Some.
  rewrite <-(take_drop_middle cs i c Hc) at 3.
  rewrite !omap_app. f_equal. simpl. by rewrite Hg.
Qed.

Lemma omap_move_new (g : call → option (option str)) i c c' r cs :
  cs !! i = Some c → g c = None → g c' = Some r →
  omap g (<[i := c']> cs) ≡ₚ omap g cs ++ [r].
Proof.
  intros Hc Hg Hg'. rewrite insert_take_drop by by eapply lookup_lt_Some.
  rewrite <-(take_drop_middle cs i c Hc) at 3.
  rewrite !omap_app. simpl. rewrite Hg, Hg'.
  rewrite <-app_assoc. apply Permutation_app_head.
  apply Permutation_cons_append.
Qed.

(** A move that decides nothing keeps the log. *)
Lemma log_inv_silent p d callers dbs fs w log i c to lock' fs' :
  log_inv p d callers dbs fs w log → w_calls w !! i = Some c →
  decided to = decided (at_pc c) →
  log_inv p d callers dbs fs
    {| w_db := w_db w; w_files := fs'; w_lock := lock';
       w_calls := move i c to (w_calls w) |} log.
Proof.
  intros [Hcallers Hnd Hdec Hargs Hdb Hperm Hout] Hc Hto. split; simpl; try done.
  - by rewrite move_callers.
  - intros j. rewrite Hdec, (move_lookup _ _ _ _ _ Hc). case_decide as Hj; [|done].
    subst j. split.
    + intros (c' & Hc' & Hsome). eexists. split; [done|]. simpl. rewrite Hto. congruence.
    + intros (c' & [= <-] & Hsome). exists c. split; [done|]. by rewrite <-Hto.
  - unfold move. by rewrite (omap_move_same _ _ c).
  - intros j i0 Hj. destruct (Hout j i0 Hj) as (c' & Hc' & Hd).
    rewrite (move_lookup _ _ _ _ _ Hc). case_decide as Hi0; [|by exists c'].
    subst i0. eexists. split; [done|]. simpl. rewrite Hto. congruence.
Qed.

(** A move that decides a call, as [pop_key] would on the present table,
    puts the call at the end of the log. *)
Lemma log_inv_decide p d callers dbs fs w log i c to lock' now r db' :
  log_inv p d callers dbs fs w log → w_calls w !! i = Some c →
  decided (at_pc c) = None → decided to = Some r →
  (∀ s, db s = w_db w →
        (pop_key p d (reseller_id c) (buyer_id c) now s).1 = r ∧
        db (pop_key p d (reseller_id c) (buyer_id c) now s).2 = db') →
  log_inv p d callers dbs fs
    {| w_db := db'; w_files := w_files w; w_lock := lock';
       w_calls := move i c to (w_calls w) |}
    (log ++ [(i, (reseller_id c, buyer_id c, now))]).
Proof.
  intros [Hcallers Hnd Hdec Hargs Hdb Hperm Hout] Hc Hnone Hto Hpop.
  assert (Hi : i ∉ log.*1).
  { rewrite Hdec. intros (c' & Hc' & Hsome). rewrite Hc in Hc'.
    injection Hc' as <-. rewrite Hnone in Hsome. by destruct Hsome. }
  destruct (Hpop _ Hdb) as [Hr Hdb'].
  split; simpl.
  - by rewrite move_callers.
  - rewrite fmap_app. simpl. apply NoDup_app. split_and!; [done| |apply NoDup_singleton].
    intros x Hx ->%list_elem_of_singleton. done.
  - intros j. rewrite fmap_app, elem_of_app, Hdec, (move_lookup _ _ _ _ _ Hc).
    simpl. rewrite list_elem_of_singleton. case_decide as Hj.
    + subst j. split; [|by auto]. intros _. eexists. split; [done|]. simpl.
      by rewrite Hto.
    + split; [|by auto]. by intros [?|?].
  - intros j a b now'. rewrite elem_of_app, list_elem_of_singleton.
    intros [?|[= -> -> -> ->]]; [by eapply Hargs|].
    rewrite <-Hcallers, list_lookup_fmap, Hc. done.
  - rewrite fmap_app. simpl. by rewrite serial_snoc.
  - rewrite fmap_app. simpl. rewrite serial_snoc. simpl. rewrite Hr.
    unfold move. by rewrite (omap_move_new _ _ c _ r), Hperm.
  - intros j i0. rewrite !fmap_app. simpl. rewrite serial_snoc. simpl.
    intros Hj. apply lookup_app_Some in Hj as [Hj|[Hlen Hj]].
    + destruct (Hout j i0 Hj) as (c' & Hc' & Hd).
      rewrite (move_lookup _ _ _ _ _ Hc), decide_False; last first.
      { intros ->. apply Hi. by eapply list_elem_of_lookup_2. }
      exists c'. split; [done|]. rewrite lookup_app_l; [done|].
      rewrite serial_length. apply lookup_lt_Some in Hj.
      by rewrite !length_fmap in *.
    + apply list_lookup_singleton_Some in Hj as [Hj <-].
      rewrite (move_lookup _ _ _ _ _ Hc), decide_True by done.
      eexists. split; [done|]. simpl. rewrite Hto.
      rewrite lookup_app_r; rewrite serial_length, !length_fmap in *; [|lia].
      replace (j - length log)%nat with 0%nat by lia. simpl. by rewrite Hr.
Qed.

Lemma step_log_inv p d callers dbs fs i now w w' log :
  lock_inv p d w → log_inv p d callers dbs fs w log →
  step_call p d i now w = Some w' →
  ∃ log', log_inv p d callers dbs fs w' log'.
Proof.
  intros Hlock Hlog Hstep. unfold step_call in Hstep.
  destruct (w_calls w !! i) as [c|] eqn:Hc; [|done]. simpl in Hstep.
  pose proof (λ r, lock_fresh _ _ _ Hlock i c r Hc) as Hfresh.
  destruct (at_pc c) as [| |[[kid kv]|]|kv|kv|r|] eqn:Hpc; [..|done].
  - destruct (w_lock w) eqn:Hl; [done|]. injection Hstep as <-.
    exists log. apply log_inv_silent; [done..|]. by rewrite Hpc.
  - injection Hstep as <-.
    exists log. apply log_inv_silent; [done..|]. by rewrite Hpc.
  - injection Hstep as <-. eexists.
    apply log_inv_decide with (r := Some kv); [done..|by rewrite Hpc|done|].
    intros s Hs. rewrite pop_key_db. unfold pop_key.
    rewrite Hs, <-(Hfresh _ eq_refl). done.
  - injection Hstep as <-. eexists.
    apply log_inv_decide with (r := None) (now := now);
      [done..|by rewrite Hpc|done|].
    intros s Hs. rewrite pop_key_db. unfold pop_key.
    rewrite Hs, <-(Hfresh _ eq_refl). done.
  - injection Hstep as <-.
    exists log. apply log_inv_silent; [done..|]. by rewrite Hpc.
  - injection Hstep as <-.
    exists log. apply log_inv_silent; [done..|]. by rewrite Hpc.
  - done.
Qed.

Lemma time_out_log_inv p d callers dbs fs i w w' log :
  log_inv p d callers dbs fs w log → time_out i w = Some w' →
  log_inv p d callers dbs fs w' log.
Proof.
  intros Hlog Hstep. unfold time_out in Hstep.
  destruct (w_calls w !! i) as [c|] eqn:Hc; [|done]. simpl in Hstep.
  destruct (at_pc c) eqn:Hpc; try done.
  destruct (w_lock w) eqn:Hl; [|done]. injection Hstep as <-.
  rewrite <-Hl. apply log_inv_silent; [done..|]. by rewrite Hpc.
Qed.

Lemma event_log_inv p d callers dbs fs e w w' log :
  lock_inv p d w → log_inv p d callers dbs fs w log →
  step_event p d e w = Some w' →
  ∃ log', log_inv p d callers dbs fs w' log'.
Proof.
  destruct e as [i now|i]; simpl; [apply step_log_inv|].
  intros _ Hlog Hstep. exists log. by eapply time_out_log_inv.
Qed.

Lemma init_lock_inv p d callers dbs fs : lock_inv p d (init callers dbs fs).
Proof.
  split; simpl; [|done|].
  - intros i c. rewrite list_lookup_fmap. by intros (rb & _ & ->)%fmap_Some.
  - intros i c r. rewrite list_lookup_fmap. by intros (rb & _ & ->)%fmap_Some.
Qed.

Lemma omap_undecided callers :
  omap (decided ∘ at_pc) ((λ rb : Z * Z, mkCall rb.1 rb.2 Start) <$> callers) = [].
Proof. induction callers; [done|]. simpl. done. Qed.

Lemma init_log_inv p d callers dbs fs :
  log_inv p d callers dbs fs (init callers dbs fs) [].
Proof.
  split; simpl.
  - rewrite <-list_fmap_compose. rewrite <-(list_fmap_id callers) at 2.
    apply list_fmap_ext. by intros ? [??] ?.
  - constructor.
  - intros i. split; [by intros ?%elem_of_nil|].
    intros (c & Hc & Hsome). rewrite list_lookup_fmap in Hc.
    apply fmap_Some in Hc as (rb & _ & ->). by destruct Hsome.
  - by intros i a b now ?%elem_of_nil.
  - done.
  - by rewrite omap_undecided.
  - done.
Qed.

(** Both invariants hold along every run. *)
Lemma run_inv p d callers dbs fs sched w w' log :
  lock_inv p d w → log_inv p d callers dbs fs w log →
  run p d sched w = Some w' →
  lock_inv p d w' ∧ ∃ log', log_inv p d callers dbs fs w' log'.
Proof.
  revert w log. induction sched as [|e sched IH]; intros w log Hlock Hlog.
  { intros [= <-]. eauto. }
  simpl. destruct (step_event p d e w) as [w1|] eqn:Hstep; [|done]. simpl.
  destruct (event_log_inv _ _ _ _ _ _ _ _ _ Hlock Hlog Hstep) as [log1 Hlog1].
  apply (IH w1 log1); [by eapply event_lock_inv|done].
Qed.

Lemma run_app p d sched1 sched2 w :
  run p d (sched1 ++ sched2) w = run p d sched1 w ≫= run p d sched2.
Proof.
  revert w. induction sched1 as [|e sched1 IH]; intros w; [done|].
  simpl. destruct (step_event p d e w); simpl; [apply IH|done].
Qed.

Lemma sum_list_move (f : call → nat) i c c' cs :
  cs !! i = Some c →
  (sum_list (f <$> <[i := c']> cs) + f c = sum_list (f <$> cs) + f c')%nat.
Proof.
  revert i. induction cs as [|x cs IH]; intros [|i]; try done.
  - intros [= ->]. cbn. lia.
  - intros Hc. specialize (IH i Hc).
    change (<[S i:=c']> (x :: cs)) with (x :: <[i:=c']> cs).
    rewrite !fmap_cons.
    change (sum_list (?a :: ?l)) with (a + sum_list l)%nat. lia.
Qed.

Lemma measure_move w i c to db' fs' lock' :
  w_calls w !! i = Some c → (remaining to < remaining (at_pc c))%nat →
  (measure {| w_db := db'; w_files := fs'; w_lock := lock';
              w_calls := move i c to (w_calls w) |} < measure w)%nat.
Proof.
  intros Hc Hlt. unfold measure, move. cbn [w_calls].
  pose proof (sum_list_move (remaining ∘ at_pc) i c
                (mkCall (reseller_id c) (buyer_id c) to) _ Hc) as Hsum.
  change ((remaining ∘ at_pc) ?x) with (remaining (at_pc x)) in Hsum.
  cbn [at_pc] in Hsum. lia.
Qed.

(** Every step uses up some of the steps that remain. *)
Lemma step_measure p d i now w w' :
  step_call p d i now w = Some w' → (measure w' < measure w)%nat.
Proof.
  intros Hstep. unfold step_call in Hstep.
  destruct (w_calls w !! i) as [c|] eqn:Hc; [|done]. simpl in Hstep.
  destruct (at_pc c) as [| |[[kid kv]|]|kv|kv|r|] eqn:Hpc;
    [destruct (w_lock w); [done|]|..]; try done;
    injection Hstep as <-; apply measure_move; try done; rewrite Hpc; simpl;
    try destruct (Sql.select_unused p d (w_db w)); lia.
Qed.

(** A step of a call neither brings it to the exception nor away from
    it. *)
Lemma step_call_raised p d i now w w' :
  step_call p d i now w = Some w' → raised w' = raised w.
Proof.
  intros Hstep. unfold step_call in Hstep.
  destruct (w_calls w !! i) as [c|] eqn:Hc; [|done]. simpl in Hstep.
  assert (Hmove : ∀ to db' fs' lock',
    is_raised to = false → is_raised (at_pc c) = false →
    raised {| w_db := db'; w_files := fs'; w_lock := lock';
              w_calls := move i c to (w_calls w) |} = raised w).
  { intros to db' fs' lock' Hto Hfrom. unfold raised, move. cbn [w_calls].
    pose proof (sum_list_move (λ c, if is_raised (at_pc c) then 1%nat else 0%nat)
                  i c (mkCall (reseller_id c) (buyer_id c) to) _ Hc) as Hsum.
    cbn [at_pc] in Hsum. rewrite Hto, Hfrom in Hsum. lia. }
  destruct (at_pc c) as [| |[[kid kv]|]|kv|kv|r|] eqn:Hpc;
    [destruct (w_lock w); [done|]|..]; try done;
    injection Hstep as <-; by apply Hmove.
Qed.

Lemma turns_raised p d sched w w' :
  Forall (λ e, is_turn e = true) sched → run p d sched w = Some w' →
  raised w' = raised w.
Proof.
  intros Hturns. revert w. induction Hturns as [|e sched He _ IH]; intros w.
  { by intros [= <-]. }
  destruct e as [i now|i]; [|done]. simpl.
  destruct (step_call p d i now w) as [w1|] eqn:Hstep; [|done]. simpl.
  intros Hrun. rewrite (IH _ Hrun). by eapply step_call_raised.
Qed.

Lemma init_raised callers dbs fs : raised (init callers dbs fs) = 0%nat.
Proof. unfold raised. simpl. induction callers; [done|]. simpl. done. Qed.

Lemma finished_or_not w : finished w ∨ ¬ finished w.
Proof.
  unfold finished.
  destruct (decide (Forall (λ c, ended (at_pc c) = true) (w_calls w))); auto.
Qed.

(** While a call has not ended, some call can move. *)
Lemma progress p d now w :
  lock_inv p d w → ¬ finished w → ∃ i w', step_call p d i now w = Some w'.
Proof.
  intros [H1 H2 _] Hnot. apply not_Forall_Exists in Hnot; [|apply _].
  apply Exists_exists in Hnot as (c & Hin & Hc).
  apply list_elem_of_lookup in Hin as [i Hi].
  destruct (w_lock w) as [k|] eqn:Hl; rewrite ?Hl in *.
  - destruct (H2 k eq_refl) as (ck & Hk & Hin). exists k. unfold step_call.
    rewrite Hk. simpl. destruct (at_pc ck) as [| |[[??]|]|?|?|?|]; try done; eauto.
  - exists i. unfold step_call. rewrite Hi. simpl.
    destruct (at_pc c) as [| |[[??]|]|?|?|?|] eqn:Hpc; try rewrite Hl; eauto;
      destruct Hc; by rewrite Hpc.
Qed.

(** From any point of a run all calls can be brought to their end, and
    this by steps of the calls alone. *)
Lemma can_finish p d (now : str) n w :
  (measure w ≤ n)%nat → lock_inv p d w →
  ∃ sched w', Forall (λ e, is_turn e = true) sched ∧
              run p d sched w = Some w' ∧ finished w'.
Proof.
  revert w. induction n as [|n IH]; intros w Hn Hlock;
    (destruct (finished_or_not w) as [|Hnot]; [by exists [], w|]);
    destruct (progress p d now w Hlock Hnot) as (i & w1 & Hstep);
    pose proof (step_measure _ _ _ _ _ _ Hstep) as Hlt; [lia|].
  destruct (IH w1) as (sched & w' & Hturns & Hrun & Hfin);
    [lia|by eapply step_lock_inv|].
  exists (Turn i now :: sched), w'. split; [by constructor|].
  simpl. rewrite Hstep. done.
Qed.

Lemma handed_out_sublist cs :
  omap id (omap returned cs) `sublist_of` omap id (omap (decided ∘ at_pc) cs).
Proof.
  induction cs as [|c cs IH]; [done|]. cbn. unfold returned, compose at 1.
  destruct (at_pc c) as [| |?|?|?|[?|]|]; cbn; try done;
    by (apply sublist_skip || apply sublist_cons).
Qed.

Lemma finished_results w :
  finished w → results w = omap (decided ∘ at_pc) (w_calls w).
Proof.
  unfold finished, results. induction 1 as [|c cs Hc Hcs IH]; [done|].
  cbn. rewrite IH. unfold returned, compose in *.
  by destruct (at_pc c).
Qed.

(** Every call has returned or raised. *)
Lemma finished_count w :
  finished w → (length (results w) + raised w = length (w_calls w))%nat.
Proof.
  unfold finished, results, raised. induction 1 as [|c cs Hc Hcs IH]; [done|].
  cbn. unfold returned at 1. destruct (at_pc c); try done; cbn in *; lia.
Qed.

Lemma finished_returned w i c :
  finished w → w_calls w !! i = Some c →
  is_Some (decided (at_pc c)) ↔ is_Some (returned c).
Proof.
  intros Hfin Hc. unfold finished in Hfin. rewrite Forall_forall in Hfin.
  pose proof (Hfin c (list_elem_of_lookup_2 _ _ _ Hc)) as He.
  unfold returned. destruct (at_pc c); try done.
Qed.

Lemma omap_id_outcomes (l : list str) n :
  omap id ((Some <$> l) ++ replicate n None) = l.
Proof.
  rewrite omap_app. replace (omap id (replicate n None)) with (@nil str).
  - rewrite app_nil_r. induction l as [|x l IH]; [done|]. cbn. by rewrite IH.
  - induction n as [|n IH]; [done|]. cbn. done.
Qed.

Lemma none_or_some_length (l : list (option str)) :
  (length (filter (λ r, r = None) l) + length (omap id l))%nat = length l.
Proof.
  induction l as [|[x|] l IH]; [done|..].
  - rewrite filter_cons_False by done. cbn. lia.
  - rewrite filter_cons_True by done. cbn. lia.
Qed.

(** What the decided calls got are the first unused values of the pool. *)
Lemma decided_keys p d callers dbs fs w log :
  db_ok dbs → log_inv p d callers dbs fs w log →
  omap id (omap (decided ∘ at_pc) (w_calls w))
  ≡ₚ take (length log) (Sql.unused_keys p d dbs).
Proof.
  intros Hok Hlog. rewrite (log_perm _ _ _ _ _ _ _ Hlog).
  destruct (serial_outcomes p d log.*2 {| db := dbs; files := fs |} Hok) as [-> _].
  by rewrite omap_id_outcomes, length_fmap.
Qed.

Lemma handed_out_NoDup p d callers dbs fs w log :
  db_ok dbs → log_inv p d callers dbs fs w log → NoDup (handed_out w).
Proof.
  intros Hok Hlog. eapply sublist_NoDup; [|apply handed_out_sublist].
  rewrite (decided_keys _ _ _ _ _ _ _ Hok Hlog).
  eapply sublist_NoDup; [by apply (unused_keys_NoDup p d)|apply sublist_take].
Qed.

(** Once all calls have ended the log lists the calls that returned. *)
Lemma finished_log p d callers dbs fs w log :
  log_inv p d callers dbs fs w log → finished w →
  (∀ i, i ∈ log.*1 ↔ is_Some (result_of w i)) ∧
  length log = length (results w).
Proof.
  intros Hlog Hfin. split.
  - intros i. rewrite (log_decided _ _ _ _ _ _ _ Hlog). unfold result_of. split.
    + intros (c & Hc & Hd). rewrite Hc. simpl.
      by apply (finished_returned w i c Hfin Hc).
    + destruct (w_calls w !! i) as [c|] eqn:Hc; [|by intros [? ?]].
      simpl. intros Hr. exists c. split; [done|].
      by apply (finished_returned w i c Hfin Hc).
  - rewrite finished_results, (log_perm _ _ _ _ _ _ _ Hlog) by done.
    by rewrite serial_length, length_fmap.
Qed.

End interleaving.

Section concurrent_claim.
Import Concurrent.

(** The claim as it stands fails on two calls and a pool of two keys:
    call 0 takes the lock, the wait of call 1 runs out and its
    BEGIN IMMEDIATE raises, call 0 goes on to its return.  All calls have
    ended, one key was handed out and not min(2, 2) = 2, and call 1 did
    not return [None]: it raised. *)
Lemma concurrent_pop_key_counterexample :
¬ (∀ sched w,
     run sample_program sample_duration sched sample_pair = Some w →
     finished w →
     length (handed_out w)
     = (2 `min` Sql.count_unused sample_program sample_duration (db sample_stocked))%nat).
Proof.
intros Hclaim.
destruct (run sample_program sample_duration sample_timeout_schedule sample_pair)
  as [w|] eqn:Hrun; [|by vm_compute in Hrun].
assert (Hfin : finished w).
{ vm_compute in Hrun. injection Hrun as <-. repeat constructor. }
specialize (Hclaim sample_timeout_schedule w Hrun Hfin).
vm_compute in Hrun. injection Hrun as <-. vm_compute in Hclaim. discriminate.
Qed.

(** C1. N calls of [pop_key] on one pool run as coroutines, interleaved in
  any way the awaits and the write lock allow, the wait of any call for
  the lock running out or not; the pool holds M unused keys at the
  start.  At every point of every run at most one call is inside its
  transaction and what it has selected is still the first unused row of
  the table (SELECT and UPDATE act as one unit), no key value has been
  returned twice, no call has raised unless a wait ran out, and the run
  can be continued, with no further wait running out, until all calls
  have ended.  Once all have ended, R of them by the exception: the
  other N - R calls returned, exactly min(N - R, M) of them got a key,
  these keys are pairwise distinct and are the first min(N - R, M)
  unused values of the pool, the remaining N - R - min(N - R, M) calls
  got [None], the pool is left with M - min(N - R, M) unused keys, and
  results and table are those of running the calls that returned one
  after the other in the order in which their transactions were
  decided. *)
Theorem concurrent_pop_key_exactly_once p d callers dbs fs :
db_ok dbs →
let n := length callers in
let m := Sql.count_unused p d dbs in
let w0 := init callers dbs fs in
(∀ sched w, run p d sched w0 = Some w →
   lock_inv p d w ∧ NoDup (handed_out w) ∧
   (Forall (λ e, is_turn e = true) sched → raised w = 0%nat) ∧
   ∃ sched' w', run p d (sched ++ sched') w0 = Some w' ∧ finished w' ∧
                raised w' = raised w) ∧
(∀ sched w, run p d sched w0 = Some w → finished w →
   let r := raised w in
   (length (results w) + r)%nat = n ∧
   length (handed_out w) = ((n - r) `min` m)%nat ∧
   length (filter (λ x, x = None) (results w)) = (n - r - (n - r) `min` m)%nat ∧
   handed_out w ≡ₚ take (((n - r) `min` m)%nat) (Sql.unused_keys p d dbs) ∧
   Sql.count_unused p d (w_db w) = (m - (n - r) `min` m)%nat ∧
   ∃ log : list (nat * (Z * Z * str)),
     NoDup log.*1 ∧
     (∀ i, i ∈ log.*1 ↔ is_Some (result_of w i)) ∧
     (∀ i a b now, (i, (a, b, now)) ∈ log → callers !! i = Some (a, b)) ∧
     db (serial p d log.*2 {| db := dbs; files := fs |}).2 = w_db w ∧
     ∀ j i, log.*1 !! j = Some i →
            result_of w i
            = (serial p d log.*2 {| db := dbs; files := fs |}).1 !! j).
Proof.
intros Hok n m w0.
assert (Hinv : ∀ sched w, run p d sched w0 = Some w →
          lock_inv p d w ∧ ∃ log, log_inv p d callers dbs fs w log).
{ intros sched w Hrun.
  eapply run_inv; [apply init_lock_inv|apply init_log_inv|exact Hrun]. }
split.
- intros sched w Hrun. destruct (Hinv sched w Hrun) as [Hlock [log Hlog]].
  split_and!; [done|by eapply handed_out_NoDup| |].
  + intros Hturns. rewrite (turns_raised _ _ _ _ _ Hturns Hrun).
    apply init_raised.
  + destruct (can_finish p d [] (measure w) w)
      as (sched' & w' & Hturns & Hrun' & Hfin); [done..|].
    exists sched', w'. rewrite run_app, Hrun. split_and!; [done|done|].
    by eapply turns_raised.
- intros sched w Hrun Hfin r.
  destruct (Hinv sched w Hrun) as [Hlock [log Hlog]].
  destruct (finished_log _ _ _ _ _ _ _ Hlog Hfin) as [Hmem Hlen].
  assert (Hres : (length (results w) + r)%nat = n).
  { subst r n. rewrite (finished_count w Hfin).
    by rewrite <-(log_callers _ _ _ _ _ _ _ Hlog), length_fmap. }
  assert (Hlen' : length log = (n - r)%nat) by lia.
  pose proof (decided_keys _ _ _ _ _ _ _ Hok Hlog) as Hkeys.
  rewrite <-finished_results in Hkeys by done. fold (handed_out w) in Hkeys.
  rewrite Hlen' in Hkeys.
  assert (HM : length (Sql.unused_keys p d dbs) = m) by apply unused_keys_length.
  assert (Htake : take (n - r) (Sql.unused_keys p d dbs)
                  = take (((n - r) `min` m)%nat) (Sql.unused_keys p d dbs)).
  { destruct (decide (n - r ≤ m)%nat).
    - by rewrite Nat.min_l.
    - rewrite Nat.min_r by lia. rewrite !take_ge by lia. done. }
  assert (Hout : length (handed_out w) = ((n - r) `min` m)%nat).
  { rewrite Hkeys, length_take. lia. }
  split_and!; [done|done| |by rewrite <-Htake| |].
  + pose proof (none_or_some_length (results w)) as Hsum.
    fold (handed_out w) in Hsum. lia.
  + rewrite <-(log_db _ _ _ _ _ _ _ Hlog), <-unused_keys_length.
    destruct (serial_outcomes p d log.*2 {| db := dbs; files := fs |} Hok) as [_ ->].
    rewrite length_drop, length_fmap. simpl. lia.
  + exists log. split_and!; [apply Hlog|done|apply Hlog|apply Hlog|].
    intros j i Hj. destruct (log_outcome _ _ _ _ _ _ _ Hlog j i Hj) as (c & Hc & <-).
    unfold result_of. rewrite Hc. simpl.
    unfold finished in Hfin. rewrite Forall_forall in Hfin.
    pose proof (Hfin c (list_elem_of_lookup_2 _ _ _ Hc)) as He.
    unfold returned. by destruct (at_pc c).
Qed.

Lemma concurrent_pop_key_exactly_once_witness :
∃ w, run sample_program sample_duration sample_schedule sample_world = Some w ∧
     finished w ∧
     raised w = 1%nat ∧
     results w = [Some (py "A"); Some (py "B"); None] ∧
     length (handed_out w) = 2%nat ∧
     length (filter (λ x, x = None) (results w)) = 1%nat.
Proof.
destruct (run sample_program sample_duration sample_schedule sample_world)
  as [w|] eqn:Hrun; [|by vm_compute in Hrun].
assert (Hfin : finished w).
{ vm_compute in Hrun. injection Hrun as <-. repeat constructor. }
assert (Hr : raised w = 1%nat).
{ vm_compute in Hrun. by injection Hrun as <-. }
exists w. split_and!; [done|done|done|by vm_compute in Hrun; injection Hrun as <-|..];
  destruct (proj2 (concurrent_pop_key_exactly_once sample_program sample_duration
              sample_callers (db sample_stocked) (files sample_stocked)
              (reachable_ok _ sample_stocked_reachable))
              sample_schedule w Hrun Hfin)
    as (_ & Hout & Hnone & _); rewrite Hr in *; [exact Hout|exact Hnone].
Defined.

End concurrent_claim.

(** * Further properties of the code

    What follows covers the display helpers [mask_key], [shorten_error]
    and [stock_file], the [resellers] table, the effect of the stock
    operations on the counts, the agreement of the mirror files with the
    table when the operations run one at a time, the commands with
    their access checks, and the single-instance lock. *)

(** ** Display helpers *)
Section display_helpers.
Implicit Types (s k msg : str) (c : N).

Lemma lstrip_fixed s :
  (∀ c, head s = Some c → Py.isspace c = false) → Py.lstrip s = s.
Proof. destruct s as [|c s]; [done|]. intros H. simpl. by rewrite (H c). Qed.

Lemma rstrip_fixed s :
  (∀ c, last s = Some c → Py.isspace c = false) → Py.rstrip s = s.
Proof.
  intros H. destruct (last s) as [c|] eqn:Hlast.
  - eapply rstrip_clean; eauto.
  - apply last_None in Hlast. by subst.
Qed.

Lemma strip_fixed s :
  (∀ c, head s = Some c → Py.isspace c = false) →
  (∀ c, last s = Some c → Py.isspace c = false) → Py.strip s = s.
Proof. intros Hh Hl. unfold Py.strip. by rewrite lstrip_fixed, rstrip_fixed. Qed.

Lemma strip_head s c : head (Py.strip s) = Some c → Py.isspace c = false.
Proof. intros Hc. apply rstrip_head in Hc. by eapply lstrip_head. Qed.

Lemma strip_last s c : last (Py.strip s) = Some c → Py.isspace c = false.
Proof. apply rstrip_last. Qed.

Lemma strip_strip s : Py.strip (Py.strip s) = Py.strip s.
Proof. apply strip_fixed; [apply strip_head|apply strip_last]. Qed.

Lemma mask_key_long k :
  (8 < length (Py.strip k))%nat →
  mask_key k = take 4 (Py.strip k)
               ++ replicate (length (Py.strip k) - 8) STAR
               ++ drop (length (Py.strip k) - 4) (Py.strip k).
Proof.
  intros Hlen. unfold mask_key, slice_to, slice_from, repeat_char.
  destruct (Z.leb_spec (Z.of_nat (length (Py.strip k))) 8); [lia|]. simpl.
  replace (Z.to_nat (Z.of_nat (length (Py.strip k)) - 8))
    with (length (Py.strip k) - 8)%nat by lia.
  done.
Qed.

Lemma mask_key_short k :
  (length (Py.strip k) ≤ 8)%nat → mask_key k = Py.strip k.
Proof.
  intros Hlen. unfold mask_key.
  destruct (Z.leb_spec (Z.of_nat (length (Py.strip k))) 8); [done|lia].
Qed.

Lemma mask_key_length k : length (mask_key k) = length (Py.strip k).
Proof.
  destruct (decide (length (Py.strip k) ≤ 8)%nat).
  - by rewrite mask_key_short.
  - rewrite mask_key_long by lia.
    rewrite !length_app, length_take, length_replicate, length_drop. lia.
Qed.

Lemma mask_key_ends k :
  (8 < length (Py.strip k))%nat →
  take 4 (mask_key k) = take 4 (Py.strip k) ∧
  drop (length (Py.strip k) - 4) (mask_key k)
  = drop (length (Py.strip k) - 4) (Py.strip k).
Proof.
  intros Hlen. rewrite mask_key_long by lia.
  set (t := Py.strip k) in *.
  assert (Hl4 : length (take 4 t) = 4%nat) by (rewrite length_take; lia).
  split.
  - by rewrite take_app_length'.
  - rewrite app_assoc, drop_app_length'; [done|].
    rewrite length_app, Hl4, length_replicate. lia.
Qed.

(** X1. [mask_key] keeps the length of the trimmed key; a key of at most
    eight characters is shown whole, and of a longer one exactly the
    first four and the last four characters are shown, every position
    between them holding a star. *)
Theorem mask_key_shows_eight k :
  let t := Py.strip k in
  length (mask_key k) = length t ∧
  ((length t ≤ 8)%nat → mask_key k = t) ∧
  ((8 < length t)%nat →
     take 4 (mask_key k) = take 4 t ∧
     drop (length t - 4) (mask_key k) = drop (length t - 4) t ∧
     ∀ i, (4 ≤ i < length t - 4)%nat → mask_key k !! i = Some STAR).
Proof.
  intros t. subst t. split_and!.
  - apply mask_key_length.
  - apply mask_key_short.
  - intros Hlen. destruct (mask_key_ends k Hlen) as [Ht Hd].
    split_and!; [done|done|].
    rewrite mask_key_long by lia. set (t := Py.strip k) in *.
    assert (Hl4 : length (take 4 t) = 4%nat) by (rewrite length_take; lia).
    intros i Hi. rewrite lookup_app_r by lia. rewrite Hl4.
    rewrite lookup_app_l by (rewrite length_replicate; lia).
    apply lookup_replicate_2. lia.
Qed.

(** X2. Masking a masked key changes nothing: the mask neither starts
    nor ends with whitespace, so the [strip] of the second call finds
    nothing to trim, and its ends are the ends of the key. *)
Theorem mask_key_idempotent k : mask_key (mask_key k) = mask_key k.
Proof.
  assert (Hfix : Py.strip (mask_key k) = mask_key k).
  { destruct (decide (length (Py.strip k) ≤ 8)%nat).
    - rewrite mask_key_short by done. apply strip_strip.
    - rewrite mask_key_long by lia. set (t := Py.strip k) in *.
      apply strip_fixed.
      + intros c Hc. apply (strip_head k). fold t.
        destruct t as [|c' t']; [simpl in *; lia|]. by simpl in *.
      + intros c Hc. apply (strip_last k). fold t.
        rewrite !last_app in Hc.
        destruct (last (drop (length t - 4) t)) as [c'|] eqn:Hd.
        * injection Hc as <-. rewrite <-(take_drop (length t - 4) t) at 1.
          by rewrite last_app, Hd.
        * apply last_None in Hd.
          assert (length (drop (length t - 4) t) = 4%nat)
            by (rewrite length_drop; lia).
          by rewrite Hd in *. }
  destruct (decide (length (Py.strip k) ≤ 8)%nat) as [Hs|Hl].
  - rewrite (mask_key_short k Hs). rewrite mask_key_short; rewrite strip_strip; done.
  - pose proof (mask_key_length k) as Hlen.
    destruct (mask_key_ends k) as [Ht Hd]; [lia|].
    rewrite (mask_key_long (mask_key k)) by (rewrite Hfix, Hlen; lia).
    rewrite Hfix, Hlen, Ht, Hd. by rewrite <-mask_key_long by lia.
Qed.

Lemma shorten_error_short msg limit :
  (Z.of_nat (length (Py.strip msg)) ≤ limit)%Z →
  shorten_error msg limit = Py.strip msg.
Proof.
  intros Hlen. unfold shorten_error.
  destruct (Z.leb_spec (Z.of_nat (length (Py.strip msg))) limit); [done|lia].
Qed.

Lemma shorten_error_long msg limit :
  (3 ≤ limit < Z.of_nat (length (Py.strip msg)))%Z →
  shorten_error msg limit
  = take (Z.to_nat (limit - 3)) (Py.strip msg) ++ py "...".
Proof.
  intros Hlen. unfold shorten_error, slice_to.
  destruct (Z.leb_spec (Z.of_nat (length (Py.strip msg))) limit); [lia|].
  destruct (Z.leb_spec 0 (limit - 3)); [done|lia].
Qed.

(** X3. For a limit of at least 3, [shorten_error] returns at most
    [limit] characters: the trimmed message itself when it fits, and
    otherwise its first [limit - 3] characters followed by three dots,
    [limit] characters in all; shortening the result again changes
    nothing. *)
Theorem shorten_error_within_limit msg limit :
  (3 ≤ limit)%Z →
  let out := shorten_error msg limit in
  (Z.of_nat (length out) ≤ limit)%Z ∧
  ((Z.of_nat (length (Py.strip msg)) ≤ limit)%Z → out = Py.strip msg) ∧
  ((limit < Z.of_nat (length (Py.strip msg)))%Z →
     out = take (Z.to_nat (limit - 3)) (Py.strip msg) ++ py "..." ∧
     Z.of_nat (length out) = limit) ∧
  shorten_error out limit = out.
Proof.
  intros Hlimit out. subst out.
  destruct (decide (Z.of_nat (length (Py.strip msg)) ≤ limit)%Z) as [Hs|Hl].
  - rewrite (shorten_error_short msg limit Hs).
    split_and!; [done|done|lia|].
    rewrite shorten_error_short; rewrite strip_strip; done.
  - rewrite (shorten_error_long msg limit) by lia.
    set (t := Py.strip msg) in *.
    assert (Hlen : Z.of_nat (length (take (Z.to_nat (limit - 3)) t ++ py "...")) = limit).
    { rewrite length_app, length_take. simpl. lia. }
    split_and!; [lia|lia|done|].
    assert (Hfix : Py.strip (take (Z.to_nat (limit - 3)) t ++ py "...")
                   = take (Z.to_nat (limit - 3)) t ++ py "...").
    { apply strip_fixed.
      - intros c Hc. destruct (take (Z.to_nat (limit - 3)) t) as [|c' r] eqn:Ht.
        + simpl in Hc. by injection Hc as <-.
        + simpl in Hc. injection Hc as <-. apply (strip_head msg). fold t.
          destruct t; [by rewrite take_nil in Ht|].
          destruct (Z.to_nat (limit - 3)); [done|]. simpl in Ht. by injection Ht as -> _.
      - intros c Hc. rewrite last_app in Hc. simpl in Hc. by injection Hc as <-. }
    rewrite shorten_error_short; rewrite Hfix; [done|lia].
Qed.

Lemma shorten_error_within_limit_witness :
  let out := shorten_error (py "  Forbidden: cannot send messages to this user ") 12 in
  (Z.of_nat (length out) ≤ 12)%Z ∧
  ((Z.of_nat (length (Py.strip (py "  Forbidden: cannot send messages to this user ")))
    ≤ 12)%Z →
   out = Py.strip (py "  Forbidden: cannot send messages to this user ")) ∧
  ((12 < Z.of_nat (length (Py.strip (py "  Forbidden: cannot send messages to this user "))))%Z →
     out = take (Z.to_nat (12 - 3))
             (Py.strip (py "  Forbidden: cannot send messages to this user "))
           ++ py "..." ∧
     Z.of_nat (length out) = 12%Z) ∧
  shorten_error out 12 = out.
Proof.
  apply (shorten_error_within_limit
           (py "  Forbidden: cannot send messages to this user ") 12).
  lia.
Defined.

(** Below 3 the slice [msg[:limit - 3]] counts from the end, and the
    result is longer than the limit. *)
Example shorten_error_small_limit :
  shorten_error (py "abcdef") 2 = py "abcde...".
Proof. reflexivity. Qed.

Lemma separator_split (u : N) (a a' b b' : str) :
  u ∉ a → u ∉ a' → a ++ u :: b = a' ++ u :: b' → a = a' ∧ b = b'.
Proof.
  revert a'. induction a as [|x a IH]; intros [|x' a'] Ha Ha'; simpl.
  - by intros [= <-].
  - intros [= <- _]. destruct Ha'. by left.
  - intros [= -> _]. destruct Ha. by left.
  - intros [= <- Heq]. destruct (IH a') as [<- <-]; [| |done|done].
    + intros ?. apply Ha. by right.
    + intros ?. apply Ha'. by right.
Qed.

Lemma path_join_relative (a b : str) :
  head b ≠ Some SLASH →
  path_join a b
  = (if bool_decide (a = [] ∨ last a = Some SLASH) then a else a ++ [SLASH]) ++ b.
Proof.
  intros Hb. unfold path_join. rewrite bool_decide_eq_false_2 by done.
  case_bool_decide; [done|]. by rewrite <-app_assoc.
Qed.

Lemma head_not_elem_of u (t : str) : u ∉ t → head t ≠ Some u.
Proof. destruct t as [|c t]; [done|]. intros Hu [= ->]. apply Hu. by left. Qed.

(** X4. Two different pools have different mirror files, provided that
    no program name holds an underscore and no program or duration a
    slash: the paths [stock_file] returns are then the same directory
    followed by two different file names without a slash. *)
Theorem stock_paths_differ STOCK_DIR p d p' d' :
  UNDERSCORE ∉ p → UNDERSCORE ∉ p' →
  Forall (λ t, SLASH ∉ t) [p; d; p'; d'] →
  (p, d) ≠ (p', d') →
  stock_path STOCK_DIR p d ≠ stock_path STOCK_DIR p' d' ∧
  (SLASH ∉ stock_file p d) ∧ (SLASH ∉ stock_file p' d') ∧
  ∃ dir, stock_path STOCK_DIR p d = dir ++ stock_file p d ∧
         stock_path STOCK_DIR p' d' = dir ++ stock_file p' d'.
Proof.
  intros Hp Hp' Hslash Hne.
  assert (Hname : ∀ q e, SLASH ∉ q → SLASH ∉ e → SLASH ∉ stock_file q e).
  { intros q e Hq He. unfold stock_file.
    rewrite !elem_of_app, list_elem_of_singleton.
    intros [?|[?|[?|Htxt]]]; [done|done|done|].
    revert Htxt. apply (bool_decide_unpack _). vm_compute. exact I. }
  apply Forall_cons in Hslash as [Hsp Hslash].
  apply Forall_cons in Hslash as [Hsd Hslash].
  apply Forall_cons in Hslash as [Hsp' Hslash].
  apply Forall_cons in Hslash as [Hsd' _].
  pose proof (Hname p d Hsp Hsd) as Hn. pose proof (Hname p' d' Hsp' Hsd') as Hn'.
  unfold stock_path.
  rewrite !path_join_relative by by apply head_not_elem_of.
  split_and!; [|done|done|by eexists].
  intros Heq%app_inv_head. unfold stock_file in Heq.
  apply separator_split in Heq as [-> Heq]; [|done..].
  apply app_inv_tail in Heq as ->. done.
Qed.

Lemma stock_paths_differ_witness :
  stock_path (py "/app/data/stock") (py "temp") (py "day")
  ≠ stock_path (py "/app/data/stock") (py "perm") (py "day") ∧
  (SLASH ∉ stock_file (py "temp") (py "day")) ∧
  (SLASH ∉ stock_file (py "perm") (py "day")) ∧
  ∃ dir, stock_path (py "/app/data/stock") (py "temp") (py "day")
         = dir ++ stock_file (py "temp") (py "day") ∧
         stock_path (py "/app/data/stock") (py "perm") (py "day")
         = dir ++ stock_file (py "perm") (py "day").
Proof.
  apply stock_paths_differ.
  - apply (bool_decide_unpack _). vm_compute. exact I.
  - apply (bool_decide_unpack _). vm_compute. exact I.
  - repeat constructor; apply (bool_decide_unpack _); vm_compute; exact I.
  - discriminate.
Defined.

(** A program name that is an absolute path makes [os.path.join] drop
    [STOCK_DIR]: two different pools, one path. *)
Example stock_path_absolute_program :
  stock_path (py "/app/data/stock") (py "/app/data/stock/temp") (py "day")
  = stock_path (py "/app/data/stock") (py "temp") (py "day").
Proof. reflexivity. Qed.

(** With an underscore in a program name two pools would share a file. *)
Example stock_file_collision :
  stock_file (py "a_b") (py "c") = stock_file (py "a") (py "b_c").
Proof. reflexivity. Qed.

End display_helpers.

(** ** The [resellers] table *)

Section access.
Variable OWNER_IDS : gset Z.
Implicit Types (t : list (Z * str)) (u user : Z) (p : str).

Lemma has_row_elem_of u p t :
  Exists (λ r, r.1 = u ∧ r.2 = p) t ↔ (u, p) ∈ t.
Proof.
  rewrite Exists_exists. split.
  - intros ([u' p'] & Hin & Hu & Hp). simpl in *. by subst.
  - intros Hin. by exists (u, p).
Qed.

Lemma reseller_has_access_true u p t :
  reseller_has_access OWNER_IDS u p t = true ↔
  is_owner OWNER_IDS u = true ∨ (u, p) ∈ t.
Proof.
  unfold reseller_has_access. destruct (is_owner OWNER_IDS u); [split; by auto|].
  rewrite bool_decide_eq_true, has_row_elem_of. split; [by auto|].
  by intros [?|?].
Qed.

Lemma is_reseller_anywhere_true u t :
  is_reseller_anywhere OWNER_IDS u t = true ↔
  is_owner OWNER_IDS u = true ∨ ∃ p, (u, p) ∈ t.
Proof.
  unfold is_reseller_anywhere. destruct (is_owner OWNER_IDS u); [split; by auto|].
  rewrite bool_decide_eq_true, Exists_exists. split.
  - intros ([u' p] & Hin & Hu). simpl in Hu. subst. right. by exists p.
  - intros [?|[p Hin]]; [done|]. by exists (u, p).
Qed.

Lemma elem_of_add_reseller_db u p t r :
  r ∈ add_reseller_db u p t ↔ r = (u, p) ∨ r ∈ t.
Proof.
  unfold add_reseller_db. case_decide as Hin.
  - split; [by auto|]. by intros [->|?].
  - rewrite elem_of_app, list_elem_of_singleton. tauto.
Qed.

Lemma elem_of_remove_reseller_db u p t r :
  r ∈ remove_reseller_db u p t ↔ r ≠ (u, p) ∧ r ∈ t.
Proof.
  unfold remove_reseller_db. rewrite list_elem_of_filter.
  destruct r as [u' p']. simpl. split.
  - intros [Hne Hin]. split; [|done]. intros [= -> ->]. by apply Hne.
  - intros [Hne Hin]. split; [|done]. intros [-> ->]. by apply Hne.
Qed.

Lemma bool_eq_iff (a b : bool) : (a = true ↔ b = true) → a = b.
Proof. destruct a, b; intuition congruence. Qed.

(** X5. After [add_reseller_db] the user has access to the program;
    adding again changes nothing; the access of every other user, and of
    this user to every other program, is what it was; and for a user who
    had access already, an owner apart, the table is left as it is. *)
Theorem add_reseller_db_grants u p t :
  reseller_has_access OWNER_IDS u p (add_reseller_db u p t) = true ∧
  add_reseller_db u p (add_reseller_db u p t) = add_reseller_db u p t ∧
  (∀ u' p', (u', p') ≠ (u, p) →
     reseller_has_access OWNER_IDS u' p' (add_reseller_db u p t)
     = reseller_has_access OWNER_IDS u' p' t) ∧
  (reseller_has_access OWNER_IDS u p t = true →
     is_owner OWNER_IDS u = true ∨ add_reseller_db u p t = t).
Proof.
  split_and!.
  - apply reseller_has_access_true. right. apply elem_of_add_reseller_db. by left.
  - unfold add_reseller_db at 1. rewrite decide_True; [done|].
    apply elem_of_add_reseller_db. by left.
  - intros u' p' Hne. apply bool_eq_iff.
    rewrite !reseller_has_access_true, elem_of_add_reseller_db. intuition congruence.
  - intros [?|Hin]%reseller_has_access_true; [by left|right].
    unfold add_reseller_db. by rewrite decide_True.
Qed.

(** X6. After [remove_reseller_db] the user has access to the program
    only as an owner; removing again changes nothing; every other access
    is what it was; and removing a row that was just added to a table
    without it gives the table back. *)
Theorem remove_reseller_db_revokes u p t :
  reseller_has_access OWNER_IDS u p (remove_reseller_db u p t)
  = is_owner OWNER_IDS u ∧
  remove_reseller_db u p (remove_reseller_db u p t) = remove_reseller_db u p t ∧
  (∀ u' p', (u', p') ≠ (u, p) →
     reseller_has_access OWNER_IDS u' p' (remove_reseller_db u p t)
     = reseller_has_access OWNER_IDS u' p' t) ∧
  ((u, p) ∉ t → remove_reseller_db u p (add_reseller_db u p t) = t).
Proof.
  split_and!.
  - apply bool_eq_iff. rewrite reseller_has_access_true, elem_of_remove_reseller_db.
    intuition congruence.
  - unfold remove_reseller_db. rewrite list_filter_filter. apply list_filter_iff.
    tauto.
  - intros u' p' Hne. apply bool_eq_iff.
    rewrite !reseller_has_access_true, elem_of_remove_reseller_db. intuition congruence.
  - intros Hnin. unfold add_reseller_db. rewrite decide_False by done.
    unfold remove_reseller_db. rewrite filter_app, filter_cons_False, filter_nil.
    + rewrite app_nil_r. apply filter_all. apply Forall_forall.
      intros [u' p'] Hin [Hu Hp]. simpl in *. by subst.
    + simpl. tauto.
Qed.

(** X7. [is_reseller_anywhere], the test of [hwid_reset_cmd] and of the
    role removal, holds exactly when [reseller_has_access] holds for some
    program. *)
Theorem is_reseller_anywhere_some_program u t :
  is_reseller_anywhere OWNER_IDS u t = true ↔
  ∃ p, reseller_has_access OWNER_IDS u p t = true.
Proof.
  rewrite is_reseller_anywhere_true. split.
  - intros [Ho|[p Hin]].
    + exists []. apply reseller_has_access_true. by left.
    + exists p. apply reseller_has_access_true. by right.
  - intros [p [?|?]%reseller_has_access_true]; eauto.
Qed.

End access.

(** ** The stock operations and the counts *)

Section pools.
Implicit Types (s : state) (r : Key) (p d k : str) (ks : list str).

Lemma new_rows_pool p d p' d' n ks :
  filter (Sql.unused_in p' d') (new_rows p d n ks)
  = if decide (p = p' ∧ d = d') then new_rows p d n ks else [].
Proof.
  revert n. induction ks as [|k ks IH]; intros n; simpl.
  { by case_decide. }
  rewrite filter_cons, IH. unfold Sql.unused_in at 1. simpl.
  repeat case_decide; try done; exfalso; intuition.
Qed.

Lemma new_rows_ids p d n ks r : r ∈ new_rows p d n ks → n < row_id r.
Proof.
  revert n. induction ks as [|k ks IH]; intros n; simpl.
  { by intros ?%elem_of_nil. }
  intros [->|Hr]%elem_of_cons; simpl; [lia|]. apply IH in Hr. lia.
Qed.

(** The unused values of every pool after an import. *)
Lemma add_stock_unused_keys p d raw s p' d' :
  Sql.unused_keys p' d' (db (add_stock_via_text p d raw s).2)
  = Sql.unused_keys p' d' (db s)
    ++ (if decide (p = p' ∧ d = d')
        then filter (λ k, k ∉ key <$> rows (db s)) (parse_keys raw) else []).
Proof.
  unfold Sql.unused_keys. rewrite add_stock_rows, filter_app, fmap_app.
  f_equal. rewrite new_rows_pool. case_decide; [|done]. apply new_rows_keys.
Qed.

Lemma mark_row_pool a b now kid r p d :
  Sql.unused_in p d (Sql.mark_row a b now kid r) → Sql.unused_in p d r.
Proof.
  unfold Sql.mark_row. case_decide; [|done]. by intros (_ & _ & ?).
Qed.

(** The unused values of the other pools after a call of [pop_key]. *)
Lemma pop_key_other_pool p d a b now s p' d' :
  db_ok (db s) → ¬ (p = p' ∧ d = d') →
  Sql.unused_keys p' d' (db (pop_key p d a b now s).2)
  = Sql.unused_keys p' d' (db s).
Proof.
  intros Hok Hne. rewrite pop_key_db.
  destruct (Sql.select_unused p d (db s)) as [[kid kv]|] eqn:Hsel; [|done].
  destruct (select_unused_Some _ _ _ _ _ Hsel)
    as (l1 & row & l2 & Hrows & _ & (Hp & Hd & _) & -> & _).
  destruct (db s) as [rs n] eqn:Hdb. simpl in Hrows. subst rs.
  unfold Sql.unused_keys.
  rewrite mark_used_split by apply Hok. simpl.
  rewrite !filter_app, !filter_cons.
  rewrite (decide_False (P := Sql.unused_in p' d' (mkKey _ _ _ _ _ _ _)));
    [|by intros (_ & _ & ?)].
  rewrite decide_False; [done|].
  intros (Hp' & Hd' & _). apply Hne. by rewrite <-Hp, <-Hd.
Qed.

Lemma clear_stock_unused_keys p d s p' d' :
  Sql.unused_keys p' d' (db (clear_stock p d s).2)
  = if decide (p = p' ∧ d = d') then [] else Sql.unused_keys p' d' (db s).
Proof.
  rewrite clear_stock_db. unfold Sql.unused_keys. simpl.
  rewrite list_filter_filter. case_decide as Hpd.
  - destruct Hpd as [<- <-]. rewrite filter_none; [done|].
    apply Forall_forall. intros r _. tauto.
  - f_equal. apply list_filter_iff. intros r. split; [tauto|].
    intros Hr. split; [done|]. intros (Hp & Hd & _).
    destruct Hr as (Hp' & Hd' & _). apply Hpd. by rewrite <-Hp, <-Hd.
Qed.

Lemma delete_unused_twice p d dbs :
  Sql.delete_unused p d (Sql.delete_unused p d dbs) = Sql.delete_unused p d dbs.
Proof.
  unfold Sql.delete_unused. simpl. rewrite list_filter_filter.
  f_equal. apply list_filter_iff. tauto.
Qed.

(** X8. An import that returns [(added, skipped)] raises the count of
    its pool by [added]: the unused values of the pool are the old ones
    followed by the tokens that were not in the table, in token order;
    the unused values and the count of every other pool stay as they
    are. *)
Theorem add_stock_raises_count p d raw s added skipped s' :
  add_stock_via_text p d raw s = (Ret (added, skipped), s') →
  get_stock_count p d s' = (get_stock_count p d s + added)%nat ∧
  Sql.unused_keys p d (db s')
  = Sql.unused_keys p d (db s)
    ++ filter (λ k, k ∉ key <$> rows (db s)) (parse_keys raw) ∧
  (∀ p' d', ¬ (p = p' ∧ d = d') →
     Sql.unused_keys p' d' (db s') = Sql.unused_keys p' d' (db s) ∧
     get_stock_count p' d' s' = get_stock_count p' d' s).
Proof.
  intros Hrun.
  pose proof (add_stock_unused_keys p d raw s) as Hkeys. rewrite Hrun in Hkeys.
  simpl in Hkeys.
  assert (Hadded : added
            = length (filter (λ k, k ∉ key <$> rows (db s)) (parse_keys raw))).
  { rewrite add_stock_via_text_spec in Hrun.
    destruct (filter (λ k, k ∉ _) _) as [|k fr]; [by injection Hrun as <- _|].
    destruct (Fs.append_text _ _ _); [|done]. by injection Hrun as <- _. }
  unfold get_stock_count. rewrite <-!unused_keys_length.
  split_and!.
  - rewrite Hkeys, decide_True, length_app by done. lia.
  - by rewrite Hkeys, decide_True.
  - intros p' d' Hne. rewrite <-!unused_keys_length, Hkeys, decide_False by done.
    by rewrite app_nil_r.
Qed.

Lemma add_stock_raises_count_witness :
  get_stock_count sample_program sample_duration sample_stocked
  = (get_stock_count sample_program sample_duration init_state + 2)%nat ∧
  Sql.unused_keys sample_program sample_duration (db sample_stocked)
  = Sql.unused_keys sample_program sample_duration (db init_state)
    ++ filter (λ k, k ∉ key <$> rows (db init_state)) (parse_keys (py "A A B")) ∧
  (∀ p' d', ¬ (sample_program = p' ∧ sample_duration = d') →
     Sql.unused_keys p' d' (db sample_stocked)
     = Sql.unused_keys p' d' (db init_state) ∧
     get_stock_count p' d' sample_stocked = get_stock_count p' d' init_state).
Proof.
  apply (add_stock_raises_count sample_program sample_duration (py "A A B")
           init_state 2%nat 0%nat sample_stocked).
  reflexivity.
Defined.

(** X9. In a reachable state a call of [pop_key] that returns a key
    lowers the count of its pool by one: the key was the first unused
    value of the pool and the others follow in their order; no row is
    added or deleted; every other pool keeps its unused values and its
    count. *)
Theorem pop_key_lowers_count p d a b now s k s' :
  reachable s → pop_key p d a b now s = (Some k, s') →
  get_stock_count p d s = S (get_stock_count p d s') ∧
  Sql.unused_keys p d (db s) = k :: Sql.unused_keys p d (db s') ∧
  length (rows (db s')) = length (rows (db s)) ∧
  (∀ p' d', ¬ (p = p' ∧ d = d') →
     Sql.unused_keys p' d' (db s') = Sql.unused_keys p' d' (db s) ∧
     get_stock_count p' d' s' = get_stock_count p' d' s).
Proof.
  intros Hok%reachable_ok Hpop.
  pose proof (pop_key_unused_keys p d a b now s Hok) as Hkeys.
  pose proof (λ p' d', pop_key_other_pool p d a b now s p' d' Hok) as Hother.
  pose proof (pop_key_db p d a b now s) as Hdb.
  rewrite Hpop in Hkeys, Hother, Hdb. simpl in *.
  unfold get_stock_count. rewrite <-!unused_keys_length.
  destruct (Sql.unused_keys p d (db s)) as [|k' ks] eqn:HU; [done|].
  destruct Hkeys as [[= ->] ->]. split_and!; [done|done| |].
  - rewrite Hdb. destruct (Sql.select_unused p d (db s)) as [[??]|]; [|done].
    simpl. by rewrite length_fmap.
  - intros p' d' Hne. rewrite <-!unused_keys_length. by rewrite Hother.
Qed.

Lemma pop_key_lowers_count_witness :
  get_stock_count sample_program sample_duration sample_stocked
  = S (get_stock_count sample_program sample_duration sample_popped) ∧
  Sql.unused_keys sample_program sample_duration (db sample_stocked)
  = py "A" :: Sql.unused_keys sample_program sample_duration (db sample_popped) ∧
  length (rows (db sample_popped)) = length (rows (db sample_stocked)) ∧
  (∀ p' d', ¬ (sample_program = p' ∧ sample_duration = d') →
     Sql.unused_keys p' d' (db sample_popped)
     = Sql.unused_keys p' d' (db sample_stocked) ∧
     get_stock_count p' d' sample_popped = get_stock_count p' d' sample_stocked).
Proof.
  apply (pop_key_lowers_count sample_program sample_duration 7 8 sample_now
           sample_stocked (py "A") sample_popped).
  - apply sample_stocked_reachable.
  - reflexivity.
Defined.

(** X10. [clear_stock] reports the count the pool had, leaves the pool
    empty, deletes exactly that many rows, none of them claimed, leaves
    an empty mirror file and every other pool untouched; clearing again
    reports 0 and changes nothing. *)
Theorem clear_stock_empties_pool p d s n s' :
  clear_stock p d s = (Ret n, s') →
  n = get_stock_count p d s ∧
  get_stock_count p d s' = 0%nat ∧
  (length (rows (db s')) + n)%nat = length (rows (db s)) ∧
  files s' = <[stock_file p d := File []]> (files s) ∧
  (∀ r, r ∈ rows (db s) → claimed r → r ∈ rows (db s')) ∧
  (∀ p' d', ¬ (p = p' ∧ d = d') →
     Sql.unused_keys p' d' (db s') = Sql.unused_keys p' d' (db s)) ∧
  clear_stock p d s' = (Ret 0%nat, s').
Proof.
  intros Hrun.
  pose proof (λ p' d', clear_stock_unused_keys p d s p' d') as Hkeys.
  pose proof (clear_stock_db p d s) as Hdb.
  rewrite Hrun in Hkeys, Hdb. simpl in *.
  unfold clear_stock in Hrun.
  destruct (Fs.write_text _ _ (files s)) as [fs'|] eqn:Hw; [|done].
  injection Hrun as <- <-. simpl in *.
  assert (Hfs : fs' = <[stock_file p d := File []]> (files s)).
  { unfold Fs.write_text in Hw.
    by destruct (files s !! stock_file p d) as [[]|]; simplify_eq. }
  subst fs'. unfold get_stock_count. simpl.
  assert (Hzero : Sql.count_unused p d (Sql.delete_unused p d (db s)) = 0%nat).
  { rewrite <-unused_keys_length, Hkeys. by rewrite decide_True. }
  split_and!; [done|done| |done| | |].
  - unfold Sql.count_unused.
    rewrite <-(filter_complement_length (Sql.unused_in p d) (rows (db s))). done.
  - intros r Hr Hcl. apply list_elem_of_filter. split; [|done].
    intros (_ & _ & ?). by apply Hcl.
  - intros p' d' Hne. by rewrite Hkeys, decide_False.
  - unfold clear_stock. simpl. rewrite Hzero.
    unfold Fs.write_text. rewrite lookup_insert_eq. simpl.
    rewrite insert_insert_eq. by rewrite delete_unused_twice.
Qed.

End pools.

Lemma clear_stock_empties_pool_witness :
  let s' := (clear_stock sample_program sample_duration sample_popped).2 in
  1%nat = get_stock_count sample_program sample_duration sample_popped ∧
  get_stock_count sample_program sample_duration s' = 0%nat ∧
  (length (rows (db s')) + 1)%nat = length (rows (db sample_popped)) ∧
  files s'
  = <[stock_file sample_program sample_duration := File []]> (files sample_popped) ∧
  (∀ r, r ∈ rows (db sample_popped) → claimed r → r ∈ rows (db s')) ∧
  (∀ p' d', ¬ (sample_program = p' ∧ sample_duration = d') →
     Sql.unused_keys p' d' (db s') = Sql.unused_keys p' d' (db sample_popped)) ∧
  clear_stock sample_program sample_duration s' = (Ret 0%nat, s').
Proof.
  apply (clear_stock_empties_pool sample_program sample_duration sample_popped 1%nat).
  reflexivity.
Defined.

(** ** The mirror files when the operations run one at a time *)

Section mirror.
Implicit Types (s : state) (r : Key) (p d k : str) (ks : list str).

Lemma offered_no_underscore p d : offered p d → UNDERSCORE ∉ p.
Proof.
  intros [Hp _]. unfold PROGRAMS in Hp.
  repeat (apply elem_of_cons in Hp as [->|Hp];
          [apply (bool_decide_unpack _); vm_compute; exact I|]).
  by apply elem_of_nil in Hp.
Qed.

Lemma offered_paths_distinct p d p' d' :
  offered p d → offered p' d' →
  stock_file p d = stock_file p' d' → p = p' ∧ d = d'.
Proof.
  intros Ho Ho' Heq. unfold stock_file in Heq.
  apply separator_split in Heq as [-> Heq];
    [|by eapply offered_no_underscore..].
  split; [done|]. by apply app_inv_tail in Heq.
Qed.

Lemma mirror_lines_app ks1 ks2 :
  mirror_lines (ks1 ++ ks2) = mirror_lines ks1 ++ mirror_lines ks2.
Proof. by rewrite !mirror_lines_concat, fmap_app, concat_app. Qed.

Lemma shaped_strip k : well_formed_key k → Py.strip k = k.
Proof. intros (_ & _ & Hh & Hl). by apply strip_fixed. Qed.

Lemma shaped_rewritten ks :
  Forall well_formed_key ks → rewritten ks = mirror_lines ks.
Proof.
  intros Hks. unfold rewritten. destruct (rstrip_join ks) as [-> _].
  rewrite rstrip_lines_clean.
  - destruct ks as [|k ks']; [done|]. by rewrite join_newline.
  - intros l Hl. rewrite Forall_forall in Hks.
    destruct (Hks l) as (Hne & _ & _ & Hlast).
    { apply last_Some in Hl as [? ->]. apply elem_of_app. right. by left. }
    destruct (last l) as [c|] eqn:Hc; [by eauto|]. by apply last_None in Hc.
Qed.

(** On a mirror file that agrees with the table, the removal drops the
    first line, which is the value just claimed. *)
Lemma remove_first_mirror_line p d k ks fs :
  fs !! stock_file p d = Some (File (mirror_lines (k :: ks))) →
  Forall (λ k, well_formed_key k ∧ separator_free k) (k :: ks) →
  remove_key_from_txt p d k fs
  = (Ret true, <[stock_file p d := File (mirror_lines ks)]> fs).
Proof.
  intros Hfile Hall.
  assert (Hwf : Forall well_formed_key (k :: ks))
    by (eapply Forall_impl; [exact Hall|]; simpl; tauto).
  assert (Hfree : Forall (Forall (λ c, Py.is_linebreak c = false)) (k :: ks)).
  { eapply Forall_impl; [exact Hall|]. simpl. intros ? [_ ?].
    by apply separator_free_linebreak. }
  unfold remove_key_from_txt, Fs.exists_, Fs.read_text, Fs.write_text.
  rewrite Hfile. simpl. rewrite read_mirror_lines by done.
  rewrite remove_loop_spec. simpl.
  rewrite decide_True by (apply shaped_strip; by inversion Hwf).
  simpl. rewrite shaped_rewritten; [done|]. by inversion Hwf.
Qed.

Lemma run_one_by_one_reachable s : run_one_by_one s → reachable s.
Proof.
  induction 1 as [|o s _ IH _]; [apply rtc_refl|].
  eapply rtc_r; [exact IH|apply step_op].
Qed.

Lemma unused_keys_shaped p d s :
  reachable s →
  Forall (λ k, well_formed_key k ∧ separator_free k) (Sql.unused_keys p d (db s)).
Proof.
  intros Hs%reachable_shaped. unfold Sql.unused_keys.
  apply Forall_fmap, Forall_forall. intros r [_ Hr]%list_elem_of_filter.
  rewrite Forall_forall in Hs. by apply Hs.
Qed.

(** An operation on one pool writes to the mirror file of that pool
    only. *)
Lemma run_op_other_files o s path :
  (∀ p d, match o with
          | AddStock p' d' _ | PopKey p' d' _ _ _ | ClearStock p' d'
          | StockCount p' d' => p = p' → d = d' → path ≠ stock_file p d
          end) →
  files (run_op o s) !! path = files s !! path.
Proof.
  intros Hpath. destruct o as [p d raw|p d a b now|p d|p d]; simpl; [| | |done];
    specialize (Hpath p d eq_refl eq_refl).
  - rewrite add_stock_via_text_spec.
    destruct (filter _ _) as [|k fr]; [done|].
    unfold Fs.append_text.
    destruct (files s !! stock_file p d) as [[c|]|]; simpl; [|done|];
      by rewrite lookup_insert_ne.
  - unfold pop_key. destruct (Sql.select_unused p d (db s)) as [[kid kv]|]; [|done].
    simpl. unfold remove_key_from_txt.
    destruct (negb (Fs.exists_ _ _)); [done|].
    destruct (Fs.read_text _ _); [|done].
    destruct (foldl _ _ _) as [[] new_lines]; [|done].
    unfold Fs.write_text.
    destruct (files s !! stock_file p d) as [[c|]|]; simpl; [|done|];
      by rewrite lookup_insert_ne.
  - unfold clear_stock, Fs.write_text.
    destruct (files s !! stock_file p d) as [[c|]|]; simpl; [|done|];
      by rewrite lookup_insert_ne.
Qed.

Lemma run_op_mirror_agrees o s p d :
  reachable s → offered_op o → offered p d →
  (∀ p' d', offered p' d' → mirror_agrees p' d' s) →
  mirror_agrees p d (run_op o s).
Proof.
  intros Hreach Ho Hpd Hinv.
  pose proof (reachable_ok _ Hreach) as Hok.
  destruct o as [p0 d0 raw|p0 d0 a b now|p0 d0|p0 d0]; simpl in Ho;
    [| | |by apply Hinv];
    (destruct (decide (p0 = p ∧ d0 = d)) as [[-> ->]|Hne];
     [|unfold mirror_agrees;
       rewrite run_op_other_files by
         (intros ?? -> ->; intros Heq;
          apply offered_paths_distinct in Heq as [-> ->]; try done; tauto);
       pose proof (Hinv p d Hpd) as Hold; unfold mirror_agrees in Hold]).
  - (* import into this pool *)
    specialize (Hinv p d Hpd). unfold mirror_agrees in *. simpl.
    rewrite add_stock_unused_keys, decide_True by done.
    rewrite add_stock_via_text_spec.
    destruct (filter _ (parse_keys raw)) as [|k fr] eqn:Hfr.
    { by rewrite app_nil_r. }
    unfold Fs.append_text.
    destruct (files s !! stock_file p d) as [[c|]|] eqn:Hfile; [|done|]; simpl;
      rewrite lookup_insert_eq.
    + by rewrite mirror_lines_app, Hinv.
    + by rewrite Hinv.
  - simpl. by rewrite add_stock_unused_keys, decide_False, app_nil_r.
  - (* a key of this pool is claimed *)
    specialize (Hinv p d Hpd). unfold mirror_agrees in *. simpl.
    pose proof (pop_key_unused_keys p d a b now s Hok) as Hpop.
    pose proof (unused_keys_shaped p d s Hreach) as Hshaped.
    destruct (Sql.unused_keys p d (db s)) as [|k ks] eqn:HU.
    { rewrite Hpop. simpl. by rewrite HU. }
    destruct Hpop as [Hk ->]. unfold pop_key in *.
    destruct (Sql.select_unused p d (db s)) as [[kid kv]|]; [|done].
    simpl in *. injection Hk as ->.
    destruct (files s !! stock_file p d) as [[c|]|] eqn:Hfile; [|done..].
    subst c. rewrite (remove_first_mirror_line p d k ks) by done.
    simpl. by rewrite lookup_insert_eq.
  - simpl. by rewrite pop_key_other_pool.
  - (* this pool is cleared *)
    specialize (Hinv p d Hpd). unfold mirror_agrees in *. cbn [run_op].
    rewrite clear_stock_unused_keys, decide_True by done.
    unfold clear_stock, Fs.write_text.
    destruct (files s !! stock_file p d) as [[c|]|]; [|done|]; simpl;
      by rewrite lookup_insert_eq.
  - cbn [run_op]. by rewrite clear_stock_unused_keys, decide_False.
Qed.

Lemma run_one_by_one_mirror s p d : run_one_by_one s → offered p d → mirror_agrees p d s.
Proof.
  intros Hrun. revert p d. induction Hrun as [|o s Hrun IH Ho]; intros p d Hpd.
  - unfold mirror_agrees. simpl. by rewrite lookup_empty.
  - apply run_op_mirror_agrees; [by apply run_one_by_one_reachable|done..].
Qed.

End mirror.

Section round_trip.
Import Spec.
Implicit Types (s : state) (r : Key) (p d k : str) (ks : list str).

Lemma replace_other old new t :
  Forall (λ c, c ≠ old) t → Py.replace old new t = t.
Proof.
  induction 1 as [|c t Hc _ IH]; [done|]. unfold Py.replace in *.
  rewrite fmap_cons, IH. by destruct (N.eqb_spec c old).
Qed.

Lemma normalize_lines t :
  Forall (λ c, c ∉ [COMMA; SEMICOLON; TAB; SPACE]) t → normalize t = t.
Proof.
  intros Ht. unfold normalize.
  assert (Hc : ∀ x, x ∈ [COMMA; SEMICOLON; TAB; SPACE] → Forall (λ c, c ≠ x) t).
  { intros x Hx. eapply Forall_impl; [exact Ht|]. simpl. by intros c Hc ->. }
  rewrite (replace_other COMMA), (replace_other SEMICOLON),
    (replace_other TAB), (replace_other SPACE); [done|..];
    apply Hc; repeat first [by left|right].
Qed.

Lemma mirror_lines_chars (P : N → Prop) ks :
  P LF → Forall (Forall P) ks → Forall P (mirror_lines ks).
Proof.
  intros HLF. induction 1 as [|k ks Hk _ IH]; [constructor|].
  rewrite mirror_lines_cons. apply Forall_app. split; [done|by constructor].
Qed.

Lemma nonempty_stripped_shaped ks :
  Forall well_formed_key ks → nonempty_stripped ks = ks.
Proof.
  induction 1 as [|k ks Hk _ IH]; [done|].
  rewrite nonempty_stripped_cons, IH, shaped_strip by done.
  destruct Hk as [Hne _]. by rewrite decide_True.
Qed.

Lemma dedup_first_NoDup ks : NoDup ks → dedup_first ks = ks.
Proof.
  induction ks as [|k ks IH] using rev_ind; [done|].
  intros [Hks [Hk _]]%NoDup_app. rewrite dedup_first_snoc, IH by done.
  rewrite decide_False; [done|]. intros Hin. apply (Hk k Hin). by left.
Qed.

(** Parsing the text of a mirror file gives back its lines. *)
Lemma parse_mirror_lines ks :
  NoDup ks → Forall (λ k, well_formed_key k ∧ separator_free k) ks →
  parse_keys (mirror_lines ks) = ks.
Proof.
  intros Hnd Hall.
  assert (Hwf : Forall well_formed_key ks)
    by (eapply Forall_impl; [exact Hall|]; simpl; tauto).
  unfold parse_keys. rewrite normalize_lines.
  - rewrite splitlines_mirror_lines.
    + destruct (collect_lines_spec ks) as (seen & -> & _). simpl.
      by rewrite nonempty_stripped_shaped, dedup_first_NoDup.
    + eapply Forall_impl; [exact Hall|]. simpl. intros k [_ Hk].
      by apply separator_free_linebreak.
  - apply mirror_lines_chars.
    + intros Hin. repeat (apply elem_of_cons in Hin as [Hin|Hin]; [done|]).
      by apply elem_of_nil in Hin.
    + eapply Forall_impl; [exact Hall|]. simpl. intros k [(_ & Hk & _) _].
      eapply Forall_impl; [exact Hk|]. simpl. intros c Hc Hin. apply Hc. by right.
Qed.

End round_trip.

Section mirror_theorems.
Implicit Types (s : state) (r : Key) (p d k : str) (ks : list str).

Lemma unused_keys_free p d s :
  reachable s →
  Forall (Forall (λ c, Py.is_linebreak c = false)) (Sql.unused_keys p d (db s)).
Proof.
  intros Hs. eapply Forall_impl; [by apply unused_keys_shaped|].
  simpl. intros k [_ Hk]. by apply separator_free_linebreak.
Qed.

(** X11. As long as the operations run one at a time, none beginning
    before the one before it has ended, all on offered pools and with
    nothing else writing to the stock directory, the mirror file of an
    offered pool lists exactly the unused values of the pool, one per
    line, in table order: its lines are these values, their number is
    [get_stock_count], importing its text would give the same values as
    tokens, and the path never holds something that is no file; no file
    at all means an empty pool.  (Operations that overlap can leave the
    file behind the table: [overlapping_pops_leave_mirror_behind]
    below.) *)
Theorem mirror_file_lists_unused_keys s p d :
  run_one_by_one s → offered p d →
  match Fs.read_text (stock_file p d) (files s) with
  | Ret text =>
      Py.splitlines text = Sql.unused_keys p d (db s) ∧
      length (Py.splitlines text) = get_stock_count p d s ∧
      parse_keys text = Sql.unused_keys p d (db s)
  | Raise FileNotFoundError => get_stock_count p d s = 0%nat
  | Raise IsADirectoryError => False
  end.
Proof.
  intros Hrun Hpd. pose proof (run_one_by_one_mirror s p d Hrun Hpd) as Hm.
  pose proof (run_one_by_one_reachable s Hrun) as Hreach.
  unfold mirror_agrees in Hm. unfold Fs.read_text, get_stock_count.
  rewrite <-unused_keys_length.
  destruct (files s !! stock_file p d) as [[c|]|]; [|done|by rewrite Hm].
  subst c. rewrite universal_newlines_id
    by by apply mirror_lines_no_cr, unused_keys_free.
  rewrite splitlines_mirror_lines by by apply unused_keys_free.
  split_and!; [done..|].
  apply parse_mirror_lines; [|by apply unused_keys_shaped].
  by apply unused_keys_NoDup, reachable_ok.
Qed.

Lemma sample_popped_run_one_by_one : run_one_by_one sample_popped.
Proof.
  assert (Ho : offered sample_program sample_duration)
    by (split; apply (bool_decide_unpack _); vm_compute; exact I).
  apply (run_one_by_one_op (PopKey _ _ _ _ _)); [|exact Ho].
  apply (run_one_by_one_op (AddStock _ _ _)); [|exact Ho].
  apply run_one_by_one_init.
Defined.

Lemma sample_offered : offered sample_program sample_duration.
Proof. split; apply (bool_decide_unpack _); vm_compute; exact I. Defined.

Lemma mirror_file_lists_unused_keys_witness :
  Py.splitlines (py "B" ++ [LF]) = [py "B"] ∧
  length (Py.splitlines (py "B" ++ [LF])) = 1%nat ∧
  parse_keys (py "B" ++ [LF]) = [py "B"].
Proof.
  exact (mirror_file_lists_unused_keys sample_popped sample_program
           sample_duration sample_popped_run_one_by_one sample_offered).
Defined.

(** X12. In a state reached by operations run one at a time (as in
    X11), a call of [pop_key] that runs to its end without another
    operation coming in between finds its key in the mirror file: the
    claimed value is the first line of the file, [remove_key_from_txt]
    returns [True], and the file is left with the unused values that
    remain. *)
Theorem pop_key_removes_mirror_line s p d a b now k s' :
  run_one_by_one s → offered p d → pop_key p d a b now s = (Some k, s') →
  remove_key_from_txt p d k (files s) = (Ret true, files s') ∧
  ∃ ks, files s !! stock_file p d = Some (File (mirror_lines (k :: ks))) ∧
        files s' = <[stock_file p d := File (mirror_lines ks)]> (files s) ∧
        Sql.unused_keys p d (db s') = ks.
Proof.
  intros Hrun Hpd Hpop. pose proof (run_one_by_one_mirror s p d Hrun Hpd) as Hm.
  pose proof (run_one_by_one_reachable s Hrun) as Hreach.
  pose proof (pop_key_unused_keys p d a b now s (reachable_ok _ Hreach)) as Hk.
  pose proof (unused_keys_shaped p d s Hreach) as Hshaped.
  rewrite Hpop in Hk. simpl in Hk.
  unfold mirror_agrees in Hm.
  destruct (Sql.unused_keys p d (db s)) as [|k' ks] eqn:HU; [done|].
  destruct Hk as [[= <-] Hks].
  destruct (files s !! stock_file p d) as [[c|]|] eqn:Hfile; [|done..].
  subst c.
  pose proof (remove_first_mirror_line p d k ks (files s) Hfile Hshaped) as Hrem.
  unfold pop_key in Hpop.
  destruct (Sql.select_unused p d (db s)) as [[kid kv]|]; [|done].
  injection Hpop as -> <-. simpl. rewrite Hrem. simpl.
  split; [done|]. by exists ks.
Qed.

End mirror_theorems.

(** Two calls of [pop_key] that overlap: call 0 has committed its claim
    of A but has not come to the mirror file when call 1 runs from its
    start to its return.  Call 1 removes the second line, and at that
    point the pool is empty while the mirror file still lists A. *)
Example overlapping_pops_leave_mirror_behind :
  ∃ w, Concurrent.run sample_program sample_duration sample_overlap_schedule
         sample_pair = Some w ∧
       Sql.unused_keys sample_program sample_duration (Concurrent.w_db w) = [] ∧
       Concurrent.w_files w !! stock_file sample_program sample_duration
       = Some (File (py "A" ++ [LF])).
Proof. eexists. split_and!; reflexivity. Qed.

(** ** Round trips through the mirror file *)

Lemma pop_key_removes_mirror_line_witness :
  remove_key_from_txt sample_program sample_duration (py "A") (files sample_stocked)
  = (Ret true, files sample_popped) ∧
  ∃ ks, files sample_stocked !! stock_file sample_program sample_duration
        = Some (File (mirror_lines (py "A" :: ks))) ∧
        files sample_popped
        = <[stock_file sample_program sample_duration := File (mirror_lines ks)]>
            (files sample_stocked) ∧
        Sql.unused_keys sample_program sample_duration (db sample_popped) = ks.
Proof.
  apply (pop_key_removes_mirror_line sample_stocked sample_program
           sample_duration 7 8 sample_now).
  - apply (run_one_by_one_op (AddStock _ _ _)); [apply run_one_by_one_init|].
    apply sample_offered.
  - apply sample_offered.
  - reflexivity.
Defined.

Section round_trips.
Implicit Types (s : state) (r : Key) (p d k : str) (ks : list str).

(** X13. The tokens of any text, written one per line as the import
    writes them to the mirror file, parse to the same tokens again. *)
Theorem tokens_survive_export raw :
  parse_keys (mirror_lines (parse_keys raw)) = parse_keys raw.
Proof.
  apply parse_mirror_lines; [apply parse_keys_NoDup|].
  apply Forall_forall. intros k Hk. by apply parse_keys_shape in Hk.
Qed.

Lemma cleared_pool_keys_gone p d dbs k :
  db_ok dbs → k ∈ Sql.unused_keys p d dbs →
  k ∉ key <$> rows (Sql.delete_unused p d dbs).
Proof.
  intros [Hnd _ _]. unfold Sql.unused_keys, Sql.delete_unused. simpl.
  rewrite !list_elem_of_fmap.
  intros (r & -> & [Hu Hr]%list_elem_of_filter) (r' & Heq & [Hnu Hr']%list_elem_of_filter).
  apply Hnu. by rewrite <-(unique_keys_inj _ _ _ Hnd Hr Hr' Heq).
Qed.

(** X14. In a state reached by operations run one at a time (as in
    X11), clearing an offered pool and then importing the text its
    mirror file held, the two again one after the other, restores the
    pool: the import adds as many keys as the pool counted and skips
    none, the unused values are the former ones in their order, the
    stock directory is what it was, and the claimed rows are all
    kept. *)
Theorem clear_then_reimport_restores_pool s p d text :
  run_one_by_one s → offered p d →
  Fs.read_text (stock_file p d) (files s) = Ret text →
  let out := add_stock_via_text p d text (clear_stock p d s).2 in
  out.1 = Ret (get_stock_count p d s, 0%nat) ∧
  Sql.unused_keys p d (db out.2) = Sql.unused_keys p d (db s) ∧
  files out.2 = files s ∧
  ∀ r, r ∈ rows (db s) → claimed r → r ∈ rows (db out.2).
Proof.
  intros Hrun Hpd Hread. pose proof (run_one_by_one_mirror s p d Hrun Hpd) as Hm.
  pose proof (run_one_by_one_reachable s Hrun) as Hreach.
  pose proof (reachable_ok _ Hreach) as Hok.
  unfold mirror_agrees in Hm. unfold Fs.read_text in Hread.
  destruct (files s !! stock_file p d) as [[c|]|] eqn:Hfile; [|done..].
  injection Hread as <-. subst c.
  rewrite universal_newlines_id
    by by apply mirror_lines_no_cr, unused_keys_free.
  set (ks := Sql.unused_keys p d (db s)) in *.
  assert (Hparse : parse_keys (mirror_lines ks) = ks).
  { apply parse_mirror_lines; [by apply unused_keys_NoDup|].
    by apply unused_keys_shaped. }
  assert (Hfiles : files (clear_stock p d s).2
                   = <[stock_file p d := File []]> (files s)).
  { unfold clear_stock, Fs.write_text. by rewrite Hfile. }
  assert (Hfresh : filter (λ k, k ∉ key <$> rows (db (clear_stock p d s).2)) ks = ks).
  { apply filter_all, Forall_forall. intros k Hk. rewrite clear_stock_db.
    by apply cleared_pool_keys_gone. }
  assert (Hdups : filter (λ k, k ∈ key <$> rows (db (clear_stock p d s).2)) ks = []).
  { apply filter_none, Forall_forall. intros k Hk. rewrite clear_stock_db.
    by apply cleared_pool_keys_gone. }
  assert (Hrows : ∀ r, r ∈ rows (db s) → claimed r →
                       r ∈ rows (db (clear_stock p d s).2)).
  { intros r Hr Hcl. rewrite clear_stock_db. simpl.
    apply list_elem_of_filter. split; [|done]. by intros (_ & _ & ?). }
  pose proof (add_stock_unused_keys p d (mirror_lines ks) (clear_stock p d s).2 p d)
    as Hkeys.
  rewrite clear_stock_unused_keys, !decide_True, Hparse, Hfresh in Hkeys by done.
  pose proof (add_stock_rows p d (mirror_lines ks) (clear_stock p d s).2) as Hadd.
  pose proof (add_stock_via_text_spec p d (mirror_lines ks) (clear_stock p d s).2)
    as Hspec.
  cbv zeta in Hspec. rewrite Hparse, Hfresh, Hdups in Hspec.
  assert (Hcount : get_stock_count p d s = length ks)
    by (unfold get_stock_count; by rewrite <-unused_keys_length).
  rewrite Hcount. clear Hcount. cbv zeta.
  set (out := add_stock_via_text p d (mirror_lines ks) (clear_stock p d s).2) in *.
  split_and!; [|done| |].
  - rewrite Hspec. destruct ks as [|k ks']; [done|].
    unfold Fs.append_text. by rewrite Hfiles, lookup_insert_eq.
  - rewrite Hspec. destruct ks as [|k ks'].
    + simpl. rewrite Hfiles. by apply insert_id.
    + unfold Fs.append_text. rewrite Hfiles, lookup_insert_eq. simpl.
      rewrite insert_insert_eq. by apply insert_id.
  - intros r Hr Hcl. rewrite Hadd. apply elem_of_app. left. by apply Hrows.
Qed.

End round_trips.

Lemma clear_then_reimport_restores_pool_witness :
  let out := add_stock_via_text sample_program sample_duration (py "B" ++ [LF])
               (clear_stock sample_program sample_duration sample_popped).2 in
  out.1 = Ret (get_stock_count sample_program sample_duration sample_popped, 0%nat) ∧
  Sql.unused_keys sample_program sample_duration (db out.2)
  = Sql.unused_keys sample_program sample_duration (db sample_popped) ∧
  files out.2 = files sample_popped ∧
  ∀ r, r ∈ rows (db sample_popped) → claimed r → r ∈ rows (db out.2).
Proof.
  apply (clear_then_reimport_restores_pool sample_popped).
  - apply sample_popped_run_one_by_one.
  - apply sample_offered.
  - reflexivity.
Defined.

(** ** Row ids and sold keys *)

Section row_ids.
Implicit Types (s : state) (r : Key) (p d k : str) (ks : list str).

Lemma continues_refl dbs : continues dbs dbs.
Proof. split; [lia|]. intros r Hr. left. by exists r. Qed.

Lemma continues_trans (db1 db2 db3 : DB) :
  continues db1 db2 → continues db2 db3 → continues db1 db3.
Proof.
  intros [Hs12 H12] [Hs23 H23]. split; [lia|]. intros r3 Hr3.
  destruct (H23 r3 Hr3) as [(r2 & Hr2 & Hid & Hp & Hd & Hk & Hcl)|Hnew]; [|right; lia].
  destruct (H12 r2 Hr2) as [(r1 & Hr1 & Hid' & Hp' & Hd' & Hk' & Hcl')|Hnew].
  - left. exists r1. split_and!; [done|congruence..|].
    intros Hc. rewrite <-(Hcl' Hc). apply Hcl. by rewrite (Hcl' Hc).
  - right. lia.
Qed.

Lemma mark_used_continues a b now p d dbs kid kv :
  db_ok dbs → Sql.select_unused p d dbs = Some (kid, kv) →
  continues dbs (Sql.mark_used a b now kid dbs).
Proof.
  intros [_ Hsorted _] Hsel. split; [simpl; lia|]. intros r' Hr'. left.
  simpl in Hr'. apply list_elem_of_fmap in Hr' as (r & -> & Hr).
  exists r. unfold Sql.mark_row. case_decide as Hid; [|done].
  split_and!; [done..|]. intros Hcl.
  destruct (select_unused_Some _ _ _ _ _ Hsel)
    as (l1 & row & l2 & Hrows & _ & (_ & _ & Hu) & -> & _).
  assert (r = row) as ->.
  { apply (sorted_ids_inj (rows dbs)); [done|done| |done].
    rewrite Hrows. apply elem_of_app. right. by left. }
  by destruct Hcl.
Qed.

Lemma run_op_continues o s :
  db_ok (db s) → continues (db s) (db (run_op o s)).
Proof.
  intros Hok. destruct o as [p d raw|p d a b now|p d|p d]; simpl.
  - split.
    + rewrite add_stock_db, insert_loop_spec by apply parse_keys_NoDup. simpl. lia.
    + intros r'. rewrite add_stock_rows.
      intros [Hr|Hr]%elem_of_app; [left; by exists r'|right].
      by eapply new_rows_ids.
  - rewrite pop_key_db.
    destruct (Sql.select_unused p d (db s)) as [[kid kv]|] eqn:Hsel;
      [by eapply mark_used_continues|apply continues_refl].
  - rewrite clear_stock_db. split; [simpl; lia|]. intros r'. simpl.
    intros [_ Hr]%list_elem_of_filter. left. by exists r'.
  - apply continues_refl.
Qed.

Lemma steps_continue s s' :
  rtc step s s' → db_ok (db s) → continues (db s) (db s').
Proof.
  induction 1 as [s|s1 s2 s3 Hstep _ IH]; intros Hok; [apply continues_refl|].
  eapply continues_trans; [|apply IH; by eapply step_ok].
  destruct Hstep; [by apply run_op_continues|apply continues_refl].
Qed.

(** X15. A row id is never given twice: a row of a later table with
    the id of a row of an earlier (reachable) table is that row, with
    the same pool and value, and the same row altogether when the earlier
    one was claimed; this holds also when rows were deleted by
    [clear_stock] and others inserted in between. *)
Theorem row_ids_never_reused s s' r r' :
  reachable s → rtc step s s' →
  r ∈ rows (db s) → r' ∈ rows (db s') → row_id r' = row_id r →
  program r' = program r ∧ duration r' = duration r ∧ key r' = key r ∧
  (claimed r → r' = r).
Proof.
  intros Hok%reachable_ok Hsteps Hr Hr' Hid.
  destruct (steps_continue _ _ Hsteps Hok) as [_ Hcont].
  destruct (Hcont r' Hr') as [(r0 & Hr0 & Hid0 & Hrest)|Hnew].
  - assert (r0 = r) as ->; [|done].
    apply (sorted_ids_inj (rows (db s))); [by destruct Hok|done|done|congruence].
  - destruct Hok as [_ _ Hseq]. rewrite Forall_forall in Hseq.
    specialize (Hseq r Hr). lia.
Qed.

(** X16. A value that was claimed is never in stock again: in every
    later state no pool lists it as unused, and every later import whose
    text holds it skips at least one token and leaves it out of every
    pool. *)
Theorem sold_key_never_restocked s s' row :
  reachable s → row ∈ rows (db s) → claimed row → rtc step s s' →
  (∀ p d, key row ∉ Sql.unused_keys p d (db s')) ∧
  (∀ p d raw added skipped s'',
     key row ∈ parse_keys raw →
     add_stock_via_text p d raw s' = (Ret (added, skipped), s'') →
     (0 < skipped)%nat ∧ (added + skipped = length (parse_keys raw))%nat ∧
     ∀ p' d', key row ∉ Sql.unused_keys p' d' (db s'')).
Proof.
  intros Hreach Hin Hcl Hsteps.
  assert (Hnever : ∀ s1, rtc step s s1 → ∀ p d, key row ∉ Sql.unused_keys p d (db s1)).
  { intros s1 Hs1 p d. unfold Sql.unused_keys.
    intros (r & Hk & [(_ & _ & Hu) Hr]%list_elem_of_filter)%list_elem_of_fmap.
    assert (Hok1 : db_ok (db s1)) by (eapply steps_ok; [done|by apply reachable_ok]).
    assert (Hrow : row ∈ rows (db s1)).
    { eapply claimed_row_kept; [done|by apply reachable_ok|done..]. }
    destruct Hok1 as [Hnd _ _].
    rewrite (unique_keys_inj _ _ _ Hnd Hrow Hr Hk) in Hcl. by destruct Hcl. }
  split; [by apply Hnever|].
  intros p d raw added skipped s'' Hraw Hrun.
  assert (Hrow : key row ∈ key <$> rows (db s')).
  { apply list_elem_of_fmap. exists row. split; [done|].
    eapply claimed_row_kept; [done|by apply reachable_ok|done..]. }
  assert (Hs'' : s'' = run_op (AddStock p d raw) s') by (simpl; by rewrite Hrun).
  rewrite add_stock_via_text_spec in Hrun. cbv zeta in Hrun.
  pose proof (filter_complement_length (λ k, k ∈ key <$> rows (db s')) (parse_keys raw))
    as Hlen.
  simpl in Hlen.
  assert (added = length (filter (λ k, k ∉ key <$> rows (db s')) (parse_keys raw)) ∧
          skipped = length (filter (λ k, k ∈ key <$> rows (db s')) (parse_keys raw)))
    as [-> ->].
  { destruct (filter (λ k, k ∉ _) _) as [|k fr].
    - by injection Hrun as <- <-.
    - destruct (Fs.append_text _ _ _); [|done]. by injection Hrun as <- <-. }
  assert (Hdup : key row ∈ filter (λ k, k ∈ key <$> rows (db s')) (parse_keys raw))
    by by apply list_elem_of_filter.
  split_and!.
  - destruct (filter (λ k, k ∈ _) _); [by apply elem_of_nil in Hdup|simpl; lia].
  - exact Hlen.
  - intros p' d'. apply Hnever. subst s''. eapply rtc_r; [done|apply step_op].
Qed.

End row_ids.

Lemma row_ids_never_reused_witness :
  program sample_claimed_row = program sample_unused_row ∧
  duration sample_claimed_row = duration sample_unused_row ∧
  key sample_claimed_row = key sample_unused_row ∧
  (claimed sample_unused_row → sample_claimed_row = sample_unused_row).
Proof.
  apply (row_ids_never_reused sample_stocked sample_popped).
  - apply sample_stocked_reachable.
  - apply rtc_once, step_op.
  - vm_compute. left.
  - vm_compute. left.
  - reflexivity.
Defined.

Lemma sold_key_never_restocked_witness :
  (∀ p d, key sample_claimed_row ∉ Sql.unused_keys p d (db sample_popped)) ∧
  (∀ p d raw added skipped s'',
     key sample_claimed_row ∈ parse_keys raw →
     add_stock_via_text p d raw sample_popped = (Ret (added, skipped), s'') →
     (0 < skipped)%nat ∧ (added + skipped = length (parse_keys raw))%nat ∧
     ∀ p' d', key sample_claimed_row ∉ Sql.unused_keys p' d' (db s'')).
Proof.
  apply (sold_key_never_restocked sample_popped sample_popped sample_claimed_row).
  - apply sample_popped_reachable.
  - vm_compute. left.
  - vm_compute. discriminate.
  - apply rtc_refl.
Defined.

(** ** The commands *)

Section commands.
Variable OWNER_IDS : gset Z.
Implicit Types (s : state) (r : Key) (p d k : str) (b : bot) (c : command).

Lemma bot_eta b : {| inventory := inventory b; resellers := resellers b |} = b.
Proof. by destruct b. Qed.

Lemma gen_key_cmd_state caller p d buyer defer_ok dm now b :
  (gen_key_cmd OWNER_IDS caller p d buyer defer_ok dm now b).2
  = if reseller_has_access OWNER_IDS caller p (resellers b) && defer_ok
    then {| inventory := (pop_key p d caller buyer now (inventory b)).2;
            resellers := resellers b |}
    else b.
Proof.
  unfold gen_key_cmd.
  destruct (reseller_has_access _ _ _ _); [|done]. destruct defer_ok; [|done].
  simpl. destruct (pop_key _ _ _ _ _ _).1 as [k|]; [|done].
  destruct (Py.truthy k); [|done]. by destruct dm.
Qed.

Lemma remove_reseller_cmd_state caller p user env b :
  (remove_reseller_cmd OWNER_IDS caller p user env b).2
  = if is_owner OWNER_IDS caller
    then {| inventory := inventory b;
            resellers := remove_reseller_db user p (resellers b) |}
    else b.
Proof.
  unfold remove_reseller_cmd. destruct (is_owner _ caller); [|done]. simpl.
  destruct env; try done; by destruct (is_reseller_anywhere _ _ _).
Qed.

(** The inventory after a command is the one before, or an operation was
    run on it. *)
Lemma run_command_inventory caller c b :
  inventory (run_command OWNER_IDS caller c b) = inventory b ∨
  ∃ o, inventory (run_command OWNER_IDS caller c b) = run_op o (inventory b) ∧
       (offered_command c → offered_op o).
Proof.
  destruct c as [p user|p user env|p d txt text|p d|p d|kv d reason|p d buyer ok dm now];
    simpl.
  - destruct (is_owner _ _); by left.
  - rewrite remove_reseller_cmd_state. destruct (is_owner _ _); by left.
  - destruct (is_owner _ _); [|by left]. destruct txt; [|by left].
    right. by exists (AddStock p d text).
  - destruct (is_owner _ _); [|by left]. right. by exists (ClearStock p d).
  - by left.
  - by left.
  - rewrite gen_key_cmd_state.
    destruct (_ && _); [|by left]. right. by exists (PopKey p d caller buyer now).
Qed.

Lemma pop_key_keys p d (a a2 : Z) now s :
  key <$> rows (db (pop_key p d a a2 now s).2) = key <$> rows (db s).
Proof.
  rewrite pop_key_db. destruct (Sql.select_unused _ _ _) as [[??]|]; [|done].
  apply mark_used_keys.
Qed.

(** X17. A caller who is no owner changes neither the [resellers]
    table nor the set of key values, whatever the command: the state is
    left as it is, except by a [gen_key] whose [defer] went through, for
    a program the caller has a row for, and then the inventory is the
    one [pop_key] leaves. *)
Theorem only_owners_change_access caller c b :
  is_owner OWNER_IDS caller = false →
  let b' := run_command OWNER_IDS caller c b in
  resellers b' = resellers b ∧
  key <$> rows (db (inventory b')) = key <$> rows (db (inventory b)) ∧
  (b' = b ∨
   ∃ p d buyer dm_error now,
     c = GenKey p d buyer true dm_error now ∧ (caller, p) ∈ resellers b ∧
     inventory b' = (pop_key p d caller buyer now (inventory b)).2).
Proof.
  intros Hno.
  destruct c as [p user|p user env|p d txt text|p d|p d|kv d reason|p d buyer ok dm now];
    cbn [run_command]; rewrite ?remove_reseller_cmd_state, ?gen_key_cmd_state,
      ?Hno; simpl; try (split_and!; [done|done|by left]).
  destruct (reseller_has_access OWNER_IDS caller p (resellers b)) eqn:Hacc;
    [|split_and!; [done|done|by left]].
  destruct ok; simpl; [|split_and!; [done|done|by left]].
  split_and!; [done|apply pop_key_keys|]. right. exists p, d, buyer, dm, now.
  split_and!; [done| |done].
  apply reseller_has_access_true in Hacc as [Ho|?]; [congruence|done].
Qed.

Lemma truthy_nonempty (t : str) : t ≠ [] → Py.truthy t = true.
Proof. by destruct t. Qed.

Lemma shorten_error_length msg limit :
  (3 ≤ limit)%Z → (Z.of_nat (length (shorten_error msg limit)) ≤ limit)%Z.
Proof.
  intros Hlimit.
  destruct (Z.le_gt_cases (Z.of_nat (length (Py.strip msg))) limit) as [Hle|Hgt].
  - by rewrite shorten_error_short.
  - rewrite shorten_error_long by lia.
    rewrite length_app, length_take. change (length (py "...")) with 3%nat. lia.
Qed.

(** X18. [gen_key_cmd] for a caller with access, in a reachable state:
    when [defer] fails nothing is claimed; when the pool is empty the
    reply is "no stock" and the state is unchanged; otherwise the first
    unused key of the pool is claimed for the caller and the buyer, and
    it is handed over exactly once - in the direct message when that
    goes through, and else in the reply, next to a reason of at most
    300 characters.  The test [if not key_value] never turns a claimed
    key into "no stock", a stored key being non-empty. *)
Theorem gen_key_cmd_outcomes caller p d buyer defer_ok dm_error now b :
  reachable (inventory b) →
  reseller_has_access OWNER_IDS caller p (resellers b) = true →
  let out := gen_key_cmd OWNER_IDS caller p d buyer defer_ok dm_error now b in
  if defer_ok then
    match Sql.unused_keys p d (db (inventory b)) with
    | [] => out = (GenNoStock, None, b)
    | k :: ks =>
        resellers out.2 = resellers b ∧
        Sql.unused_keys p d (db (inventory out.2)) = ks ∧
        (∃ r, r ∈ rows (db (inventory out.2)) ∧ key r = k ∧
              used_by r = Some caller ∧ used_for r = Some buyer ∧
              used_at r = Some now) ∧
        match dm_error with
        | None => out.1 = (GenConfirmed, Some k)
        | Some e =>
            ∃ reason, out.1 = (GenDmFailed reason k, None) ∧
                      (length reason ≤ 300)%nat
        end
    end
  else out = (GenNoReply, None, b).
Proof.
  intros Hreach Hacc. cbv zeta. unfold gen_key_cmd. rewrite Hacc.
  destruct defer_ok; [|done]. cbn [negb].
  pose proof (reachable_ok _ Hreach) as Hok.
  pose proof (pop_key_unused_keys p d caller buyer now (inventory b) Hok) as Hk.
  pose proof (unused_keys_shaped p d _ Hreach) as Hshaped.
  pose proof (pop_key_db p d caller buyer now (inventory b)) as Hdb.
  destruct (Sql.unused_keys p d (db (inventory b))) as [|k ks] eqn:HU.
  { rewrite Hk. simpl. by rewrite bot_eta. }
  destruct Hk as [Hk1 Hk2]. rewrite Hk1.
  apply Forall_cons in Hshaped as [[[Hne _] _] _].
  rewrite truthy_nonempty by done. cbn [negb].
  assert (Hrow : ∃ r, r ∈ rows (db (pop_key p d caller buyer now (inventory b)).2) ∧
                      key r = k ∧ used_by r = Some caller ∧
                      used_for r = Some buyer ∧ used_at r = Some now).
  { rewrite Hdb. unfold pop_key in Hk1.
    destruct (Sql.select_unused p d (db (inventory b))) as [[kid kv]|] eqn:Hsel; [|done].
    simpl in Hk1. injection Hk1 as ->.
    destruct (select_unused_Some _ _ _ _ _ Hsel)
      as (l1 & row & l2 & Hrows & _ & _ & -> & ->).
    exists (Sql.mark_row caller buyer now (row_id row) row). split.
    - simpl. apply list_elem_of_fmap. exists row. split; [done|].
      rewrite Hrows. apply elem_of_app. right. by left.
    - unfold Sql.mark_row. by rewrite decide_True. }
  destruct dm_error as [e|]; simpl; (split_and!; [done|done|done|]); [|done].
  eexists. split; [done|].
  pose proof (shorten_error_length (if Py.truthy e then e else py "Unknown")
                default_limit) as Hlen.
  unfold default_limit in *. lia.
Qed.

(** X19. [remove_reseller_cmd] takes the role from the user only when
    the caller is an owner, the guild call went through, and the user,
    after the removal, is no owner and has access to no program at all;
    the row removed was then the only one of the user. *)
Theorem remove_reseller_cmd_takes_role caller p user env b note b' :
  remove_reseller_cmd OWNER_IDS caller p user env b = (note, true, b') →
  is_owner OWNER_IDS caller = true ∧
  env = RoleCallOk ∧ note = Some RemoveRemoved ∧
  is_owner OWNER_IDS user = false ∧
  (∀ p', reseller_has_access OWNER_IDS user p' (resellers b') = false) ∧
  (∀ p', (user, p') ∈ resellers b → p' = p).
Proof.
  unfold remove_reseller_cmd.
  destruct (is_owner OWNER_IDS caller) eqn:Hcaller; [|done]. cbn [negb].
  destruct (is_reseller_anywhere OWNER_IDS user _) eqn:Hstill;
    destruct env; try done.
  intros [= <- <-]. simpl.
  assert (Hnone : ¬ (is_owner OWNER_IDS user = true ∨
                     ∃ p', (user, p') ∈ remove_reseller_db user p (resellers b))).
  { rewrite <-is_reseller_anywhere_true. by rewrite Hstill. }
  split_and!; [done..| | |].
  - destruct (is_owner OWNER_IDS user); [|done]. destruct Hnone. by left.
  - intros p'. apply not_true_is_false. rewrite reseller_has_access_true.
    intros [?|?]; apply Hnone; [by left|right; by exists p'].
  - intros p' Hin. destruct (decide (p' = p)) as [|Hne]; [done|].
    destruct Hnone. right. exists p'. apply elem_of_remove_reseller_db.
    split; [congruence|done].
Qed.

Lemma commands_one_by_one_inventory b :
  commands_one_by_one OWNER_IDS b → run_one_by_one (inventory b).
Proof.
  induction 1 as [|caller c b _ IH Hc]; [apply run_one_by_one_init|].
  destruct (run_command_inventory caller c b) as [->|(o & -> & Ho)]; [done|].
  apply run_one_by_one_op; [done|by apply Ho].
Qed.

Lemma NoDup_add_reseller_db u p t : NoDup t → NoDup (add_reseller_db u p t).
Proof.
  intros Ht. unfold add_reseller_db. case_decide as Hin; [done|].
  apply NoDup_app. split_and!; [done| |apply NoDup_singleton].
  intros r Hr ->%list_elem_of_singleton. done.
Qed.

Lemma commands_one_by_one_resellers b :
  commands_one_by_one OWNER_IDS b →
  NoDup (resellers b) ∧ ∀ u p, (u, p) ∈ resellers b → p ∈ PROGRAMS.
Proof.
  induction 1 as [|caller c b _ [IH1 IH2] Hc]; [split; [constructor|]|].
  { by intros u p ?%elem_of_nil. }
  destruct c as [p user|p user env|p d txt text|p d|p d|kv d reason|p d buyer ok dm now];
    cbn [run_command]; rewrite ?remove_reseller_cmd_state, ?gen_key_cmd_state.
  - destruct (is_owner _ _); simpl; [|done]. split; [by apply NoDup_add_reseller_db|].
    intros u p' [[= -> ->]|?]%elem_of_add_reseller_db; [done|by eapply IH2].
  - destruct (is_owner _ _); simpl; [|done]. split; [by apply NoDup_filter|].
    intros u p' [_ ?]%elem_of_remove_reseller_db. by eapply IH2.
  - destruct (is_owner _ _); [|done]. by destruct txt.
  - by destruct (is_owner _ _).
  - done.
  - done.
  - by destruct (_ && _).
Qed.

Lemma run_one_by_one_pools s r :
  run_one_by_one s → r ∈ rows (db s) → offered (program r) (duration r).
Proof.
  intros Hrun. revert r. induction Hrun as [|o s Hrun IH Ho]; intros r.
  { by intros ?%elem_of_nil. }
  destruct o as [p d raw|p d a a2 now|p d|p d]; simpl in *.
  - rewrite add_stock_rows. intros [?|Hr]%elem_of_app; [by apply IH|].
    pose proof (new_rows_unused p d (seq (db s))
                  (filter (λ k, k ∉ key <$> rows (db s)) (parse_keys raw))) as Hall.
    rewrite Forall_forall in Hall. by destruct (Hall r Hr) as (-> & -> & _).
  - rewrite pop_key_db. destruct (Sql.select_unused _ _ _) as [[kid kv]|]; [|by apply IH].
    simpl. intros (r0 & -> & Hr0)%list_elem_of_fmap.
    unfold Sql.mark_row. case_decide; simpl; by apply IH.
  - rewrite clear_stock_db. simpl. intros [_ ?]%list_elem_of_filter. by apply IH.
  - apply IH.
Qed.

(** X20. In every state reached by commands with offered choices, by
    whatever callers, as long as the commands are handled one at a time,
    none beginning before the one before it has ended: the [resellers]
    table holds no row twice and only offered programs, no key value
    stands twice in the [keys] table, every row belongs to an offered
    pool, and the mirror file of every offered pool lists exactly the
    unused values of the pool. *)
Theorem commands_keep_bot_consistent b :
  commands_one_by_one OWNER_IDS b →
  NoDup (resellers b) ∧
  (∀ u p, (u, p) ∈ resellers b → p ∈ PROGRAMS) ∧
  NoDup (key <$> rows (db (inventory b))) ∧
  (∀ r, r ∈ rows (db (inventory b)) → offered (program r) (duration r)) ∧
  ∀ p d, offered p d →
    match Fs.read_text (stock_file p d) (files (inventory b)) with
    | Ret text => Py.splitlines text = Sql.unused_keys p d (db (inventory b))
    | Raise FileNotFoundError => get_stock_count p d (inventory b) = 0%nat
    | Raise IsADirectoryError => False
    end.
Proof.
  intros Hrun. destruct (commands_one_by_one_resellers b Hrun) as [Hnd Hprog].
  pose proof (commands_one_by_one_inventory b Hrun) as Hinv.
  pose proof (run_one_by_one_reachable _ Hinv) as Hreach.
  split_and!; [done|done|by destruct (reachable_ok _ Hreach)| |].
  - intros r. by apply run_one_by_one_pools.
  - intros p d Hpd. pose proof (run_one_by_one_mirror _ p d Hinv Hpd) as Hm.
    unfold mirror_agrees in Hm. unfold Fs.read_text, get_stock_count.
    rewrite <-unused_keys_length.
    destruct (files (inventory b) !! stock_file p d) as [[c|]|]; [|done|by rewrite Hm].
    subst c. rewrite universal_newlines_id
      by by apply mirror_lines_no_cr, unused_keys_free.
    by rewrite splitlines_mirror_lines by by apply unused_keys_free.
Qed.

(** X21. With [LOG_FULL_KEY] off, what [log_gen_key] shows of a stored
    key has the length of the key and a star at every position but the
    first four and the last four. *)
Theorem logged_key_hides_stored_key s r :
  reachable s → r ∈ rows (db s) →
  let shown := logged_key false (key r) in
  length shown = length (key r) ∧
  ∀ i, (4 ≤ i < length (key r) - 4)%nat → shown !! i = Some STAR.
Proof.
  intros Hs%reachable_shaped Hr. rewrite Forall_forall in Hs.
  destruct (Hs r Hr) as [Hwf _]. pose proof (shaped_strip _ Hwf) as Hstrip.
  cbv zeta. unfold logged_key.
  destruct (le_gt_dec (length (key r)) 8) as [Hle|Hgt].
  - rewrite mask_key_short, Hstrip by by rewrite Hstrip. split; [done|]. lia.
  - rewrite mask_key_long, Hstrip by (rewrite Hstrip; lia).
    split.
    + rewrite !length_app, length_take, length_replicate, length_drop. lia.
    + intros i Hi. rewrite lookup_app_r; rewrite length_take; [|lia].
      rewrite lookup_app_l by (rewrite length_replicate; lia).
      apply lookup_replicate_2. lia.
Qed.

End commands.

Lemma only_owners_change_access_witness :
  let c := GenKey sample_program sample_duration 8 true None sample_now in
  let b' := run_command sample_owners 7 c sample_bot in
  resellers b' = resellers sample_bot ∧
  key <$> rows (db (inventory b')) = key <$> rows (db (inventory sample_bot)) ∧
  (b' = sample_bot ∨
   ∃ p d buyer dm_error now,
     c = GenKey p d buyer true dm_error now ∧ (7%Z, p) ∈ resellers sample_bot ∧
     inventory b' = (pop_key p d 7 buyer now (inventory sample_bot)).2).
Proof.
  apply (only_owners_change_access sample_owners 7
           (GenKey sample_program sample_duration 8 true None sample_now)
           sample_bot).
  reflexivity.
Defined.

Lemma gen_key_cmd_outcomes_witness :
  (gen_key_cmd sample_owners 7 sample_program sample_duration 8 true None
     sample_now sample_bot).1
  = (GenConfirmed, Some (py "A")).
Proof.
  refine (proj2 (proj2 (proj2
    (gen_key_cmd_outcomes sample_owners 7 sample_program sample_duration 8 true
       None sample_now sample_bot _ _)))).
  - apply sample_stocked_reachable.
  - reflexivity.
Defined.

Lemma remove_reseller_cmd_takes_role_witness :
  is_owner sample_owners 1 = true ∧
  RoleCallOk = RoleCallOk ∧ Some RemoveRemoved = Some RemoveRemoved ∧
  is_owner sample_owners 7 = false ∧
  (∀ p', reseller_has_access sample_owners 7 p' [] = false) ∧
  (∀ p', (7%Z, p') ∈ resellers sample_bot → p' = sample_program).
Proof.
  apply (remove_reseller_cmd_takes_role sample_owners 1 sample_program 7
           RoleCallOk sample_bot (Some RemoveRemoved)
           {| inventory := sample_stocked; resellers := [] |}).
  reflexivity.
Defined.

Lemma commands_keep_bot_consistent_witness :
  let b := run_command sample_owners 1 sample_upload init_bot in
  NoDup (resellers b) ∧
  (∀ u p, (u, p) ∈ resellers b → p ∈ PROGRAMS) ∧
  NoDup (key <$> rows (db (inventory b))) ∧
  (∀ r, r ∈ rows (db (inventory b)) → offered (program r) (duration r)) ∧
  ∀ p d, offered p d →
    match Fs.read_text (stock_file p d) (files (inventory b)) with
    | Ret text => Py.splitlines text = Sql.unused_keys p d (db (inventory b))
    | Raise FileNotFoundError => get_stock_count p d (inventory b) = 0%nat
    | Raise IsADirectoryError => False
    end.
Proof.
  apply (commands_keep_bot_consistent sample_owners).
  apply (commands_one_by_one_step sample_owners 1 sample_upload init_bot).
  - apply commands_one_by_one_init.
  - apply sample_offered.
Defined.

Lemma logged_key_hides_stored_key_witness :
  let shown := logged_key false (key sample_long_row) in
  length shown = length (key sample_long_row) ∧
  ∀ i, (4 ≤ i < length (key sample_long_row) - 4)%nat → shown !! i = Some STAR.
Proof.
  apply (logged_key_hides_stored_key sample_long_stocked sample_long_row).
  - apply rtc_once, step_op.
  - vm_compute. left.
Defined.

(** The key of the witness as the log shows it. *)
Example logged_key_long :
  logged_key false (py "ABCD-EFGH-IJKL") = py "ABCD******IJKL".
Proof. reflexivity. Qed.

(** ** An import in two parts *)

Section import_parts.
Import Spec.

Lemma split_nonempty (delim : N → bool) (t : str) : split delim t ≠ [].
Proof.
  destruct t as [|c t]; simpl; [done|].
  destruct (delim c); [done|]. by destruct (split delim t).
Qed.

Lemma split_app (delim : N → bool) (t1 t2 : str) (c : N) :
  delim c = true →
  split delim (t1 ++ c :: t2) = split delim t1 ++ split delim t2.
Proof.
  intros Hc. induction t1 as [|x t1 IH]; simpl.
  - by rewrite Hc.
  - rewrite IH. destruct (delim x); [done|].
    pose proof (split_nonempty delim t1). by destruct (split delim t1).
Qed.

Lemma nonempty_stripped_app (A B : list str) :
  nonempty_stripped (A ++ B) = nonempty_stripped A ++ nonempty_stripped B.
Proof. unfold nonempty_stripped. by rewrite fmap_app, filter_app. Qed.

Lemma dedup_first_app (A B : list str) :
  dedup_first (A ++ B)
  = dedup_first A ++ filter (λ k, k ∉ A) (dedup_first B).
Proof.
  induction B as [|k B IH] using rev_ind.
  { by rewrite !app_nil_r. }
  rewrite app_assoc, !dedup_first_snoc, IH.
  destruct (decide (k ∈ B)) as [HB|HB].
  - rewrite decide_True; [done|]. apply elem_of_app. by right.
  - destruct (decide (k ∈ A)) as [HA|HA].
    + rewrite decide_True by (apply elem_of_app; by left).
      rewrite filter_app, filter_cons_False, filter_nil, app_nil_r; [done|].
      by intros Hk.
    + rewrite decide_False by (rewrite elem_of_app; tauto).
      rewrite filter_app, filter_cons_True, filter_nil, app_assoc; done.
Qed.

(** The tokens of two texts put together with a newline between them. *)
Lemma parse_keys_app (t1 t2 : str) :
  parse_keys (t1 ++ LF :: t2)
  = parse_keys t1 ++ filter (λ k, k ∉ parse_keys t1) (parse_keys t2).
Proof.
  rewrite !parse_keys_tokens. unfold tokens.
  rewrite split_app by done. rewrite nonempty_stripped_app, dedup_first_app.
  f_equal. apply filter_ext_in. intros k _. by rewrite elem_of_dedup_first.
Qed.

Lemma new_rows_app p d n (ks1 ks2 : list str) :
  new_rows p d n (ks1 ++ ks2)
  = new_rows p d n ks1 ++ new_rows p d (n + N.of_nat (length ks1)) ks2.
Proof.
  revert n. induction ks1 as [|k ks1 IH]; intros n; simpl.
  - by rewrite N.add_0_r.
  - rewrite IH. do 3 f_equal. lia.
Qed.

End import_parts.

Section import_states.
Implicit Types (s : state) (p d : str).

(** The state an import leaves, whether or not the mirror file could be
    written. *)
Lemma add_stock_state p d raw s :
  let fresh := filter (λ k, k ∉ key <$> rows (db s)) (parse_keys raw) in
  (add_stock_via_text p d raw s).2
  = {| db := {| rows := rows (db s) ++ new_rows p d (seq (db s)) fresh;
                seq := seq (db s) + N.of_nat (length fresh) |};
       files := match fresh with
                | [] => files s
                | _ => match Fs.append_text (stock_file p d) (mirror_lines fresh)
                               (files s) with
                       | Ret fs' => fs'
                       | Raise _ => files s
                       end
                end |}.
Proof.
  cbv zeta. rewrite add_stock_via_text_spec. cbv zeta.
  destruct (filter _ _) as [|k fr].
  - simpl. rewrite app_nil_r, N.add_0_r. by destruct s as [[??] ?].
  - by destruct (Fs.append_text _ _ _).
Qed.

Lemma add_stock_counts p d raw s added skipped :
  (add_stock_via_text p d raw s).1 = Ret (added, skipped) →
  added = length (filter (λ k, k ∉ key <$> rows (db s)) (parse_keys raw)) ∧
  skipped = length (filter (λ k, k ∈ key <$> rows (db s)) (parse_keys raw)).
Proof.
  rewrite add_stock_via_text_spec. cbv zeta.
  destruct (filter (λ k, k ∉ _) _) as [|k fr].
  - by intros [= <- <-].
  - destruct (Fs.append_text _ _ _); [|done]. by intros [= <- <-].
Qed.

Lemma append_twice (path t1 t2 : str) (fs : gmap str node) :
  match Fs.append_text path t1 fs with
  | Ret fs1 => match Fs.append_text path t2 fs1 with
               | Ret fs2 => Fs.append_text path (t1 ++ t2) fs = Ret fs2
               | Raise _ => False
               end
  | Raise e => Fs.append_text path t2 fs = Raise e ∧
               Fs.append_text path (t1 ++ t2) fs = Raise e
  end.
Proof.
  unfold Fs.append_text. destruct (fs !! path) as [[c|]|] eqn:Hp.
  - rewrite lookup_insert_eq, insert_insert_eq. by rewrite app_assoc.
  - done.
  - by rewrite lookup_insert_eq, insert_insert_eq.
Qed.

End import_states.

Lemma filter_either_length {A} (P Q R : A → Prop) `{∀ x, Decision (P x)}
    `{∀ x, Decision (Q x)} `{∀ x, Decision (R x)} (l : list A) :
  (∀ x, x ∈ l → R x ↔ P x ∨ Q x) → (∀ x, x ∈ l → P x → Q x → False) →
  length (filter R l) = (length (filter P l) + length (filter Q l))%nat.
Proof.
  induction l as [|x l IH]; intros Hiff Hdis; [done|].
  assert (Hx : x ∈ x :: l) by by left.
  specialize (Hiff x Hx) as Hxiff. specialize (Hdis x Hx) as Hxdis.
  assert (IH' : length (filter R l)
                = (length (filter P l) + length (filter Q l))%nat).
  { apply IH; intros y Hy; [apply Hiff|apply Hdis]; by right. }
  rewrite !filter_cons.
  repeat case_decide; simpl; rewrite ?IH'; try lia; exfalso; tauto.
Qed.

Section two_parts.
Implicit Types (s : state) (p d : str).

(** X22. An import may be split at a newline: importing [t1] and then
    [t2] leaves the very state (table, counter and stock directory) that
    importing [t1], a newline and [t2] at once leaves; when both parts
    return, the single import returns too, with the same number added,
    and its count of duplicates is lower by the number of tokens of [t2]
    that [t1] held already - within one import a repeated token is
    counted nowhere, across two it is a duplicate. *)
Theorem import_in_two_parts p d t1 t2 s :
  let one := add_stock_via_text p d (t1 ++ [LF] ++ t2) s in
  let first := add_stock_via_text p d t1 s in
  let second := add_stock_via_text p d t2 first.2 in
  second.2 = one.2 ∧
  ∀ a1 k1 a2 k2,
    first.1 = Ret (a1, k1) → second.1 = Ret (a2, k2) →
    ∃ k, one.1 = Ret ((a1 + a2)%nat, k) ∧
         (k + length (filter (λ x, x ∈ parse_keys t1) (parse_keys t2))
          = k1 + k2)%nat.
Proof.
  cbv zeta. change (t1 ++ [LF] ++ t2) with (t1 ++ LF :: t2).
  set (K := key <$> rows (db s)).
  set (A := parse_keys t1). set (B := parse_keys t2).
  set (f1 := filter (λ k, k ∉ K) A).
  set (s1 := (add_stock_via_text p d t1 s).2).
  assert (Hs1 : s1 = (add_stock_via_text p d t1 s).2) by done.
  rewrite add_stock_state in Hs1. cbv zeta in Hs1. fold K A f1 in Hs1.
  assert (Hrows1 : rows (db s1) = rows (db s) ++ new_rows p d (seq (db s)) f1)
    by by rewrite Hs1.
  assert (Hseq1 : seq (db s1) = seq (db s) + N.of_nat (length f1))
    by by rewrite Hs1.
  assert (Hfiles1 : files s1 = match f1 with
                               | [] => files s
                               | _ => match Fs.append_text (stock_file p d)
                                              (mirror_lines f1) (files s) with
                                      | Ret fs' => fs'
                                      | Raise _ => files s
                                      end
                               end) by by rewrite Hs1.
  clear Hs1.
  assert (HK1 : key <$> rows (db s1) = K ++ f1).
  { rewrite Hrows1. by rewrite fmap_app, new_rows_keys. }
  set (f2 := filter (λ k, k ∉ key <$> rows (db s1)) B).
  assert (Hin1 : ∀ k, k ∈ f1 ↔ (k ∉ K) ∧ k ∈ A).
  { intros k. unfold f1. by rewrite list_elem_of_filter. }
  assert (Hf12 : filter (λ k, k ∉ K) (parse_keys (t1 ++ LF :: t2)) = f1 ++ f2).
  { rewrite parse_keys_app, filter_app. fold A B f1. f_equal.
    rewrite list_filter_filter. unfold f2. apply list_filter_iff.
    intros k. rewrite HK1, elem_of_app, Hin1.
    destruct (decide (k ∈ K)), (decide (k ∈ A)); tauto. }
  split.
  - rewrite (add_stock_state p d (t1 ++ LF :: t2) s), (add_stock_state p d t2 s1).
    cbv zeta. fold K B f2. rewrite Hf12.
    rewrite new_rows_app, app_assoc, length_app, Hrows1, Hseq1, Hfiles1.
    f_equal; [f_equal; lia|].
    rewrite mirror_lines_app.
    pose proof (append_twice (stock_file p d) (mirror_lines f1) (mirror_lines f2)
                  (files s)) as Htwice.
    destruct f1 as [|x f1'], f2 as [|y f2']; simpl; try done.
    + by rewrite app_nil_r.
    + destruct (Fs.append_text (stock_file p d) (mirror_lines (x :: f1')) (files s))
        as [fs1|e].
      * destruct (Fs.append_text (stock_file p d) (mirror_lines (y :: f2')) fs1);
          [|done]. by rewrite Htwice.
      * destruct Htwice as [-> ->]. done.
  - intros a1 k1 a2 k2 H1 H2.
    pose proof H1 as H1'. pose proof H2 as H2'.
    apply add_stock_counts in H1 as [-> ->]. fold K A f1.
    apply add_stock_counts in H2 as [-> ->]. fold s1 B f2.
    fold s1 in H2'.
    rewrite add_stock_via_text_spec in H1', H2'. cbv zeta in H1', H2'.
    fold K A f1 in H1'. fold B f2 in H2'. rewrite Hfiles1 in H2'.
    exists (length (filter (λ k, k ∈ K) (parse_keys (t1 ++ LF :: t2)))).
    split.
    + rewrite add_stock_via_text_spec. cbv zeta. fold K. rewrite Hf12.
      rewrite mirror_lines_app, length_app.
      pose proof (append_twice (stock_file p d) (mirror_lines f1) (mirror_lines f2)
                    (files s)) as Htwice.
      destruct f1 as [|x f1'], f2 as [|y f2']; simpl in *; try done.
      * by destruct (Fs.append_text (stock_file p d) (mirror_lines (y :: f2')) (files s)).
      * rewrite !app_nil_r.
        by destruct (Fs.append_text (stock_file p d) (mirror_lines (x :: f1')) (files s)).
      * destruct (Fs.append_text (stock_file p d) (mirror_lines (x :: f1')) (files s))
          as [fs1|e]; [|done].
        destruct (Fs.append_text (stock_file p d) (mirror_lines (y :: f2')) fs1);
          [|done]. by rewrite Htwice.
    + rewrite parse_keys_app, filter_app, length_app. fold A B.
      rewrite list_filter_filter, <-Nat.add_assoc. f_equal.
      symmetry. apply filter_either_length.
      * intros k _. rewrite HK1, elem_of_app, Hin1.
        destruct (decide (k ∈ K)), (decide (k ∈ A)); tauto.
      * tauto.
Qed.

End two_parts.

(** ** The single-instance lock *)

Section lock.
Import Lock.

Lemma nobody_left (w : world) pid :
  (∀ p1 p2, p1 ∈ running w → p2 ∈ running w → p1 = p2) →
  pid ∈ running w → running w ∖ {[pid]} = ∅.
Proof.
  intros Hone Hpid. apply set_eq. intros q.
  rewrite elem_of_difference, elem_of_singleton.
  split; [|by intros ?%not_elem_of_empty].
  intros [Hq Hne]. destruct Hne. by apply Hone.
Qed.

Lemma lock_step_inv w w' : step true w w' → lock_held w → lock_held w'.
Proof.
  intros Hstep [Hone Hlock]. destruct Hstep as [pid w Hpid|pid w Hpid|pid w Hpid].
  - unfold acquire_lock. simpl.
    destruct (tmp w !! LOCK_PATH) as [n|] eqn:Hfile; [done|].
    assert (Hnone : running w = ∅).
    { destruct (decide (running w = ∅)) as [|Hne]; [done|].
      by destruct (Hlock Hne). }
    split; simpl.
    + intros p1 p2. rewrite Hnone, !elem_of_union, !elem_of_singleton.
      intros [->|?%not_elem_of_empty] [->|?%not_elem_of_empty]; done.
    + intros _. by rewrite lookup_insert_eq.
  - split; simpl; rewrite (nobody_left w pid) by done;
      [by intros ?? ?%not_elem_of_empty|done].
  - split; simpl; rewrite (nobody_left w pid) by done;
      [by intros ?? ?%not_elem_of_empty|done].
Qed.

Lemma lock_steps_inv w w' : rtc (step true) w w' → lock_held w → lock_held w'.
Proof. induction 1; eauto using lock_step_inv. Qed.

(** X23. With the lock enabled, and no instance running at the start,
    at most one instance runs at any time, whatever the launches, exits
    and kills: while one runs, [acquire_lock] makes every other launch
    exit. *)
Theorem lock_allows_one_instance w0 w :
  running w0 = ∅ → rtc (step true) w0 w →
  (∀ p1 p2, p1 ∈ running w → p2 ∈ running w → p1 = p2) ∧
  ∀ pid, pid ∉ running w → running w ≠ ∅ →
         acquire_lock true pid (tmp w) = None.
Proof.
  intros Hinit Hsteps.
  assert (Hinv : lock_held w).
  { eapply lock_steps_inv; [exact Hsteps|]. split; rewrite Hinit; [|done].
    by intros ?? ?%not_elem_of_empty. }
  destruct Hinv as [Hone Hlock]. split; [done|].
  intros pid _ Hne. unfold acquire_lock. simpl.
  by destruct (Hlock Hne) as [n ->].
Qed.

(** X24. A lock file left behind - as by an instance that was killed,
    [release_lock] running at a regular exit only - blocks the bot for
    good: with the file there and no instance running, no launch ever
    succeeds, and nothing removes the file. *)
Theorem stale_lock_blocks_every_launch w0 w :
  running w0 = ∅ → is_Some (tmp w0 !! LOCK_PATH) →
  rtc (step true) w0 w →
  running w = ∅ ∧ tmp w = tmp w0.
Proof.
  intros Hrun Hfile Hsteps.
  induction Hsteps as [w|w1 w2 w3 Hstep _ IH]; [done|].
  assert (Hsame : running w2 = ∅ ∧ tmp w2 = tmp w1).
  { destruct Hstep as [q w Hq|q w Hq|q w Hq].
    - unfold acquire_lock. simpl. by destruct Hfile as [n ->].
    - rewrite Hrun in Hq. by apply not_elem_of_empty in Hq.
    - rewrite Hrun in Hq. by apply not_elem_of_empty in Hq. }
  destruct Hsame as [Hr2 Ht2].
  destruct IH as [Hr3 Ht3]; [done|by rewrite Ht2|].
  split; [done|congruence].
Qed.

End lock.

Lemma lock_allows_one_instance_witness :
  (∀ p1 p2, p1 ∈ Lock.running sample_started → p2 ∈ Lock.running sample_started →
            p1 = p2) ∧
  ∀ pid, pid ∉ Lock.running sample_started → Lock.running sample_started ≠ ∅ →
         Lock.acquire_lock true pid (Lock.tmp sample_started) = None.
Proof.
  apply (lock_allows_one_instance sample_idle).
  - reflexivity.
  - apply rtc_once.
    exact (Lock.step_launch true 42 sample_idle (not_elem_of_empty 42)).
Defined.

Lemma stale_lock_blocks_every_launch_witness :
  Lock.running sample_relaunched = ∅ ∧
  Lock.tmp sample_relaunched = Lock.tmp sample_killed.
Proof.
  apply (stale_lock_blocks_every_launch sample_killed sample_relaunched).
  - reflexivity.
  - exists (File (Lock.pid_text 42)). reflexivity.
  - eapply rtc_l; [|apply rtc_once].
    + exact (Lock.step_launch true 43 sample_killed (not_elem_of_empty 43)).
    + exact (Lock.step_launch true 44 _ (not_elem_of_empty 44)).
Defined.
